(** * Verification of the annotation core of the table-annotation repository

    The development embeds three pieces of the Python sources:

    - [Kgs]        : [data_model/kgs.py], the [Entity] value type and its
                     overridden equality;
    - [Functions]  : [utils/functions.py], the rank-fusion routine
                     [weighting_by_ranking];
    - [Annotators] : [annotators/__init__.py], the per-table driver
                     [CEAAnnotator.annotate_table] with its on-disk cache.

    In [Functions] Python [float]s are idealised as exact rationals ([Q]);
    NaN and the infinities are outside that model.  [Binary64] is the same
    routine over IEEE 754 binary64 and is the one evaluated where the very
    numbers matter.  Exceptions are values of [exn] carried by the [result]
    type.  Further modules embed the list and text helpers of
    [utils/functions.py], the dataset loop of the annotator, the paths of
    [datasets/__init__.py], the abstract collector of [generators/utils.py]
    and the endpoint wrapper of [utils/kgs.py]. *)

From stdpp Require Import gmap strings list fin_maps.
From Stdlib Require Import ZArith QArith Qabs Qminmax Qfield Lqa Ascii Sorted Permutation Lia.
From Stdlib Require PrimFloat Uint63.

Open Scope string_scope.
Open Scope list_scope.
Open Scope nat_scope.

(** ** Exceptions and fallible results *)

Inductive exn : Type :=
| AssertionError
| ValueError
| TypeError
| ZeroDivisionError
| KeyError
| OSError
| FileNotFoundError
| EOFError
| PicklingError
| GeneratorError (msg : string).

Inductive result (A : Type) : Type :=
| Ok (a : A)
| Raise (e : exn).
Arguments Ok {A} a.
Arguments Raise {A} e.

(** Sequencing: the first exception raised aborts what follows. *)
#[global] Instance result_bind : MBind result := fun A B k r =>
  match r with
  | Ok a => k a
  | Raise e => Raise e
  end.

(** [assert cond]: continue when [cond] holds, raise [AssertionError] otherwise. *)
Definition assert (cond : bool) : result unit :=
  if cond then Ok tt else Raise AssertionError.

Fixpoint mapM {A B} (f : A -> result B) (l : list A) : result (list B) :=
  match l with
  | [] => Ok []
  | x :: xs => y ← f x; ys ← mapM f xs; Ok (y :: ys)
  end.

(** * data_model/kgs.py *)

Module Kgs.

Record Entity := { uri : string }.
Record Class := { class_uri : string }.
Record Property := { property_uri : string }.

(** The Python values an [Entity] may be compared with: the three named
    tuples of the module, plain tuples of strings, strings and [None]. *)
Inductive object : Type :=
| PyEntity (e : Entity)
| PyClass (c : Class)
| PyProperty (p : Property)
| PyTuple (items : list string)
| PyStr (s : string)
| PyNone.

Section Entity.
(** [urllib.parse.unquote] and [str.lower] on Python strings. *)
Variable unquote : string -> string.
Variable lower : string -> string.
(** The interpreter's [hash] on strings (salted per process) and on tuples
    (a function of the hashes of the items). *)
Variable str_hash : string -> Z.
Variable tuple_hash : list Z -> Z.

(** [Entity.__eq__] *)
Definition Entity_eq (self : Entity) (o : object) : bool :=
  match o with
  | PyEntity o => bool_decide (lower (unquote (uri self)) = lower (unquote (uri o)))
  | _ => false
  end.

(** The items of a value that is a tuple, plain or named. *)
Definition tuple_items (o : object) : option (list string) :=
  match o with
  | PyEntity e => Some [uri e]
  | PyClass c => Some [class_uri c]
  | PyProperty p => Some [property_uri p]
  | PyTuple items => Some items
  | PyStr _ | PyNone => None
  end.

(** The method [__eq__] that the type of [self] provides; [None] stands
    for [NotImplemented].  [Entity] has the method above; [Class], [Property]
    and plain tuples have [tuple.__eq__], which compares the items of any two
    tuples, whatever their classes; strings compare with strings, and [None]
    with itself. *)
Definition dunder_eq (self o : object) : option bool :=
  match self with
  | PyEntity e => Some (Entity_eq e o)
  | PyClass _ | PyProperty _ | PyTuple _ =>
      match tuple_items self, tuple_items o with
      | Some a, Some b => Some (bool_decide (a = b))
      | _, _ => None
      end
  | PyStr s =>
      match o with
      | PyStr t => Some (bool_decide (s = t))
      | _ => None
      end
  | PyNone =>
      match o with
      | PyNone => Some true
      | _ => None
      end
  end.

(** The right operand is asked first when its type is a proper subclass
    of the type of the left operand and overrides the method: here a plain
    tuple on the left of an [Entity]. *)
Definition reflected_first (a b : object) : bool :=
  match a, b with
  | PyTuple _, PyEntity _ => true
  | _, _ => false
  end.

(** [a == b]: the method of one operand, then the method of the other
    when the first answers [NotImplemented], then identity, which is false
    between values of different types. *)
Definition py_eq (a b : object) : bool :=
  let '(first, second) := if reflected_first a b then (b, a) else (a, b) in
  match dunder_eq first second with
  | Some r => r
  | None => default false (dunder_eq second first)
  end.

(** The class body defines no [__hash__]; a named tuple then hashes as the
    tuple of its fields, here the one-element tuple [(uri,)]. *)
Definition Entity_hash (self : Entity) : Z :=
  tuple_hash [str_hash (uri self)].

(** The hash part of the equality invariant as the spec words it: equal
    entities hash equal. *)
Definition hash_respects_eq : Prop :=
  forall a b : Entity, Entity_eq a (PyEntity b) = true -> Entity_hash a = Entity_hash b.

End Entity.

End Kgs.

(** * utils/functions.py *)

Module Functions.

(** Ranks are Python ints; they enter float arithmetic through this injection. *)
Definition of_rank (r : nat) : Q := inject_Z (Z.of_nat r).

(** ** sklearn's MinMaxScaler on one feature, feature_range = (0, 1)

    [fit] records the minimum and the maximum of the column, replaces a
    zero-width range by 1 ([_handle_zeros_in_scale]) and stores
    [scale_ = (1 - 0) / range] and [min_ = 0 - data_min * scale_];
    [transform x] is [x * scale_ + min_].  Division is kept partial so that a
    division by zero would show up as [ZeroDivisionError]. *)

Record MinMaxScaler := {
  data_min_ : Q;
  data_max_ : Q;
  scale_ : Q;
  min_ : Q
}.

Definition safe_div (a b : Q) : result Q :=
  if Qeq_bool b 0 then Raise ZeroDivisionError else Ok (a / b)%Q.

Definition handle_zeros_in_scale (r : Q) : Q :=
  if Qeq_bool r 0 then 1%Q else r.

Definition list_min (x : Q) (xs : list Q) : Q := fold_left Qmin xs x.
Definition list_max (x : Q) (xs : list Q) : Q := fold_left Qmax xs x.

Definition fit (data : list Q) : result MinMaxScaler :=
  match data with
  | [] => Raise ValueError
  | x :: xs =>
      let data_min := list_min x xs in
      let data_max := list_max x xs in
      let data_range := (data_max - data_min)%Q in
      scale ← safe_div (1 - 0)%Q (handle_zeros_in_scale data_range);
      Ok {| data_min_ := data_min;
            data_max_ := data_max;
            scale_ := scale;
            min_ := (0 - data_min * scale)%Q |}
  end.

Definition transform (s : MinMaxScaler) (x : Q) : Q :=
  (x * scale_ s + min_ s)%Q.

(** ** Stable sort by a rational key

    [sorted(xs, key=f)] decorates every element with its key, sorts stably
    in ascending key order and undecorates.  The keys here are rationals, on
    which the order is total, so the result of any stable sort is the one of
    the insertion sort below. *)

Section Sorted.
Context {A : Type}.

Fixpoint insert_by_key (x : Q * A) (l : list (Q * A)) : list (Q * A) :=
  match l with
  | [] => [x]
  | y :: l' =>
      if Qle_bool (fst x) (fst y) then x :: y :: l'
      else y :: insert_by_key x l'
  end.

Fixpoint sort_by_key (l : list (Q * A)) : list (Q * A) :=
  match l with
  | [] => []
  | x :: l' => insert_by_key x (sort_by_key l')
  end.

Definition sorted (key : A -> result Q) (l : list A) : result (list A) :=
  decorated ← mapM (fun a => k ← key a; Ok (k, a)) l;
  Ok (map snd (sort_by_key decorated)).
End Sorted.

(** ** The candidate value objects *)

Section RankFusion.
(** The candidate payload and the embedding vectors are opaque to the
    routine; [cosine] is scipy's cosine distance between two vectors. *)
Variable Candidate : Type.
Variable Emb : Type.
Variable cosine : Emb -> Emb -> Q.

(** Modelled from the spec: [data_model/generator.py] is not part of the
    sources.  A CandidateEmbeddings is a Candidate plus two optional
    vectors, a context embedding and an abstract embedding. *)
Record CandidateEmbeddings := {
  candidate : Candidate;
  context_emb : option Emb;
  abstract_emb : option Emb
}.

(** Modelled from the spec: [data_model/generator.py] is not part of the
    sources.  A ScoredCandidate is a Candidate, its original rank, an
    optional raw distance and an optional fused score; the constructor
    takes them in this order. *)
Record ScoredCandidate := {
  sc_candidate : Candidate;
  original_rank : nat;
  distance : option Q;
  score : option Q
}.

(** Truth value of the optional float [default_score]: [None] and [0.0]
    are falsy. *)
Definition truthy (default_score : option Q) : bool :=
  match default_score with
  | None => false
  | Some d => negb (Qeq_bool d 0)
  end.

Definition ge_zero (default_score : option Q) : bool :=
  match default_score with
  | None => false
  | Some d => Qle_bool 0 d
  end.

Fixpoint enumerate_from {X} (start : nat) (l : list X) : list (nat * X) :=
  match l with
  | [] => []
  | x :: l' => (start, x) :: enumerate_from (S start) l'
  end.

Definition enumerate {X} (l : list X) : list (nat * X) := enumerate_from 0 l.

(** One iteration of the partitioning loop (lines 64-80): the pair is
    [(scored_candidates, non_scored_candidates)]. *)
Definition partition_step (default_score : option Q)
    (acc : list ScoredCandidate * list ScoredCandidate)
    (item : nat * CandidateEmbeddings)
  : list ScoredCandidate * list ScoredCandidate :=
  let '(scored_candidates, non_scored_candidates) := acc in
  let '(rank, c_emb) := item in
  match context_emb c_emb, abstract_emb c_emb with
  | Some ctx, Some abs =>
      (scored_candidates ++
         [{| sc_candidate := candidate c_emb; original_rank := rank;
             distance := Some (cosine ctx abs); score := None |}],
       non_scored_candidates)
  | _, _ =>
      if truthy default_score then
        (scored_candidates ++
           [{| sc_candidate := candidate c_emb; original_rank := rank;
               distance := default_score; score := None |}],
         non_scored_candidates)
      else
        (scored_candidates,
         non_scored_candidates ++
           [{| sc_candidate := candidate c_emb; original_rank := rank;
               distance := None; score := None |}])
  end.

Definition partition_candidates (default_score : option Q)
    (candidates : list CandidateEmbeddings)
  : list ScoredCandidate * list ScoredCandidate :=
  fold_left (partition_step default_score) (enumerate candidates) ([], []).

(** [np.array([c.distance for c in scored_candidates])]: a [None] among
    the distances makes the later fit fail. *)
Definition distances (l : list ScoredCandidate) : result (list Q) :=
  mapM (fun c => match distance c with
                 | Some d => Ok d
                 | None => Raise TypeError
                 end) l.

(** The body of the lambda mapped over [scored_candidates] (lines 90-96). *)
Definition fuse (alpha : Q) (rank_scaler distance_scaler : MinMaxScaler)
    (s_cand : ScoredCandidate) : result ScoredCandidate :=
  match distance s_cand with
  | None => Raise TypeError
  | Some d =>
      Ok {| sc_candidate := sc_candidate s_cand;
            original_rank := original_rank s_cand;
            distance := distance s_cand;
            score := Some (alpha * transform rank_scaler (of_rank (original_rank s_cand))
                           + (1 - alpha) * transform distance_scaler d)%Q |}
  end.

Definition score_key (s_cand : ScoredCandidate) : result Q :=
  match score s_cand with
  | Some s => Ok s
  | None => Raise TypeError
  end.

Definition weighting_by_ranking (candidates : list CandidateEmbeddings)
    (alpha : Q) (default_score : option Q) : result (list ScoredCandidate) :=
  _ ← (if truthy default_score then assert (ge_zero default_score) else Ok tt);
  _ ← assert (Qle_bool 0 alpha && Qle_bool alpha 1);
  let '(scored_candidates, non_scored_candidates) :=
    partition_candidates default_score candidates in
  match candidates, scored_candidates with
  | [], _ | _, [] => Ok non_scored_candidates
  | _, _ =>
      rank_scaler ← fit (map of_rank (seq 0 (length candidates)));
      ds ← distances scored_candidates;
      distance_scaler ← fit ds;
      scored_candidates' ← mapM (fuse alpha rank_scaler distance_scaler) scored_candidates;
      ranked ← sorted score_key scored_candidates';
      Ok (ranked ++ non_scored_candidates)
  end.

End RankFusion.

Arguments candidate {Candidate Emb} _.
Arguments context_emb {Candidate Emb} _.
Arguments abstract_emb {Candidate Emb} _.
Arguments Build_CandidateEmbeddings {Candidate Emb} _ _ _.
Arguments sc_candidate {Candidate} _.
Arguments original_rank {Candidate} _.
Arguments distance {Candidate} _.
Arguments score {Candidate} _.
Arguments Build_ScoredCandidate {Candidate} _ _ _ _.
Arguments partition_step {Candidate Emb} cosine default_score acc item.
Arguments partition_candidates {Candidate Emb} cosine default_score candidates.
Arguments distances {Candidate} l.
Arguments fuse {Candidate} alpha rank_scaler distance_scaler s_cand.
Arguments score_key {Candidate} s_cand.
Arguments weighting_by_ranking {Candidate Emb} cosine candidates alpha default_score.

(** ** Vocabulary of the specification

    The definitions below name what the statements about the routine talk
    about; none of them is used by the code above. *)

(** The scaler that [fit] builds from the extremes of a column. *)
Definition scaler_of (lo hi : Q) : MinMaxScaler :=
  {| data_min_ := lo;
     data_max_ := hi;
     scale_ := ((1 - 0) / handle_zeros_in_scale (hi - lo))%Q;
     min_ := (0 - lo * ((1 - 0) / handle_zeros_in_scale (hi - lo)))%Q |}.

(** Min-max normalisation as the spec words it, with the value 0 on a
    zero-width range. *)
Definition minmax_normalize (lo hi x : Q) : Q :=
  if Qeq_bool (hi - lo) 0 then 0%Q else ((x - lo) / (hi - lo))%Q.

(** The extremes of a column, and the scaler fitted on it. *)
Definition column_min (data : list Q) : Q :=
  match data with
  | [] => 0%Q
  | x :: xs => list_min x xs
  end.

Definition column_max (data : list Q) : Q :=
  match data with
  | [] => 0%Q
  | x :: xs => list_max x xs
  end.

Definition column_scaler (data : list Q) : MinMaxScaler :=
  scaler_of (column_min data) (column_max data).

Section Vocabulary.
Context {Candidate Emb : Type} (cosine : Emb -> Emb -> Q).
Abbreviation CE := (CandidateEmbeddings Candidate Emb).
Abbreviation SC := (ScoredCandidate Candidate).

(** A candidate is scorable when both of its embeddings are present. *)
Definition scorable (c : CE) : bool :=
  match context_emb c, abstract_emb c with
  | Some _, Some _ => true
  | _, _ => false
  end.

(** The raw distance the loop records for a candidate, if any. *)
Definition raw_distance (default_score : option Q) (c : CE) : option Q :=
  match context_emb c, abstract_emb c with
  | Some ctx, Some abs => Some (cosine ctx abs)
  | _, _ => if truthy default_score then default_score else None
  end.

(** Rank, payload and raw distance of the candidates that enter the
    scored list, in input order. *)
Definition scored_entry (default_score : option Q) (item : nat * CE)
  : option (nat * Candidate * Q) :=
  match raw_distance default_score item.2 with
  | Some d => Some (item.1, candidate item.2, d)
  | None => None
  end.

Definition non_scored_entry (default_score : option Q) (item : nat * CE)
  : option SC :=
  match raw_distance default_score item.2 with
  | Some _ => None
  | None => Some (Build_ScoredCandidate (candidate item.2) item.1 None None)
  end.

Definition scored_entries (default_score : option Q) (candidates : list CE) :=
  omap (scored_entry default_score) (enumerate candidates).

Definition non_scored (default_score : option Q) (candidates : list CE) : list SC :=
  omap (non_scored_entry default_score) (enumerate candidates).

Definition unfused (t : nat * Candidate * Q) : SC :=
  Build_ScoredCandidate t.1.2 t.1.1 (Some t.2) None.

Definition code_score (alpha : Q) (rank_scaler distance_scaler : MinMaxScaler)
    (t : nat * Candidate * Q) : Q :=
  (alpha * transform rank_scaler (of_rank t.1.1)
   + (1 - alpha) * transform distance_scaler t.2)%Q.

Definition fused (alpha : Q) (rank_scaler distance_scaler : MinMaxScaler)
    (t : nat * Candidate * Q) : SC :=
  Build_ScoredCandidate t.1.2 t.1.1 (Some t.2)
    (Some (code_score alpha rank_scaler distance_scaler t)).

Definition rank_scaler_of (candidates : list CE) : MinMaxScaler :=
  column_scaler (map of_rank (seq 0 (length candidates))).

Definition distance_scaler_of (ds : option Q) (candidates : list CE) : MinMaxScaler :=
  column_scaler (map snd (scored_entries ds candidates)).

Definition decorated (alpha : Q) (ds : option Q) (candidates : list CE)
  : list (Q * SC) :=
  map (fun t =>
         (code_score alpha (rank_scaler_of candidates) (distance_scaler_of ds candidates) t,
          fused alpha (rank_scaler_of candidates) (distance_scaler_of ds candidates) t))
      (scored_entries ds candidates).

(** The ranked prefix of the output. *)
Definition ranked (alpha : Q) (ds : option Q) (candidates : list CE) : list SC :=
  map snd (sort_by_key (decorated alpha ds candidates)).

Definition valid_alpha (alpha : Q) : Prop := (0 <= alpha)%Q /\ (alpha <= 1)%Q.

Definition valid_default (ds : option Q) : Prop :=
  match ds with
  | Some d => (0 <= d)%Q
  | None => True
  end.

(** The fused score as the spec words it: [alpha] times the rank
    normalised over [[0, n - 1]] plus [1 - alpha] times the distance
    normalised over [[dmin, dmax]]. *)
Definition fused_score (alpha : Q) (n : nat) (dmin dmax : Q) (rank : nat) (d : Q) : Q :=
  (alpha * minmax_normalize 0 (of_rank (n - 1)) (of_rank rank)
   + (1 - alpha) * minmax_normalize dmin dmax d)%Q.

(** The cosine distances of the scorable candidates, in input order. *)
Definition scorable_distances (candidates : list CE) : list Q :=
  omap (fun c => match context_emb c, abstract_emb c with
                 | Some ctx, Some ab => Some (cosine ctx ab)
                 | _, _ => None
                 end) candidates.

End Vocabulary.

End Functions.

(** * utils/functions.py over binary64

    [Functions] above computes over exact rationals.  The module below is
    the same routine over IEEE 754 binary64, the [float] of Python and the
    type of the arrays the scalers are fitted on: it is the one to evaluate
    where a statement depends on the very numbers the program computes. *)

Module Binary64.
Import PrimFloat.

(** The conversion of a Python int to a float, as the array of the ranks
    is converted. *)
Definition of_rank (r : nat) : float := of_uint63 (Uint63.of_Z (Z.of_nat r)).

(** [np.finfo(np.float64).eps] *)
Definition eps : float := 0x1p-52%float.

(** ** The scaler

    Modelled from the library: scikit-learn is not part of the sources.
    [MinMaxScaler] (version 1.0 and later) on one feature with
    [feature_range = (0, 1)]: [fit] rejects an infinite entry, skips NaN
    entries for the minimum and the maximum, takes a range below [10 * eps]
    for a constant feature and replaces it by 1, and stores
    [scale_ = (1 - 0) / range] and [min_ = 0 - data_min * scale_];
    [transform x] rejects an infinite [x] and is [x * scale_ + min_]. *)

Record MinMaxScaler := {
  data_min_ : float;
  data_max_ : float;
  scale_ : float;
  min_ : float
}.

Definition handle_zeros_in_scale (r : float) : float :=
  if (r <? 10 * eps)%float then 1%float else r.

Definition nanmin (a b : float) : float :=
  if is_nan a then b else if is_nan b then a else if (b <? a)%float then b else a.

Definition nanmax (a b : float) : float :=
  if is_nan a then b else if is_nan b then a else if (a <? b)%float then b else a.

Definition fit (data : list float) : result MinMaxScaler :=
  match data with
  | [] => Raise ValueError
  | x :: xs =>
      if existsb is_infinity data then Raise ValueError
      else
        let data_min := fold_left nanmin xs x in
        let data_max := fold_left nanmax xs x in
        let data_range := (data_max - data_min)%float in
        let scale := ((1 - 0) / handle_zeros_in_scale data_range)%float in
        Ok {| data_min_ := data_min;
              data_max_ := data_max;
              scale_ := scale;
              min_ := (0 - data_min * scale)%float |}
  end.

Definition transform (s : MinMaxScaler) (x : float) : result float :=
  if is_infinity x then Raise ValueError else Ok (x * scale_ s + min_ s)%float.

(** ** Stable sort by a float key

    [sorted] compares the keys with [<]; on keys without NaN the order is
    total and the result of any stable sort is the one of the insertion sort
    below. *)

Section Sorted.
Context {A : Type}.

Fixpoint insert_by_key (x : float * A) (l : list (float * A)) : list (float * A) :=
  match l with
  | [] => [x]
  | y :: l' =>
      if (fst x <=? fst y)%float then x :: y :: l'
      else y :: insert_by_key x l'
  end.

Fixpoint sort_by_key (l : list (float * A)) : list (float * A) :=
  match l with
  | [] => []
  | x :: l' => insert_by_key x (sort_by_key l')
  end.

Definition sorted (key : A -> result float) (l : list A) : result (list A) :=
  decorated ← mapM (fun a => k ← key a; Ok (k, a)) l;
  Ok (map snd (sort_by_key decorated)).
End Sorted.

(** ** The routine *)

Section RankFusion.
Variable Candidate : Type.
Variable Emb : Type.
(** scipy's cosine distance between two vectors. *)
Variable cosine : Emb -> Emb -> float.

(** Modelled from the spec, as in [Functions]: a ScoredCandidate is a
    Candidate, its original rank, an optional raw distance and an optional
    fused score; the constructor takes them in this order. *)
Record ScoredCandidate := {
  sc_candidate : Candidate;
  original_rank : nat;
  distance : option float;
  score : option float
}.

(** Truth value of the optional float [default_score]: [None] and the
    zeros are falsy. *)
Definition truthy (default_score : option float) : bool :=
  match default_score with
  | None => false
  | Some d => negb (d =? 0)%float
  end.

Definition ge_zero (default_score : option float) : bool :=
  match default_score with
  | None => false
  | Some d => (0 <=? d)%float
  end.

(** One iteration of the partitioning loop (lines 64-80). *)
Definition partition_step (default_score : option float)
    (acc : list ScoredCandidate * list ScoredCandidate)
    (item : nat * Functions.CandidateEmbeddings Candidate Emb)
  : list ScoredCandidate * list ScoredCandidate :=
  let '(scored_candidates, non_scored_candidates) := acc in
  let '(rank, c_emb) := item in
  match Functions.context_emb c_emb, Functions.abstract_emb c_emb with
  | Some ctx, Some abs =>
      (scored_candidates ++
         [{| sc_candidate := Functions.candidate c_emb; original_rank := rank;
             distance := Some (cosine ctx abs); score := None |}],
       non_scored_candidates)
  | _, _ =>
      if truthy default_score then
        (scored_candidates ++
           [{| sc_candidate := Functions.candidate c_emb; original_rank := rank;
               distance := default_score; score := None |}],
         non_scored_candidates)
      else
        (scored_candidates,
         non_scored_candidates ++
           [{| sc_candidate := Functions.candidate c_emb; original_rank := rank;
               distance := None; score := None |}])
  end.

Definition partition_candidates (default_score : option float)
    (candidates : list (Functions.CandidateEmbeddings Candidate Emb))
  : list ScoredCandidate * list ScoredCandidate :=
  fold_left (partition_step default_score) (Functions.enumerate candidates) ([], []).

Definition distances (l : list ScoredCandidate) : result (list float) :=
  mapM (fun c => match distance c with
                 | Some d => Ok d
                 | None => Raise TypeError
                 end) l.

(** The body of the lambda mapped over [scored_candidates] (lines 90-96). *)
Definition fuse (alpha : float) (rank_scaler distance_scaler : MinMaxScaler)
    (s_cand : ScoredCandidate) : result ScoredCandidate :=
  match distance s_cand with
  | None => Raise TypeError
  | Some d =>
      r ← transform rank_scaler (of_rank (original_rank s_cand));
      n ← transform distance_scaler d;
      Ok {| sc_candidate := sc_candidate s_cand;
            original_rank := original_rank s_cand;
            distance := distance s_cand;
            score := Some (alpha * r + (1 - alpha) * n)%float |}
  end.

Definition score_key (s_cand : ScoredCandidate) : result float :=
  match score s_cand with
  | Some s => Ok s
  | None => Raise TypeError
  end.

Definition weighting_by_ranking
    (candidates : list (Functions.CandidateEmbeddings Candidate Emb))
    (alpha : float) (default_score : option float) : result (list ScoredCandidate) :=
  _ ← (if truthy default_score then assert (ge_zero default_score) else Ok tt);
  _ ← assert ((0 <=? alpha)%float && (alpha <=? 1)%float);
  let '(scored_candidates, non_scored_candidates) :=
    partition_candidates default_score candidates in
  match candidates, scored_candidates with
  | [], _ | _, [] => Ok non_scored_candidates
  | _, _ =>
      rank_scaler ← fit (map of_rank (seq 0 (length candidates)));
      ds ← distances scored_candidates;
      distance_scaler ← fit ds;
      scored_candidates' ← mapM (fuse alpha rank_scaler distance_scaler) scored_candidates;
      ranked ← sorted score_key scored_candidates';
      Ok (ranked ++ non_scored_candidates)
  end.

(** The fused score as the fusion is specified: [alpha] times the rank
    normalised over the ranks of all [n] candidates plus [1 - alpha] times the
    distance normalised over the cosine distances of the scorable candidates
    alone, with the scaler and the arithmetic of the routine. *)
Definition specified_score (alpha : float) (n : nat) (scorable_distances : list float)
    (rank : nat) (d : float) : result float :=
  rank_scaler ← fit (map of_rank (seq 0 n));
  distance_scaler ← fit scorable_distances;
  r ← transform rank_scaler (of_rank rank);
  x ← transform distance_scaler d;
  Ok (alpha * r + (1 - alpha) * x)%float.

End RankFusion.

Arguments sc_candidate {Candidate} _.
Arguments original_rank {Candidate} _.
Arguments distance {Candidate} _.
Arguments score {Candidate} _.
Arguments Build_ScoredCandidate {Candidate} _ _ _ _.
Arguments weighting_by_ranking {Candidate Emb} cosine candidates alpha default_score.

End Binary64.

(** * annotators/__init__.py *)

Module Annotators.

(** ** [os.path.join] on POSIX paths *)

Definition startswith_sep (s : string) : bool :=
  match s with
  | String c _ => bool_decide (c = "/"%char)
  | EmptyString => false
  end.

Fixpoint endswith_sep (s : string) : bool :=
  match s with
  | EmptyString => false
  | String c EmptyString => bool_decide (c = "/"%char)
  | String _ rest => endswith_sep rest
  end.

Definition join_step (path b : string) : string :=
  if startswith_sep b then b
  else if bool_decide (path = "") || endswith_sep path then path +:+ b
  else path +:+ "/" +:+ b.

Definition path_join (a : string) (p : list string) : string :=
  fold_left join_step p a.

(** ** The table

    Modelled from the spec: [data_model/dataset.py] is not part of the
    sources.  A Table has an identifier, a dataset identifier, a grid of
    cells addressed by (row, column), each with its text label, and a mutable
    annotation layer from cells to entities.  [Entity] wraps the identifier
    of a candidate. *)

Definition Cell : Type := nat * nat.

Record Entity := { uri : string }.

Record Table := {
  tab_id : string;
  dataset_id : string;
  cells : gmap Cell string;
  annotations : gmap Cell Entity
}.

(** Modelled from the spec: [Table.annotate_cell] records the entity in
    the annotation layer of the table. *)
Definition annotate_cell (table : Table) (cell : Cell) (entity : Entity) : Table :=
  {| tab_id := tab_id table;
     dataset_id := dataset_id table;
     cells := cells table;
     annotations := <[cell := entity]> (annotations table) |}.

Section Annotator.
(** Normalisation of a cell label into its search key. *)
Variable normalize : string -> string.
(** The generator: its stable [id], its internal state, and
    [get_candidates], which yields (search key, candidates) pairs and may
    raise, at the call or while the pairs are consumed: the pairs yielded
    before the exception come first. *)
Variable G : Type.
Variable generator_id : string.
Variable get_candidates :
  G -> Table -> list (string * list string) * option exn * G.
(** [os.path.dirname(__file__)] *)
Variable module_dir : string.

(** Modelled from the spec: [Table.get_search_keys_cells_dict] maps every
    search key to the cells whose label normalises to it. *)
Definition add_cell (d : gmap string (list Cell)) (item : Cell * string)
  : gmap string (list Cell) :=
  <[normalize item.2 := default [] (d !! normalize item.2) ++ [item.1]]> d.

Definition get_search_keys_cells_dict (table : Table) : gmap string (list Cell) :=
  fold_left add_cell (map_to_list (cells table)) ∅.

(** The world the annotator runs in: the complete pickle files of the
    cache, each holding a table; the files that exist without holding a
    complete pickle; the directories; the state of the generator; and a ghost
    counter of the calls of [get_candidates]. *)
Record World := {
  files : gmap string Table;
  broken : gset string;
  dirs : gset string;
  generator : G;
  calls : nat
}.

(** The operating system and the pickler, which the program does not
    control: the exception, if any, that [open(p, 'wb')] raises in a world (a
    missing parent directory, a directory in the way, a refusal of the
    system), and the exception, if any, that [pickle.dump] raises while it
    writes a table into the file just opened.  The counter of the world
    differs from one write to the next, so the answers are free to differ
    too. *)
Variable open_wb : World -> string -> option exn.
Variable pickle_dump : World -> Table -> option exn.

(** [Path(p).mkdir(parents=True, exist_ok=True)] *)
Definition mkdir (p : string) (w : World) : World :=
  {| files := files w; broken := broken w; dirs := {[p]} ∪ dirs w;
     generator := generator w; calls := calls w |}.

(** [os.path.exists(p)] *)
Definition path_exists (p : string) (w : World) : bool :=
  bool_decide (is_Some (files w !! p)) || bool_decide (p ∈ broken w)
  || bool_decide (p ∈ dirs w).

(** The world once [open(p, 'wb')] has returned: the file exists and is
    empty. *)
Definition opened (p : string) (w : World) : World :=
  {| files := delete p (files w); broken := {[p]} ∪ broken w; dirs := dirs w;
     generator := generator w; calls := calls w |}.

(** The world once [pickle.dump] has written the table into the file. *)
Definition written (table : Table) (p : string) (w : World) : World :=
  {| files := <[p := table]> (files w); broken := broken w ∖ {[p]}; dirs := dirs w;
     generator := generator w; calls := calls w |}.

(** [pickle.dump(table, open(p, 'wb'))]: the file is opened, which
    creates it, and then written; the exception of the step that fails, if
    one does, and the world the statement leaves. *)
Definition dump (table : Table) (p : string) (w : World) : option exn * World :=
  match open_wb w p with
  | Some e => (Some e, w)
  | None =>
      match pickle_dump (opened p w) table with
      | Some e => (Some e, opened p w)
      | None => (None, written table p (opened p w))
      end
  end.

(** [pickle.load(open(p, 'rb'))] *)
Definition load (p : string) (w : World) : result Table :=
  match files w !! p with
  | Some table => Ok table
  | None => if bool_decide (p ∈ broken w) then Raise EOFError else Raise OSError
  end.

(** The inner loop of lines 61-62 for one search key. *)
Definition annotate_cells (table : Table) (cs : list Cell) (entity : Entity) : Table :=
  fold_left (fun t cell => annotate_cell t cell entity) cs table.

(** The loop over the results (lines 59-62); the second component is the
    table object as the loop leaves it. *)
Fixpoint annotate_results (search_key_cell_dict : gmap string (list Cell))
    (results : list (string * list string)) (table : Table) : result unit * Table :=
  match results with
  | [] => (Ok tt, table)
  | (search_key, candidates) :: rest =>
      match candidates with
      | [] => annotate_results search_key_cell_dict rest table
      | best :: _ =>
          match search_key_cell_dict !! search_key with
          | None => (Raise KeyError, table)
          | Some cs =>
              annotate_results search_key_cell_dict rest
                (annotate_cells table cs {| uri := best |})
          end
      end
  end.

Definition cache_folder (table : Table) : string :=
  path_join module_dir ["annotations"; dataset_id table; generator_id].

Definition cache_file (table : Table) : string :=
  path_join (cache_folder table) [tab_id table +:+ ".pkl"].

(** [CEAAnnotator.annotate_table]: the outcome, the caller's table object
    after the call, and the world after the call. *)
Definition annotate_table (table : Table) (w : World) : result Table * Table * World :=
  let folder_path := cache_folder table in
  let w := mkdir folder_path w in
  let filename := cache_file table in
  if negb (path_exists filename w) then
    let search_key_cell_dict := get_search_keys_cells_dict table in
    let '(results, raised, g) := get_candidates (generator w) table in
    let w := {| files := files w; broken := broken w; dirs := dirs w;
                generator := g; calls := S (calls w) |} in
    match annotate_results search_key_cell_dict results table with
    | (Raise e, table) => (Raise e, table, w)
    | (Ok _, table) =>
        match raised with
        | Some e => (Raise e, table, w)
        | None =>
            match dump table filename w with
            | (Some e, w) => (Raise e, table, w)
            | (None, w) => (load filename w, table, w)
            end
        end
    end
  else (load filename w, table, w).

(** The existence check of [annotate_table] finds nothing at the path of
    the artifact. *)
Definition cache_miss (table : Table) (w : World) : Prop :=
  path_exists (cache_file table) (mkdir (cache_folder table) w) = false.

(** The world in which a call that missed the cache writes its artifact:
    the folder exists and the generator has been called. *)
Definition generated (table : Table) (g : G) (w : World) : World :=
  {| files := files w; broken := broken w; dirs := {[cache_folder table]} ∪ dirs w;
     generator := g; calls := S (calls w) |}.

End Annotator.

Arguments files {G} _.
Arguments broken {G} _.
Arguments dirs {G} _.
Arguments generator {G} _.
Arguments calls {G} _.
Arguments Build_World {G} _ _ _ _ _.
Arguments mkdir {G} p w.
Arguments path_exists {G} p w.
Arguments opened {G} p w.
Arguments written {G} table p w.
Arguments dump {G} open_wb pickle_dump table p w.
Arguments load {G} p w.
Arguments annotate_table normalize {G} generator_id get_candidates module_dir
  open_wb pickle_dump table w.
Arguments cache_miss {G} generator_id module_dir table w.
Arguments generated {G} generator_id module_dir table g w.

End Annotators.

(** * Python strings

    The [str] methods the text helpers rely on, over strings whose
    characters are the code points below 256. *)

Module PyStr.

(** [c.isspace()] *)
Definition isspace (c : ascii) : bool :=
  let n := nat_of_ascii c in
  ((9 <=? n) && (n <=? 13)) || ((28 <=? n) && (n <=? 32))
  || (n =? 133) || (n =? 160).

(** [c.isnumeric()]: the decimal digits, the superscripts 1, 2, 3 and the
    vulgar fractions. *)
Definition isnumeric_char (c : ascii) : bool :=
  let n := nat_of_ascii c in
  ((48 <=? n) && (n <=? 57)) || (n =? 178) || (n =? 179) || (n =? 185)
  || ((188 <=? n) && (n <=? 190)).

Fixpoint all_chars (p : ascii -> bool) (s : string) : bool :=
  match s with
  | EmptyString => true
  | String c rest => p c && all_chars p rest
  end.

(** [s.isnumeric()] *)
Definition isnumeric (s : string) : bool :=
  negb (bool_decide (s = "")) && all_chars isnumeric_char s.

(** [len(s)] *)
Definition len (s : string) : nat := String.length s.

Definition starts_token (s : string) : bool :=
  match s with
  | String c _ => negb (isspace c)
  | EmptyString => false
  end.

(** [s.split()]: the maximal runs of characters that are not whitespace. *)
Fixpoint split (s : string) : list string :=
  match s with
  | EmptyString => []
  | String c rest =>
      if isspace c then split rest
      else if starts_token rest then
        match split rest with
        | tok :: toks => String c tok :: toks
        | [] => [String c EmptyString]
        end
      else String c EmptyString :: split rest
  end.

(** [s.split(sep)] for a one-character separator: empty pieces are kept. *)
Fixpoint split_on (sep : ascii) (s : string) : list string :=
  match s with
  | EmptyString => [EmptyString]
  | String c rest =>
      if bool_decide (c = sep) then EmptyString :: split_on sep rest
      else
        match split_on sep rest with
        | piece :: pieces => String c piece :: pieces
        | [] => [String c EmptyString]
        end
  end.

(** [sep.join(l)] *)
Fixpoint join (sep : string) (l : list string) : string :=
  match l with
  | [] => EmptyString
  | [x] => x
  | x :: rest => x +:+ sep +:+ join sep rest
  end.

(** [s.lstrip()], [s.rstrip()], [s.strip()] *)
Fixpoint lstrip (s : string) : string :=
  match s with
  | EmptyString => EmptyString
  | String c rest => if isspace c then lstrip rest else s
  end.

Fixpoint rstrip (s : string) : string :=
  match s with
  | EmptyString => EmptyString
  | String c rest =>
      match rstrip rest with
      | EmptyString => if isspace c then EmptyString else String c EmptyString
      | rest' => String c rest'
      end
  end.

Definition strip (s : string) : string := rstrip (lstrip s).

(** [s[:n]] and [s[n:]] for [0 <= n] *)
Fixpoint str_take (n : nat) (s : string) : string :=
  match n, s with
  | S n', String c rest => String c (str_take n' rest)
  | _, _ => EmptyString
  end.

Fixpoint str_drop (n : nat) (s : string) : string :=
  match n, s with
  | S n', String _ rest => str_drop n' rest
  | _, _ => s
  end.

(** [s.index(c)] for a character: the first position, [ValueError] when
    the character does not occur. *)
Fixpoint find (c : ascii) (s : string) : option nat :=
  match s with
  | EmptyString => None
  | String c' rest => if bool_decide (c' = c) then Some 0 else S <$> find c rest
  end.

Definition index (c : ascii) (s : string) : result nat :=
  match find c s with
  | Some i => Ok i
  | None => Raise ValueError
  end.

(** [c in s] *)
Definition contains (c : ascii) (s : string) : bool :=
  bool_decide (is_Some (find c s)).

(** [l[:n]] for an optional, possibly negative bound. *)
Definition slice_to {A} (n : option Z) (l : list A) : list A :=
  match n with
  | None => l
  | Some z => if (z <? 0)%Z then take (length l - Z.to_nat (- z)) l
              else take (Z.to_nat z) l
  end.

(** A token, as [s.split()] yields them: not empty and free of whitespace. *)
Definition is_token (t : string) : Prop :=
  t <> "" /\ all_chars (fun c => negb (isspace c)) t = true.

End PyStr.

(** * utils/functions.py: list and text helpers *)

Module FunctionsText.
Import PyStr.

(** [range(0, stop, step)] *)
Definition range_step (stop : nat) (step : Z) : result (list nat) :=
  if (step =? 0)%Z then Raise ValueError
  else if (step <? 0)%Z then Ok []
  else Ok (map (fun j => j * Z.to_nat step)
               (seq 0 ((stop + Z.to_nat step - 1) / Z.to_nat step))).

(** [chunk_list]: the chunks the generator yields, or the exception its
    first step raises. *)
Definition chunk_list {A} (list_ : list A) (chunk_size : Z) : result (list (list A)) :=
  starts ← range_step (length list_) chunk_size;
  Ok (map (fun i => take (Z.to_nat chunk_size) (drop i list_)) starts).

(** The comprehension of lines 39-40. *)
Definition subsequences_of (tokens : list string) (max_subseq_len : Z) : list string :=
  map (fun i => join " " (take (i + 1) tokens))
      (rev (seq 0 (Z.to_nat (Z.min max_subseq_len (Z.of_nat (length tokens)))))).

(** The body of the loop of lines 37-41. *)
Definition subsequences_step (max_subseq_len : Z)
    (acc : gmap string (list string) * gset string) (s : string)
  : gmap string (list string) * gset string :=
  let '(subsequences, subsequences_set) := acc in
  let tokens := split s in
  let subs := subsequences_of tokens max_subseq_len in
  (<[s := subs]> subsequences, subsequences_set ∪ list_to_set subs).

Definition strings_subsequences (strings : list string) (max_subseq_len : Z)
  : gmap string (list string) * gset string :=
  fold_left (subsequences_step max_subseq_len) strings (∅, ∅).

Definition _remove_single_char (input_str : string) : string :=
  join " " (List.filter (fun x => 1 <? len x) (split input_str)).

Definition _remove_numbers (input_str : string) : string :=
  join " " (List.filter (fun x => negb (isnumeric x)) (split input_str)).

Definition _remove_brackets (input_str : string) : result string :=
  let s := input_str in
  let max_pos := len (join " " (take 5 (split s))) in
  if contains "("%char s && contains ")"%char s then
    i ← index "("%char s;
    if i <? max_pos then
      i1 ← index "("%char s;
      j ← index ")"%char s;
      Ok (str_take i1 s +:+ str_drop (j + 1) s)
    else Ok s
  else Ok s.

Section Simplify.
(** [_remove_dates] relies on [dateutil]'s parser and is left abstract. *)
Variable _remove_dates : string -> string.

Definition simplify_string (input_str : string)
    (dates numbers single_char brackets : bool) : result string :=
  let s := input_str in
  s ← (if brackets then _remove_brackets s else Ok s);
  let s := if dates then _remove_dates s else s in
  let s := if numbers then _remove_numbers s else s in
  let s := if single_char then _remove_single_char s else s in
  Ok s.
End Simplify.

End FunctionsText.

(** * utils/functions.py: further vocabulary for the rank fusion *)

Module FusionOrder.
Import Functions.

(** The tail of the output when no default score is given: the
    candidates that miss an embedding, in input order. *)
Definition unscorable_tail {Candidate Emb : Type}
    (candidates : list (CandidateEmbeddings Candidate Emb))
  : list (ScoredCandidate Candidate) :=
  map (fun item => Build_ScoredCandidate (candidate item.2) item.1 None None)
      (List.filter (fun item => negb (scorable item.2)) (enumerate candidates)).

End FusionOrder.

(** * annotators/__init__.py: the annotator object and the dataset loop *)

Module AnnotatorsDataset.
Import Annotators.

(** The interface of a dataset that [annotate_dataset] uses: its name,
    the tables [get_tables] yields (the iteration may end with an exception)
    and [total_tables]. *)
Record Dataset := {
  name : string;
  get_tables : list Table * option exn;
  total_tables : result nat
}.

(** The annotator object; the generator it holds is a parameter of the
    section below. *)
Record CEAAnnotator := { _max_workers : Z }.

(** [CEAAnnotator.__init__] *)
Definition CEAAnnotator_init (max_workers : Z) : result CEAAnnotator :=
  _ ← assert (0 <? max_workers)%Z;
  Ok {| _max_workers := max_workers |}.

Section Annotator.
Variable normalize : string -> string.
Variable G : Type.
Variable generator_id : string.
Variable get_candidates :
  G -> Table -> list (string * list string) * option exn * G.
Variable module_dir : string.
Variable open_wb : World G -> string -> option exn.
Variable pickle_dump : World G -> Table -> option exn.
(** [tqdm.contrib.concurrent.process_map], given the per-table function,
    the tables, the number of workers and the total. *)
Variable process_map :
  (Table -> World G -> result Table * Table * World G) ->
  list Table * option exn -> Z -> nat -> World G -> result (list Table) * World G.

(** [CEAAnnotator.generator_id] *)
Definition generator_id_of (self : CEAAnnotator) : string := generator_id.

(** The loop of lines 80-81 over the tables yielded so far. *)
Fixpoint annotate_each (tables : list Table) (new_annotated_tables : list Table)
    (w : World G) : result (list Table) * World G :=
  match tables with
  | [] => (Ok new_annotated_tables, w)
  | table :: rest =>
      match annotate_table normalize generator_id get_candidates module_dir
              open_wb pickle_dump table w with
      | (Ok annotated, _, w') =>
          annotate_each rest (new_annotated_tables ++ [annotated]) w'
      | (Raise e, _, w') => (Raise e, w')
      end
  end.

(** [CEAAnnotator.annotate_dataset] *)
Definition annotate_dataset (self : CEAAnnotator) (dataset : Dataset) (w : World G)
  : result (list Table) * World G :=
  let tables := get_tables dataset in
  match total_tables dataset with
  | Raise e => (Raise e, w)
  | Ok total =>
      if (_max_workers self =? 1)%Z then
        match annotate_each tables.1 [] w with
        | (Ok new_annotated_tables, w') =>
            match tables.2 with
            | Some e => (Raise e, w')
            | None => (Ok new_annotated_tables, w')
            end
        | (Raise e, w') => (Raise e, w')
        end
      else
        process_map
          (annotate_table normalize generator_id get_candidates module_dir
             open_wb pickle_dump)
          tables (_max_workers self) total w
  end.

End Annotator.

Arguments annotate_each normalize {G} generator_id get_candidates module_dir
  open_wb pickle_dump tables new_annotated_tables w.
Arguments annotate_dataset normalize {G} generator_id get_candidates module_dir
  open_wb pickle_dump process_map self dataset w.

(** A path component that [os.path.join] appends as it is: not empty and
    free of the separator. *)
Fixpoint no_sep (s : string) : bool :=
  match s with
  | EmptyString => true
  | String c rest => negb (bool_decide (c = "/"%char)) && no_sep rest
  end.

Definition component (s : string) : Prop := s <> "" /\ no_sep s = true.

End AnnotatorsDataset.

(** * datasets/__init__.py *)

Module Datasets.

Inductive DatasetEnum : Type :=
| ST19_Round1
| ST19_Round2
| ST19_Round3
| ST19_Round4
| TT
| T2D.

(** The value of a member. *)
Definition value (self : DatasetEnum) : string :=
  match self with
  | ST19_Round1 => "Round1"
  | ST19_Round2 => "Round2"
  | ST19_Round3 => "Round3"
  | ST19_Round4 => "Round4"
  | TT => "2T"
  | T2D => "T2D"
  end.

(** The dictionary [TT_CATEGORIES], in the order of the source. *)
Definition TT_CATEGORIES : list (string * (list string * list string)) :=
  [("ALL", ([], []));
   ("CTRL_WIKI", (["WIKI"], ["NOISE2"]));
   ("CTRL_DBP", (["CTRL"; "DBP"], ["NOISE2"]));
   ("CTRL_NOISE2", (["CTRL"; "NOISE2"], []));
   ("TOUGH_T2D", (["T2D"], ["NOISE2"]));
   ("TOUGH_HOMO", (["HOMO"], ["SORTED"; "NOISE2"]));
   ("TOUGH_MISC", (["MISC"], ["NOISE2"]));
   ("TOUGH_MISSP", (["MISSP"], ["NOISE1"; "NOISE2"]));
   ("TOUGH_SORTED", (["SORTED"], ["NOISE2"]));
   ("TOUGH_NOISE1", (["NOISE1"], []));
   ("TOUGH_NOISE2", (["TOUGH"; "NOISE2"], []))].

Definition get_table_categories (self : DatasetEnum)
  : list (string * (list string * list string)) :=
  match self with
  | TT => TT_CATEGORIES
  | _ => [("ALL", ([], []))]
  end.

Section Paths.
(** [os.path.dirname(__file__)] *)
Variable module_dir : string.

Definition _target_path (self : DatasetEnum) (task : string) : string :=
  module_dir +:+ "/" +:+ value self +:+ "/targets/" +:+ task +:+ "_"
    +:+ value self +:+ "_Targets.csv".

Definition _gt_path (self : DatasetEnum) (task : string) : string :=
  module_dir +:+ "/" +:+ value self +:+ "/gt/" +:+ task +:+ "_"
    +:+ value self +:+ "_gt.csv".

Definition _table_path (self : DatasetEnum) (tab_id : string) : string :=
  module_dir +:+ "/" +:+ value self +:+ "/tables/" +:+ tab_id +:+ ".csv".

End Paths.

End Datasets.

(** * Batches

    The slices [l[i:i + size]] for [i in range(0, len(l), size)], as the
    clients of the search index and of the endpoint build them, for a
    positive [size]. *)

Module Batches.

Definition slices {A} (size : nat) (l : list A) : list (list A) :=
  map (fun i => take size (drop i l))
      (map (fun j => j * size) (seq 0 ((length l + size - 1) / size))).

End Batches.

(** * generators/utils.py *)

Module GeneratorsUtils.
Import PyStr Batches.

(** A document of the index: its fields, each with a list of values. *)
Definition Doc : Type := gmap string (list string).

(** [AbstractCollector._cut_abstract]; [size] is [None] or an integer. *)
Definition _cut_abstract (abstract : string) (size : option Z) : string :=
  strip (join " " (slice_to size (split_on " "%char abstract))).

Section Collector.
(** The index: the hits, each an id with its document, of the search for
    one batch of ids. *)
Variable es_search : list string -> list (string * Doc).

(** [AbstractCollector._get_es_docs_by_ids] *)
Definition _get_es_docs_by_ids (docs_ids : list string) : list (string * Doc) :=
  fold_left (fun hits batch => hits ++ es_search batch)
            (slices (Pos.to_nat 10000) docs_ids) [].

(** One entry of the comprehension of line 38. *)
Definition add_abstracts (acc : result (gmap string (list string))) (hit : string * Doc)
  : result (gmap string (list string)) :=
  abstracts ← acc;
  match hit.2 !! "description" with
  | Some description => Ok (<[hit.1 := description]> abstracts)
  | None => Raise KeyError
  end.

(** [AbstractCollector._get_abstracts_by_ids] *)
Definition _get_abstracts_by_ids (docs_ids : list string)
  : result (gmap string (list string)) :=
  fold_left add_abstracts (_get_es_docs_by_ids docs_ids) (Ok ∅).

(** The value of the comprehension of lines 79-80 for one entity. *)
Definition short_abstract (max_tokens : option Z) (entity_abstracts : list string) : string :=
  match entity_abstracts with
  | first :: _ => _cut_abstract first max_tokens
  | [] => ""
  end.

(** [AbstractCollector.fetch_short_abstracts] *)
Definition fetch_short_abstracts (uris : list string) (max_tokens : option Z)
  : result (gmap string string) :=
  match _get_abstracts_by_ids uris with
  | Ok abstracts => Ok (short_abstract max_tokens <$> abstracts)
  | Raise e => Raise e
  end.

End Collector.

End GeneratorsUtils.

(** * utils/kgs.py *)

Module UtilsKgs.
Import Batches.

Definition PROPERTIES_BLACKLIST : list string :=
  ["http://dbpedia.org/ontology/abstract";
   "http://dbpedia.org/ontology/wikiPageWikiLink";
   "http://www.w3.org/2000/01/rdf-schema#comment";
   "http://purl.org/dc/terms/subject"].

Definition TYPES_BLACKLIST : list string :=
  ["http://www.w3.org/2002/07/owl#Thing"].

(** A binding of the relation query: entity, value and relation. *)
Definition Binding : Type := string * string * string.

(** The body of the loop over the bindings of one response (lines 141-147). *)
Definition add_relation (filter_blacklisted : bool)
    (results : gmap (string * string) (list string)) (result : Binding)
  : gmap (string * string) (list string) :=
  let key := (result.1.1, result.1.2) in
  let value := result.2 in
  if filter_blacklisted && bool_decide (value ∈ PROPERTIES_BLACKLIST) then results
  else
    let results := match results !! key with
                   | None => <[key := []]> results
                   | Some _ => results
                   end in
    <[key := default [] (results !! key) ++ [value]]> results.

(** The relations a list of bindings gives to a pair, in the order of
    the bindings, without the blacklisted ones when they are filtered. *)
Definition keeps (filter_blacklisted : bool) (key : string * string) (b : Binding) : bool :=
  bool_decide ((b.1.1, b.1.2) = key)
  && negb (filter_blacklisted && bool_decide (b.2 ∈ PROPERTIES_BLACKLIST)).

Definition relations_of (filter_blacklisted : bool) (key : string * string)
    (bindings : list Binding) : list string :=
  map snd (List.filter (keeps filter_blacklisted key) bindings).

Definition no_empty (m : gmap (string * string) (list string)) : Prop :=
  forall key rels, m !! key = Some rels -> rels <> [].

(** The abstracts a list of bindings gives to a URI, in the order of the
    bindings. *)
Definition abstracts_of (uri : string) (bindings : list (string * string)) : list string :=
  map snd (List.filter (fun b => bool_decide (b.1 = uri)) bindings).

(** [dict(results)]: of two pairs with the same key the later one stays. *)
Definition dict {K V} `{Countable K} (results : list (K * V)) : gmap K V :=
  fold_left (fun d kv => <[kv.1 := kv.2]> d) results ∅.

Section Wrapper.
(** The endpoint: the bindings it answers to the relation query built from
    one batch of subject-value pairs, and to the abstract query built from
    one batch of URIs. *)
Variable sparql : list (string * string) -> list Binding.
Variable sparql_abstracts : list string -> list (string * string).

(** [DBpediaWrapper.fetch_long_abstracts] *)
Definition fetch_long_abstracts (uris : list string) : gmap string string :=
  dict (fold_left (fun results batch => results ++ sparql_abstracts batch)
                  (slices 25 uris) []).

(** [DBpediaWrapper.get_relations] *)
Definition get_relations (subj_obj_pairs : list (string * string))
    (filter_blacklisted : bool) : gmap (string * string) (list string) :=
  fold_left
    (fun results batch => fold_left (add_relation filter_blacklisted) (sparql batch) results)
    (slices 25 subj_obj_pairs) ∅.

End Wrapper.

End UtilsKgs.

(** * Concrete instances

    The library functions and the collaborators left abstract above,
    instantiated for the examples: ASCII text, FNV-1a hashing,
    one-dimensional embeddings and stub generators. *)

Module Sample.

(** ** Strings *)

Definition lower_char (c : ascii) : ascii :=
  let n := nat_of_ascii c in
  if (65 <=? n) && (n <=? 90) then ascii_of_nat (n + 32) else c.

(** [str.lower] on ASCII text. *)
Fixpoint ascii_lower (s : string) : string :=
  match s with
  | EmptyString => EmptyString
  | String c rest => String (lower_char c) (ascii_lower rest)
  end.

Definition hex_value (c : ascii) : option nat :=
  let n := nat_of_ascii c in
  if (48 <=? n) && (n <=? 57) then Some (n - 48)
  else if (65 <=? n) && (n <=? 70) then Some (n - 55)
  else if (97 <=? n) && (n <=? 102) then Some (n - 87)
  else None.

(** [urllib.parse.unquote] on ASCII text with ASCII escapes: [%XX] with
    two hexadecimal digits becomes the character of that code, any other
    [%] stays. *)
Fixpoint ascii_unquote (s : string) : string :=
  match s with
  | EmptyString => EmptyString
  | String c rest =>
      if bool_decide (c = "%"%char) then
        match rest with
        | String h (String l rest') =>
            match hex_value h, hex_value l with
            | Some a, Some b => String (ascii_of_nat (16 * a + b)) (ascii_unquote rest')
            | _, _ => String c (ascii_unquote rest)
            end
        | _ => String c (ascii_unquote rest)
        end
      else String c (ascii_unquote rest)
  end.

(** FNV-1a on 64 bits, over the characters of a string and over the item
    hashes of a tuple. *)
Definition fnv_step (h x : Z) : Z :=
  (Z.lxor h x * 1099511628211) mod 2 ^ 64.

Fixpoint fnv_string (h : Z) (s : string) : Z :=
  match s with
  | EmptyString => h
  | String c rest => fnv_string (fnv_step h (Z.of_nat (nat_of_ascii c))) rest
  end.

Definition str_hash (s : string) : Z := fnv_string 14695981039346656037 s.

Definition tuple_hash (items : list Z) : Z :=
  fold_left fnv_step items 14695981039346656037%Z.

Definition Foo : Kgs.Entity := {| Kgs.uri := "http://x.org/Foo" |}.
Definition foo : Kgs.Entity := {| Kgs.uri := "http://x.org/foo" |}.
Definition Foo_Bar_quoted : Kgs.Entity := {| Kgs.uri := "http://x.org/Foo%20Bar" |}.
Definition Foo_Bar : Kgs.Entity := {| Kgs.uri := "http://x.org/Foo Bar" |}.

(** ** Candidates with one-dimensional embeddings *)

(** Cosine distance of two non-zero one-dimensional vectors. *)
Definition cosine1 (u v : Q) : Q := (1 - (u * v) / (Qabs u * Qabs v))%Q.

Definition cand (name : string) (ctx ab : option Q)
  : Functions.CandidateEmbeddings string Q :=
  Functions.Build_CandidateEmbeddings name ctx ab.

(** A and B are scorable, at distances 0 and 2; C has no embedding. *)
Definition candidates_ABC : list (Functions.CandidateEmbeddings string Q) :=
  [cand "A" (Some 1%Q) (Some 1%Q);
   cand "B" (Some 1%Q) (Some (-1)%Q);
   cand "C" None None].

Definition candidates_AC : list (Functions.CandidateEmbeddings string Q) :=
  [cand "A" (Some 1%Q) (Some 1%Q); cand "C" None None].

Definition candidates_CD : list (Functions.CandidateEmbeddings string Q) :=
  [cand "C" None None; cand "D" (Some 1%Q) None].

(** ** A table and two generators *)

Definition paris : string := "http://dbpedia.org/resource/Paris".

Definition table1 : Annotators.Table :=
  {| Annotators.tab_id := "t1";
     Annotators.dataset_id := "Round1";
     Annotators.cells :=
       <[(0, 0) := "Paris"]> (<[(0, 1) := "paris"]> (<[(0, 2) := "London"]> ∅));
     Annotators.annotations := ∅ |}.

(** A generator that counts its calls in its state. *)
Definition lookup_generator (n : nat) (table : Annotators.Table)
  : list (string * list string) * option exn * nat :=
  ([("paris", [paris; "http://dbpedia.org/resource/Paris,_Texas"]); ("london", [])],
   None, S n).


Definition empty_world : Annotators.World nat :=
  {| Annotators.files := ∅; Annotators.broken := ∅; Annotators.dirs := ∅;
     Annotators.generator := 0; Annotators.calls := 0 |}.

(** What precedes the last separator of a path. *)
Fixpoint parent (p : string) : string :=
  match p with
  | EmptyString => EmptyString
  | String c rest => if PyStr.contains "/"%char rest then String c (parent rest) else EmptyString
  end.

(** A file system without permissions and quotas: [open(p, 'wb')] needs
    the directory of [p] to exist and no directory at [p]. *)
Definition posix_open_wb (w : Annotators.World nat) (p : string) : option exn :=
  if bool_decide (p ∈ Annotators.dirs w) then Some OSError
  else if bool_decide (parent p ∈ Annotators.dirs w) then None
  else Some FileNotFoundError.

(** A pickler that writes every table. *)
Definition pickle_ok (w : Annotators.World nat) (table : Annotators.Table) : option exn :=
  None.

(** A pickler that fails on every table. *)
Definition pickle_fails (w : Annotators.World nat) (table : Annotators.Table) : option exn :=
  Some PicklingError.

End Sample.

(** * Concrete candidates over binary64 *)

Module SampleFloat.
Import PrimFloat.

(** Cosine distance of two non-zero one-dimensional vectors. *)
Definition cosine1 (u v : float) : float :=
  (1 - (u * v) / sqrt ((u * u) * (v * v)))%float.

(** A and B are scorable, at distances 0 and 2; C has no embedding. *)
Definition candidates_ABC : list (Functions.CandidateEmbeddings string float) :=
  [Functions.Build_CandidateEmbeddings "A" (Some 1%float) (Some 1%float);
   Functions.Build_CandidateEmbeddings "B" (Some 1%float) (Some (-1)%float);
   Functions.Build_CandidateEmbeddings "C" None None].

End SampleFloat.

(** * Further concrete instances *)

Module MoreSamples.

(** A second table of the same dataset, and a table no generator can
    annotate. *)
Definition table2 : Annotators.Table :=
  {| Annotators.tab_id := "t2";
     Annotators.dataset_id := "Round1";
     Annotators.cells := <[(0, 0) := "London"]> ∅;
     Annotators.annotations := ∅ |}.

Definition bad_table : Annotators.Table :=
  {| Annotators.tab_id := "bad";
     Annotators.dataset_id := "Round1";
     Annotators.cells := ∅;
     Annotators.annotations := ∅ |}.

(** A table whose identifier holds a path separator. *)
Definition nested_table : Annotators.Table :=
  {| Annotators.tab_id := "x/y";
     Annotators.dataset_id := "Round1";
     Annotators.cells := <[(0, 0) := "London"]> ∅;
     Annotators.annotations := ∅ |}.

(** A generator that fails on the table "bad". *)
Definition picky_generator (n : nat) (table : Annotators.Table)
  : list (string * list string) * option exn * nat :=
  if bool_decide (Annotators.tab_id table = "bad")
  then ([], Some (GeneratorError "no index"), S n)
  else ([("london", ["http://dbpedia.org/resource/London"])], None, S n).


(** A pool that is never reached with one worker. *)
Definition no_pool
    (f : Annotators.Table -> Annotators.World nat ->
         result Annotators.Table * Annotators.Table * Annotators.World nat)
    (tables : list Annotators.Table * option exn) (max_workers : Z) (total : nat)
    (w : Annotators.World nat) : result (list Annotators.Table) * Annotators.World nat :=
  (Raise OSError, w).

Definition one_worker : AnnotatorsDataset.CEAAnnotator :=
  {| AnnotatorsDataset._max_workers := 1 |}.

Definition dataset12 : AnnotatorsDataset.Dataset :=
  {| AnnotatorsDataset.name := "ST19_Round1";
     AnnotatorsDataset.get_tables := ([Sample.table1; table2], None);
     AnnotatorsDataset.total_tables := Ok 2 |}.

Definition dataset_bad : AnnotatorsDataset.Dataset :=
  {| AnnotatorsDataset.name := "ST19_Round1";
     AnnotatorsDataset.get_tables := ([table2; bad_table; Sample.table1], None);
     AnnotatorsDataset.total_tables := Ok 3 |}.

(** An endpoint that answers one relation for every pair of a batch. *)
Definition sample_sparql (batch : list (string * string)) : list UtilsKgs.Binding :=
  map (fun p => (p.1, p.2, "dbo:capital")) batch.

(** An index that holds one document, with one abstract, for every id. *)
Definition sample_es (batch : list string) : list (string * GeneratorsUtils.Doc) :=
  map (fun id => (id, {[ "description" := [" Paris is the capital of France "] ]})) batch.

End MoreSamples.

(** * Properties of the rank fusion *)

Module FunctionsFacts.
Import Functions.

(** ** The monad and [mapM] *)

(** ** Minimum and maximum of a column *)

Lemma list_min_lower xs : forall x y, In y (x :: xs) -> (list_min x xs <= y)%Q.
Proof.
  unfold list_min. induction xs as [|z xs IH]; simpl; intros x y Hy.
  - destruct Hy as [<-|[]]. apply Qle_refl.
  - destruct Hy as [<-|[<-|Hy]].
    + eapply Qle_trans; [apply IH; left; reflexivity|apply Q.le_min_l].
    + eapply Qle_trans; [apply IH; left; reflexivity|apply Q.le_min_r].
    + apply IH. right; exact Hy.
Qed.

Lemma list_max_upper xs : forall x y, In y (x :: xs) -> (y <= list_max x xs)%Q.
Proof.
  unfold list_max. induction xs as [|z xs IH]; simpl; intros x y Hy.
  - destruct Hy as [<-|[]]. apply Qle_refl.
  - destruct Hy as [<-|[<-|Hy]].
    + eapply Qle_trans; [apply Q.le_max_l|apply IH; left; reflexivity].
    + eapply Qle_trans; [apply Q.le_max_r|apply IH; left; reflexivity].
    + apply IH. right; exact Hy.
Qed.

Lemma Qmin_cases (a b : Q) : Qmin a b = a \/ Qmin a b = b.
Proof.
  unfold Qmin, GenericMinMax.gmin. destruct (a ?= b)%Q; auto.
Qed.

Lemma Qmax_cases (a b : Q) : Qmax a b = a \/ Qmax a b = b.
Proof.
  unfold Qmax, GenericMinMax.gmax. destruct (a ?= b)%Q; auto.
Qed.

Lemma list_min_attained xs : forall x, In (list_min x xs) (x :: xs).
Proof.
  unfold list_min. induction xs as [|z xs IH]; simpl; intros x; [auto|].
  destruct (IH (Qmin x z)) as [H|H].
  - rewrite <- H. destruct (Qmin_cases x z) as [E|E]; rewrite E; auto.
  - auto.
Qed.

Lemma list_max_attained xs : forall x, In (list_max x xs) (x :: xs).
Proof.
  unfold list_max. induction xs as [|z xs IH]; simpl; intros x; [auto|].
  destruct (IH (Qmax x z)) as [H|H].
  - rewrite <- H. destruct (Qmax_cases x z) as [E|E]; rewrite E; auto.
  - auto.
Qed.

(** ** The scaler *)

Lemma handle_zeros_nonzero r : Qeq_bool (handle_zeros_in_scale r) 0 = false.
Proof.
  unfold handle_zeros_in_scale. destruct (Qeq_bool r 0) eqn:E; [reflexivity|exact E].
Qed.

(** [fit] succeeds on every non-empty column: the divisor is never zero. *)
Lemma fit_cons x xs :
  fit (x :: xs) = Ok (scaler_of (list_min x xs) (list_max x xs)).
Proof.
  unfold fit, safe_div. rewrite handle_zeros_nonzero. reflexivity.
Qed.

Lemma Qeq_bool_compat a b c : (a == b)%Q -> Qeq_bool a c = Qeq_bool b c.
Proof.
  intros E. destruct (Qeq_bool a c) eqn:Ha, (Qeq_bool b c) eqn:Hb; try reflexivity.
  - apply Qeq_bool_iff in Ha. apply Qeq_bool_neq in Hb. exfalso. apply Hb.
    rewrite <- E. exact Ha.
  - apply Qeq_bool_iff in Hb. apply Qeq_bool_neq in Ha. exfalso. apply Ha.
    rewrite E. exact Hb.
Qed.

Lemma minmax_normalize_compat lo lo' hi hi' x :
  (lo == lo')%Q -> (hi == hi')%Q ->
  (minmax_normalize lo hi x == minmax_normalize lo' hi' x)%Q.
Proof.
  intros El Eh. unfold minmax_normalize.
  rewrite (Qeq_bool_compat (hi - lo) (hi' - lo') 0) by (rewrite El, Eh; reflexivity).
  destruct (Qeq_bool (hi' - lo') 0); [reflexivity|].
  rewrite El, Eh. reflexivity.
Qed.

Lemma transform_scaler_of lo hi x :
  (lo <= x)%Q -> (x <= hi)%Q ->
  (transform (scaler_of lo hi) x == minmax_normalize lo hi x)%Q.
Proof.
  intros Hlo Hhi. unfold transform, scaler_of, minmax_normalize, handle_zeros_in_scale; simpl.
  destruct (Qeq_bool (hi - lo) 0) eqn:E.
  - apply Qeq_bool_iff in E.
    assert (Hx : (x == lo)%Q).
    { apply Qle_antisym; [|exact Hlo].
      eapply Qle_trans; [exact Hhi|].
      assert (H : (hi == lo)%Q) by (rewrite <- (Qplus_0_l lo), <- E; ring).
      rewrite H. apply Qle_refl. }
    rewrite Hx. field.
  - apply Qeq_bool_neq in E. field. exact E.
Qed.

Lemma fit_column data : data <> [] -> fit data = Ok (column_scaler data).
Proof. destruct data; [congruence|]. intros _. apply fit_cons. Qed.

Lemma column_min_lower data y : In y data -> (column_min data <= y)%Q.
Proof. destruct data; [intros []|]. apply list_min_lower. Qed.

Lemma column_max_upper data y : In y data -> (y <= column_max data)%Q.
Proof. destruct data; [intros []|]. apply list_max_upper. Qed.

Lemma column_min_attained data : data <> [] -> In (column_min data) data.
Proof. destruct data; [congruence|]. intros _. apply list_min_attained. Qed.

Lemma column_max_attained data : data <> [] -> In (column_max data) data.
Proof. destruct data; [congruence|]. intros _. apply list_max_attained. Qed.

(** On its own column the fitted scaler is the min-max normalisation. *)
Lemma transform_column data y :
  In y data ->
  (transform (column_scaler data) y
   == minmax_normalize (column_min data) (column_max data) y)%Q.
Proof.
  intros H. apply transform_scaler_of;
    [apply column_min_lower|apply column_max_upper]; exact H.
Qed.

Lemma of_rank_le i j : i <= j -> (of_rank i <= of_rank j)%Q.
Proof. intros H. unfold of_rank, Qle. cbn. lia. Qed.

Lemma in_rank_column n q : In q (map of_rank (seq 0 n)) <-> exists i, i < n /\ q = of_rank i.
Proof.
  rewrite in_map_iff. split.
  - intros (i & <- & Hi). apply in_seq in Hi. exists i. split; [lia|reflexivity].
  - intros (i & Hi & ->). exists i. split; [reflexivity|]. apply in_seq. lia.
Qed.

(** [np.arange(n)] spans the range [[0, n - 1]]. *)
Lemma rank_column_min n : (column_min (map of_rank (seq 0 (S n))) == 0)%Q.
Proof.
  apply Qle_antisym.
  - apply (column_min_lower _ (of_rank 0)). apply in_rank_column. exists 0. split; [lia|reflexivity].
  - destruct (proj1 (in_rank_column (S n) _)
                (column_min_attained (map of_rank (seq 0 (S n))) ltac:(discriminate)))
      as (i & _ & ->).
    apply (of_rank_le 0 i). lia.
Qed.

Lemma rank_column_max n : (column_max (map of_rank (seq 0 (S n))) == of_rank n)%Q.
Proof.
  apply Qle_antisym.
  - destruct (proj1 (in_rank_column (S n) _)
                (column_max_attained (map of_rank (seq 0 (S n))) ltac:(discriminate)))
      as (i & Hi & ->).
    apply of_rank_le. lia.
  - apply column_max_upper. apply in_rank_column. exists n. split; [lia|reflexivity].
Qed.

Lemma StronglySorted_map_in {X Y} (R : X -> X -> Prop) (R' : Y -> Y -> Prop)
    (f : X -> Y) (l : list X) :
  StronglySorted R l ->
  (forall a b, In a l -> In b l -> R a b -> R' (f a) (f b)) ->
  StronglySorted R' (map f l).
Proof.
  induction 1 as [|x l' Hs IH Hx]; intros Hf; cbn; constructor.
  - apply IH. intros a b Ha Hb. apply Hf; right; assumption.
  - rewrite List.Forall_forall in Hx |- *. intros y Hy.
    apply in_map_iff in Hy as (z & <- & Hz).
    apply Hf; [left; reflexivity|right; exact Hz|apply Hx; exact Hz].
Qed.

(** ** The stable sort *)

Section SortFacts.
Context {A : Type}.

Lemma insert_by_key_perm (x : Q * A) l : Permutation (insert_by_key x l) (x :: l).
Proof.
  induction l as [|y l IH]; cbn; [reflexivity|].
  destruct (Qle_bool x.1 y.1); [reflexivity|].
  rewrite IH. apply perm_swap.
Qed.

Lemma sort_by_key_perm (l : list (Q * A)) : Permutation (sort_by_key l) l.
Proof.
  induction l as [|x l IH]; cbn; [reflexivity|].
  rewrite insert_by_key_perm, IH. reflexivity.
Qed.

End SortFacts.

(** ** The partitioning loop *)

Section Fusion.
Context {Candidate Emb : Type} (cosine : Emb -> Emb -> Q).
Abbreviation CE := (CandidateEmbeddings Candidate Emb).
Abbreviation SC := (ScoredCandidate Candidate).
Abbreviation raw_distance := (@Functions.raw_distance Candidate Emb cosine).
Abbreviation scored_entry := (@Functions.scored_entry Candidate Emb cosine).
Abbreviation non_scored_entry := (@Functions.non_scored_entry Candidate Emb cosine).
Abbreviation scored_entries := (@Functions.scored_entries Candidate Emb cosine).
Abbreviation non_scored := (@Functions.non_scored Candidate Emb cosine).
Abbreviation distance_scaler_of := (@Functions.distance_scaler_of Candidate Emb cosine).
Abbreviation decorated := (@Functions.decorated Candidate Emb cosine).
Abbreviation ranked := (@Functions.ranked Candidate Emb cosine).
Abbreviation scorable_distances := (@Functions.scorable_distances Candidate Emb cosine).

Lemma truthy_Some ds : truthy ds = true -> exists d, ds = Some d.
Proof. destruct ds; [eauto|discriminate]. Qed.

Lemma partition_step_spec ds s n item :
  partition_step cosine ds (s, n) item =
  (s ++ map unfused (omap (scored_entry ds) [item]),
   n ++ omap (non_scored_entry ds) [item]).
Proof.
  destruct item as [rank c]. unfold partition_step.
  cbn [omap list_omap]. unfold Functions.scored_entry, Functions.non_scored_entry, Functions.raw_distance; cbn [fst snd].
  destruct (context_emb c) as [ctx|], (abstract_emb c) as [ab|];
    [cbn; rewrite app_nil_r; reflexivity| | |];
    (destruct (truthy ds) eqn:T;
     [destruct (truthy_Some _ T) as [d ->]; cbn; rewrite ?app_nil_r; reflexivity
     |cbn; rewrite ?app_nil_r; reflexivity]).
Qed.

Lemma partition_fold ds l : forall s n,
  fold_left (partition_step cosine ds) l (s, n) =
  (s ++ map unfused (omap (scored_entry ds) l), n ++ omap (non_scored_entry ds) l).
Proof.
  induction l as [|item l IH]; intros s n; cbn [fold_left].
  - cbn. rewrite !app_nil_r. reflexivity.
  - rewrite partition_step_spec, IH. cbn [omap list_omap].
    destruct (scored_entry ds item), (non_scored_entry ds item);
      cbn; rewrite <- ?app_assoc, ?app_nil_r; reflexivity.
Qed.

Lemma partition_candidates_spec ds candidates :
  partition_candidates cosine ds candidates =
  (map unfused (scored_entries ds candidates), non_scored ds candidates).
Proof. unfold partition_candidates. rewrite partition_fold. reflexivity. Qed.

(** ** The scoring pipeline *)

Lemma mapM_map_ok {A B C} (f : B -> result C) (g : A -> B) (h : A -> C) (l : list A) :
  (forall a, f (g a) = Ok (h a)) -> mapM f (map g l) = Ok (map h l).
Proof.
  intros H. induction l as [|a l IH]; cbn; [reflexivity|].
  rewrite H; cbn. rewrite IH; reflexivity.
Qed.

Lemma assert_default_ok ds :
  valid_default ds ->
  (if truthy ds then assert (ge_zero ds) else Ok tt) = Ok tt.
Proof.
  intros V. destruct (truthy ds) eqn:T; [|reflexivity].
  destruct ds as [d|]; [|discriminate]. cbn in *.
  apply Qle_bool_iff in V. rewrite V. reflexivity.
Qed.

Lemma assert_alpha_ok alpha :
  valid_alpha alpha -> assert (Qle_bool 0 alpha && Qle_bool alpha 1) = Ok tt.
Proof.
  intros [L U]. apply Qle_bool_iff in L, U. rewrite L, U. reflexivity.
Qed.

(** With valid parameters the routine returns the ranked prefix followed
    by the candidates left without a score. *)
Lemma weighting_by_ranking_valid candidates alpha ds :
  valid_alpha alpha -> valid_default ds ->
  weighting_by_ranking cosine candidates alpha ds =
  Ok (ranked alpha ds candidates ++ non_scored ds candidates).
Proof.
  intros Va Vd. unfold weighting_by_ranking.
  rewrite (assert_default_ok _ Vd), (assert_alpha_ok _ Va). cbn [mbind result_bind].
  rewrite partition_candidates_spec.
  unfold Functions.ranked, Functions.decorated, rank_scaler_of, Functions.distance_scaler_of.
  destruct candidates as [|c cs]; [reflexivity|].
  destruct (scored_entries ds (c :: cs)) as [|t ts] eqn:E; [reflexivity|].
  cbn [map length seq].
  rewrite fit_cons. cbn [mbind result_bind].
  unfold distances.
  rewrite (mapM_map_ok _ unfused snd (t :: ts)) by reflexivity.
  cbn [mbind result_bind]. rewrite fit_column by discriminate.
  cbn [mbind result_bind].
  rewrite (mapM_map_ok _ unfused
             (fused alpha (column_scaler (map of_rank (seq 0 (S (length cs)))))
                          (column_scaler (map snd (t :: ts)))) (t :: ts))
    by reflexivity.
  cbn [mbind result_bind]. unfold sorted.
  rewrite (mapM_map_ok _ _
             (fun t0 => (code_score alpha (column_scaler (map of_rank (seq 0 (S (length cs)))))
                           (column_scaler (map snd (t :: ts))) t0,
                         fused alpha (column_scaler (map of_rank (seq 0 (S (length cs)))))
                           (column_scaler (map snd (t :: ts))) t0)) (t :: ts))
    by reflexivity.
  reflexivity.
Qed.


(** ** What the two lists of the partition contain *)

Lemma in_enumerate_from {X} (l : list X) : forall start i x,
  In (i, x) (enumerate_from start l) <-> start <= i /\ l !! (i - start) = Some x.
Proof.
  induction l as [|y l IH]; intros start i x; cbn.
  - split; [tauto|]. intros [_ H]. discriminate.
  - rewrite IH. split.
    + intros [E|[L H]].
      * inversion E; subst. replace (i - i) with 0 by lia. auto.
      * split; [lia|]. replace (i - start) with (S (i - S start)) by lia. exact H.
    + intros [L H]. destruct (i - start) as [|k] eqn:E.
      * left. cbn in H. inversion H; subst. f_equal. lia.
      * right. split; [lia|]. replace (i - S start) with k by lia. exact H.
Qed.

Lemma in_enumerate {X} (l : list X) i x :
  In (i, x) (enumerate l) <-> l !! i = Some x.
Proof.
  unfold enumerate. rewrite in_enumerate_from, Nat.sub_0_r.
  split; [tauto|]. intros H; split; [lia|exact H].
Qed.

Lemma in_omap {X Y} (f : X -> option Y) (l : list X) y :
  In y (omap f l) <-> exists x, In x l /\ f x = Some y.
Proof.
  rewrite <- list_elem_of_In, list_elem_of_omap.
  split; intros (x & H1 & H2); exists x; split; try exact H2;
    apply list_elem_of_In; exact H1.
Qed.

Lemma in_scored_entries ds candidates t :
  In t (scored_entries ds candidates) <->
  exists c, candidates !! t.1.1 = Some c
            /\ raw_distance ds c = Some t.2 /\ t.1.2 = candidate c.
Proof.
  unfold Functions.scored_entries. rewrite in_omap. split.
  - intros ([i c] & Hin & Hf). apply in_enumerate in Hin.
    unfold Functions.scored_entry in Hf. cbn in Hf.
    destruct (raw_distance ds c) as [d|] eqn:E; [|discriminate].
    inversion Hf; subst. exists c. cbn. auto.
  - intros (c & Hl & Hd & Hc). exists (t.1.1, c). split; [apply in_enumerate; exact Hl|].
    unfold Functions.scored_entry. cbn. rewrite Hd, <- Hc. destruct t as [[i x] d]; reflexivity.
Qed.

Lemma scored_entries_distances_from ds candidates : forall start,
  map snd (omap (scored_entry ds) (enumerate_from start candidates)) =
  omap (raw_distance ds) candidates.
Proof.
  induction candidates as [|c cs IH]; intros start; [reflexivity|].
  cbn [enumerate_from omap list_omap]. unfold Functions.scored_entry at 1. cbn [fst snd].
  destruct (raw_distance ds c); cbn [map snd]; rewrite IH; reflexivity.
Qed.

(** The column the distance scaler is fitted on: the raw distances of
    the candidates that have one, in input order. *)
Lemma scored_entries_distances ds candidates :
  map snd (scored_entries ds candidates) = omap (raw_distance ds) candidates.
Proof. apply scored_entries_distances_from. Qed.

Lemma scored_entries_ranks_from ds candidates : forall start,
  Forall (fun t => start <= t.1.1) (omap (scored_entry ds) (enumerate_from start candidates))
  /\ StronglySorted (fun a b => a.1.1 < b.1.1)
       (omap (scored_entry ds) (enumerate_from start candidates)).
Proof.
  induction candidates as [|c cs IH]; intros start.
  - split; constructor.
  - destruct (IH (S start)) as [Hlo Hs].
    assert (Hlo' : Forall (fun t : nat * Candidate * Q => start <= t.1.1)
                     (omap (scored_entry ds) (enumerate_from (S start) cs))).
    { eapply Forall_impl; [exact Hlo|]. cbn. intros; lia. }
    cbn [enumerate_from omap list_omap].
    destruct (scored_entry ds (start, c)) as [t|] eqn:E; [|split; assumption].
    assert (Ht : t.1.1 = start).
    { unfold Functions.scored_entry in E. cbn in E.
      destruct (raw_distance ds c); inversion E; reflexivity. }
    split.
    + constructor; [lia|exact Hlo'].
    + constructor; [exact Hs|].
      eapply Forall_impl; [exact Hlo|]. cbn. intros; lia.
Qed.

Lemma scored_entries_increasing ds candidates :
  StronglySorted (fun a b => a.1.1 < b.1.1) (scored_entries ds candidates).
Proof. apply scored_entries_ranks_from. Qed.

(** ** Scores and order of the ranked prefix *)

Lemma rank_transform (candidates : list CE) i :
  i < length candidates ->
  (transform (rank_scaler_of candidates) (of_rank i)
   == minmax_normalize 0 (of_rank (length candidates - 1)) (of_rank i))%Q.
Proof.
  intros Hi. unfold rank_scaler_of.
  destruct (length candidates) as [|n]; [lia|].
  rewrite transform_column by (apply in_rank_column; exists i; auto).
  replace (S n - 1) with n by lia.
  apply minmax_normalize_compat; [apply rank_column_min|apply rank_column_max].
Qed.

Lemma code_score_spec alpha ds candidates t :
  In t (scored_entries ds candidates) ->
  (code_score alpha (rank_scaler_of candidates) (distance_scaler_of ds candidates) t
   == fused_score alpha (length candidates)
        (column_min (omap (raw_distance ds) candidates))
        (column_max (omap (raw_distance ds) candidates)) t.1.1 t.2)%Q.
Proof.
  intros Hin. unfold code_score, fused_score, Functions.distance_scaler_of.
  rewrite rank_transform.
  - rewrite transform_column by (apply in_map; exact Hin).
    rewrite scored_entries_distances. reflexivity.
  - apply in_scored_entries in Hin as (c & Hl & _).
    apply lookup_lt_Some in Hl. exact Hl.
Qed.

Lemma ranked_perm alpha ds candidates :
  Permutation (ranked alpha ds candidates)
    (map (fused alpha (rank_scaler_of candidates) (distance_scaler_of ds candidates))
         (scored_entries ds candidates)).
Proof.
  unfold Functions.ranked. rewrite sort_by_key_perm. unfold Functions.decorated.
  rewrite map_map. cbn. reflexivity.
Qed.

Lemma in_ranked alpha ds candidates sc :
  In sc (ranked alpha ds candidates) <->
  exists t, In t (scored_entries ds candidates)
    /\ sc = fused alpha (rank_scaler_of candidates) (distance_scaler_of ds candidates) t.
Proof.
  rewrite <- !list_elem_of_In, ranked_perm, list_elem_of_In, in_map_iff.
  split; intros (t & H1 & H2); exists t; auto.
Qed.

Lemma raw_distance_scorable ds c :
  scorable c = true ->
  exists ctx ab, context_emb c = Some ctx /\ abstract_emb c = Some ab
                 /\ raw_distance ds c = Some (cosine ctx ab).
Proof.
  unfold scorable, Functions.raw_distance.
  destruct (context_emb c) as [ctx|], (abstract_emb c) as [ab|]; try discriminate.
  intros _. exists ctx, ab. auto.
Qed.

Lemma raw_distance_unscorable ds c :
  scorable c = false ->
  raw_distance ds c = if truthy ds then ds else None.
Proof.
  unfold scorable, Functions.raw_distance.
  destruct (context_emb c) as [ctx|], (abstract_emb c) as [ab|];
    try discriminate; reflexivity.
Qed.

Lemma ranked_complete alpha ds candidates i c d :
  candidates !! i = Some c -> raw_distance ds c = Some d ->
  In (fused alpha (rank_scaler_of candidates) (distance_scaler_of ds candidates)
        (i, candidate c, d))
     (ranked alpha ds candidates)
  /\ In (i, candidate c, d) (scored_entries ds candidates).
Proof.
  intros Hl Hd.
  assert (Hin : In (i, candidate c, d) (scored_entries ds candidates)).
  { apply in_scored_entries. exists c. cbn. auto. }
  split; [|exact Hin]. apply in_ranked. eauto.
Qed.

Lemma enumerate_from_map {X Y} (f : X -> Y) (l : list X) : forall start,
  enumerate_from start (map f l) =
  map (fun item => (item.1, f item.2)) (enumerate_from start l).
Proof.
  induction l as [|x l IH]; intros start; cbn; [reflexivity|].
  rewrite IH. reflexivity.
Qed.

Lemma enumerate_from_length {X} (l : list X) : forall start,
  length (enumerate_from start l) = length l.
Proof. induction l as [|x l IH]; intros start; cbn; [reflexivity|]. rewrite IH. reflexivity. Qed.

(** The partition loses and duplicates nothing. *)
Lemma partition_perm ds (l : list (nat * CE)) :
  Permutation
    (map (fun t : nat * Candidate * Q => (t.1.1, t.1.2)) (omap (scored_entry ds) l)
     ++ map (fun sc => (original_rank sc, sc_candidate sc)) (omap (non_scored_entry ds) l))
    (map (fun item => (item.1, candidate item.2)) l).
Proof.
  induction l as [|[i c] l IH]; [reflexivity|].
  cbn [omap list_omap map]. unfold Functions.scored_entry at 1, Functions.non_scored_entry at 1. cbn [fst snd].
  destruct (raw_distance ds c); cbn [map app fst snd].
  - constructor. exact IH.
  - rewrite <- Permutation_middle. cbn. constructor. exact IH.
Qed.

Lemma output_perm alpha ds candidates :
  Permutation
    (map (fun sc => (original_rank sc, sc_candidate sc))
         (ranked alpha ds candidates ++ non_scored ds candidates))
    (enumerate (map candidate candidates)).
Proof.
  rewrite map_app, ranked_perm, map_map. cbn.
  unfold enumerate. rewrite enumerate_from_map. apply partition_perm.
Qed.

(** Without embeddings and without a default nothing is scored. *)
Lemma partition_unscorable_from (l : list CE) :
  Forall (fun c => scorable c = false) l ->
  forall start,
    omap (scored_entry None) (enumerate_from start l) = []
    /\ omap (non_scored_entry None) (enumerate_from start l) =
       map (fun item => Build_ScoredCandidate (candidate item.2) item.1 None None)
           (enumerate_from start l).
Proof.
  induction 1 as [|c l Hc _ IH]; intros start; [split; reflexivity|].
  destruct (IH (S start)) as [E1 E2].
  cbn [enumerate_from omap list_omap map].
  unfold Functions.scored_entry at 1, Functions.non_scored_entry at 1. cbn [fst snd].
  rewrite (raw_distance_unscorable None c Hc). cbn.
  rewrite E1, E2. split; reflexivity.
Qed.

Lemma non_scored_None_filter (l : list (nat * CE)) :
  omap (non_scored_entry None) l =
  map (fun item => Build_ScoredCandidate (candidate item.2) item.1 None None)
      (List.filter (fun item => negb (scorable item.2)) l).
Proof.
  induction l as [|[i c] l IH]; [reflexivity|].
  cbn [omap list_omap List.filter]. unfold Functions.non_scored_entry at 1. cbn [fst snd].
  destruct (scorable c) eqn:S; cbn [negb map].
  - destruct (raw_distance_scorable None c S) as (ctx & ab & _ & _ & ->). exact IH.
  - rewrite (raw_distance_unscorable None c S). cbn. rewrite IH. reflexivity.
Qed.

Lemma scored_None_filter (l : list (nat * CE)) :
  map (fun t : nat * Candidate * Q => t.1.1) (omap (scored_entry None) l) =
  map fst (List.filter (fun item => scorable item.2) l).
Proof.
  induction l as [|[i c] l IH]; [reflexivity|].
  cbn [omap list_omap List.filter]. unfold Functions.scored_entry at 1. cbn [fst snd].
  destruct (scorable c) eqn:S; cbn [map].
  - destruct (raw_distance_scorable None c S) as (ctx & ab & _ & _ & ->).
    cbn. rewrite IH. reflexivity.
  - rewrite (raw_distance_unscorable None c S). cbn. exact IH.
Qed.

(** ** The claims on [weighting_by_ranking] *)

(** C3: when no candidate has both embeddings (the empty list included)
    and no default score is given, every candidate comes back in its input
    position, carrying its rank, with distance and score unset. *)
Theorem weighting_by_ranking_no_embeddings (candidates : list CE) (alpha : Q) :
  valid_alpha alpha ->
  Forall (fun c => scorable c = false) candidates ->
  weighting_by_ranking cosine candidates alpha None =
  Ok (map (fun item => Build_ScoredCandidate (candidate item.2) item.1 None None)
          (enumerate candidates)).
Proof.
  intros Va Hu.
  rewrite weighting_by_ranking_valid by (exact Va || exact I).
  destruct (partition_unscorable_from candidates Hu 0) as [E1 E2].
  unfold Functions.ranked, Functions.decorated, Functions.non_scored, Functions.scored_entries, enumerate.
  rewrite E1, E2. reflexivity.
Qed.

(** C8: an [alpha] outside [[0, 1]] or a negative default score makes the
    call fail with an assertion error, whatever the candidates are; no
    distance and no score is produced. *)
Theorem weighting_by_ranking_rejects (candidates : list CE) (alpha : Q) (ds : option Q) :
  (alpha < 0)%Q \/ (1 < alpha)%Q \/ (exists d, ds = Some d /\ (d < 0)%Q) ->
  weighting_by_ranking cosine candidates alpha ds = Raise AssertionError.
Proof.
  intros H. unfold weighting_by_ranking.
  assert (Hd : (if truthy ds then assert (ge_zero ds) else Ok tt) = Ok tt
               \/ (if truthy ds then assert (ge_zero ds) else Ok tt) = Raise AssertionError).
  { destruct (truthy ds); [|auto]. destruct (ge_zero ds); cbn; auto. }
  destruct H as [H|[H|(d & -> & H)]].
  - destruct Hd as [-> | ->]; [|reflexivity]. cbn [mbind result_bind].
    replace (Qle_bool 0 alpha) with false; [reflexivity|].
    symmetry. apply not_true_is_false. intros C. apply Qle_bool_iff in C.
    apply (Qlt_not_le _ _ H C).
  - destruct Hd as [-> | ->]; [|reflexivity]. cbn [mbind result_bind].
    replace (Qle_bool alpha 1) with false; [rewrite andb_false_r; reflexivity|].
    symmetry. apply not_true_is_false. intros C. apply Qle_bool_iff in C.
    apply (Qlt_not_le _ _ H C).
  - cbn [truthy ge_zero].
    replace (Qeq_bool d 0) with false.
    + replace (Qle_bool 0 d) with false; [reflexivity|].
      symmetry. apply not_true_is_false. intros C. apply Qle_bool_iff in C.
      apply (Qlt_not_le _ _ H C).
    + symmetry. apply not_true_is_false. intros C. apply Qeq_bool_iff in C.
      rewrite C in H. apply (Qlt_irrefl _ H).
Qed.

(** C10: with valid parameters the returned list has the length of the
    input and lists every input candidate exactly once, each carrying its
    0-based position in the input as original rank. *)
Theorem weighting_by_ranking_permutation (candidates : list CE) (alpha : Q) (ds : option Q) :
  valid_alpha alpha -> valid_default ds ->
  exists out,
    weighting_by_ranking cosine candidates alpha ds = Ok out
    /\ length out = length candidates
    /\ Permutation (map (fun sc => (original_rank sc, sc_candidate sc)) out)
                   (enumerate (map candidate candidates)).
Proof.
  intros Va Vd. eexists. split; [apply weighting_by_ranking_valid; assumption|].
  pose proof (output_perm alpha ds candidates) as P. split; [|exact P].
  apply Permutation_length in P. rewrite !length_map in P.
  unfold enumerate in P. rewrite enumerate_from_length, length_map in P. exact P.
Qed.

(** C9: when all recorded distances coincide, fitting the distance scaler
    succeeds (the zero-width range is replaced before dividing), it maps
    every recorded distance to 0, and the call returns a list in which
    every scorable candidate carries a fused score whose distance
    component is 0. *)
Theorem weighting_by_ranking_zero_width_range
    (candidates : list CE) (alpha : Q) (ds : option Q) (d0 : Q) :
  valid_alpha alpha -> valid_default ds ->
  (forall c d, In c candidates -> raw_distance ds c = Some d -> (d == d0)%Q) ->
  (omap (raw_distance ds) candidates <> [] ->
   exists scaler,
     fit (omap (raw_distance ds) candidates) = Ok scaler
     /\ forall d, In d (omap (raw_distance ds) candidates) ->
                  (transform scaler d == 0)%Q)
  /\ exists out,
      weighting_by_ranking cosine candidates alpha ds = Ok out
      /\ forall i c, candidates !! i = Some c -> scorable c = true ->
           exists sc s,
             In sc out /\ original_rank sc = i /\ sc_candidate sc = candidate c
             /\ score sc = Some s
             /\ (s == alpha * minmax_normalize 0 (of_rank (length candidates - 1)) (of_rank i)
                      + (1 - alpha) * 0)%Q.
Proof.
  intros Va Vd Hsame.
  assert (Hcol : forall d, In d (omap (raw_distance ds) candidates) -> (d == d0)%Q).
  { intros d Hd. apply in_omap in Hd as (c & Hc & Hd). eapply Hsame; eassumption. }
  assert (Hzero : forall d, In d (omap (raw_distance ds) candidates) ->
            (minmax_normalize (column_min (omap (raw_distance ds) candidates))
               (column_max (omap (raw_distance ds) candidates)) d == 0)%Q).
  { intros d Hd.
    assert (Hne : omap (raw_distance ds) candidates <> []) by (intros E; rewrite E in Hd; exact Hd).
    pose proof (Hcol _ (column_min_attained _ Hne)) as Hmin.
    pose proof (Hcol _ (column_max_attained _ Hne)) as Hmax.
    unfold minmax_normalize.
    replace (Qeq_bool _ 0) with true; [reflexivity|].
    symmetry. apply Qeq_bool_iff. rewrite Hmin, Hmax. ring. }
  split.
  - intros Hne. exists (column_scaler (omap (raw_distance ds) candidates)).
    split; [apply fit_column; exact Hne|].
    intros d Hd. rewrite transform_column by exact Hd. apply Hzero; exact Hd.
  - eexists. split; [apply weighting_by_ranking_valid; assumption|].
    intros i c Hl Hs.
    destruct (raw_distance_scorable ds c Hs) as (ctx & ab & _ & _ & Hd).
    destruct (ranked_complete alpha ds candidates i c _ Hl Hd) as [Hin Hent].
    eexists. eexists. split; [apply in_or_app; left; exact Hin|].
    cbn [fused original_rank sc_candidate score fst snd].
    split; [reflexivity|]. split; [reflexivity|]. split; [reflexivity|].
    rewrite (code_score_spec alpha ds candidates _ Hent). unfold fused_score. cbn [fst snd].
    rewrite Hzero; [reflexivity|].
    apply in_omap. exists c. split; [|exact Hd].
    apply list_elem_of_In, list_elem_of_lookup. eauto.
Qed.

End Fusion.

End FunctionsFacts.

(** * The rank fusion on concrete inputs, in binary64 *)

Module Binary64Facts.
Import PrimFloat Binary64.
#[local] Set Warnings "-inexact-float".

(** C2: what the routine does with a default score.  On A, B (scorable,
    at distances 0 and 2) and C (no embedding) with [alpha = 0.5] and the
    default score 0.9, the default is recorded as the distance of C and the
    score of C is the fused value 0.725, which places C between A and B; and
    the default score 0.0 is discarded: C comes back unscored, at the end. *)
Theorem weighting_by_ranking_default_as_distance :
  weighting_by_ranking SampleFloat.cosine1 SampleFloat.candidates_ABC 0.5%float (Some 0.9%float)
  = Ok [Build_ScoredCandidate "A" 0 (Some 0%float) (Some 0%float);
        Build_ScoredCandidate "C" 2 (Some 0.9%float) (Some 0.725%float);
        Build_ScoredCandidate "B" 1 (Some 2%float) (Some 0.75%float)]
  /\ weighting_by_ranking SampleFloat.cosine1 SampleFloat.candidates_ABC 0.5%float (Some 0%float)
     = Ok [Build_ScoredCandidate "A" 0 (Some 0%float) (Some 0%float);
           Build_ScoredCandidate "B" 1 (Some 2%float) (Some 0.75%float);
           Build_ScoredCandidate "C" 2 None None].
Proof. split; vm_compute; reflexivity. Qed.

(** C4: a default score changes the scores of the scorable candidates.
    On the same A, B and C with [alpha = 0.5] and the default score 5, the
    distance scaler is fitted on 0, 2 and 5, so that B, at distance 2, gets
    the score 0.45; normalised over the distances of the scorable candidates
    alone, 0 and 2, its score is 0.75, which is what the routine gives it
    without a default score. *)
Theorem weighting_by_ranking_default_widens_range :
  weighting_by_ranking SampleFloat.cosine1 SampleFloat.candidates_ABC 0.5%float (Some 5%float)
  = Ok [Build_ScoredCandidate "A" 0 (Some 0%float) (Some 0%float);
        Build_ScoredCandidate "B" 1 (Some 2%float) (Some 0.45%float);
        Build_ScoredCandidate "C" 2 (Some 5%float) (Some 1%float)]
  /\ specified_score 0.5%float 3 [0%float; 2%float] 1 2%float = Ok 0.75%float
  /\ weighting_by_ranking SampleFloat.cosine1 SampleFloat.candidates_ABC 0.5%float None
     = Ok [Build_ScoredCandidate "A" 0 (Some 0%float) (Some 0%float);
           Build_ScoredCandidate "B" 1 (Some 2%float) (Some 0.75%float);
           Build_ScoredCandidate "C" 2 None None].
Proof. split; [|split]; vm_compute; reflexivity. Qed.

End Binary64Facts.

(** * Properties of the table annotator *)

Module AnnotatorsFacts.
Import Annotators.

Section Annotator.
Context (normalize : string -> string) {G : Type} (generator_id : string)
  (get_candidates : G -> Table -> list (string * list string) * option exn * G)
  (module_dir : string)
  (open_wb : World G -> string -> option exn)
  (pickle_dump : World G -> Table -> option exn).
Abbreviation get_search_keys_cells_dict := (Annotators.get_search_keys_cells_dict normalize).
Abbreviation cache_folder := (Annotators.cache_folder generator_id module_dir).
Abbreviation cache_file := (Annotators.cache_file generator_id module_dir).
Abbreviation cache_miss := (@Annotators.cache_miss G generator_id module_dir).
Abbreviation generated := (@Annotators.generated G generator_id module_dir).
Abbreviation dump := (@Annotators.dump G open_wb pickle_dump).
Abbreviation annotate_table :=
  (@Annotators.annotate_table normalize G generator_id get_candidates module_dir
     open_wb pickle_dump).

(** ** Annotating the cells of one key *)

Lemma annotate_cells_cons table c cs e :
  annotate_cells table (c :: cs) e = annotate_cells (annotate_cell table c e) cs e.
Proof. reflexivity. Qed.

Lemma annotate_cells_fields table cs e :
  tab_id (annotate_cells table cs e) = tab_id table
  /\ dataset_id (annotate_cells table cs e) = dataset_id table
  /\ cells (annotate_cells table cs e) = cells table.
Proof.
  revert table. induction cs as [|c cs IH]; intros table; [cbn; auto|].
  rewrite annotate_cells_cons.
  destruct (IH (annotate_cell table c e)) as (-> & -> & ->). auto.
Qed.

Lemma annotate_cells_other table cs e c :
  c ∉ cs -> annotations (annotate_cells table cs e) !! c = annotations table !! c.
Proof.
  revert table. induction cs as [|c0 cs IH]; intros table Hc; [reflexivity|].
  apply not_elem_of_cons in Hc as [Hne Hc].
  rewrite annotate_cells_cons, IH by exact Hc. cbn. apply lookup_insert_ne. congruence.
Qed.

Lemma annotate_cells_member table cs e c :
  c ∈ cs -> annotations (annotate_cells table cs e) !! c = Some e.
Proof.
  revert table. induction cs as [|c0 cs IH]; intros table Hc; [inversion Hc|].
  rewrite annotate_cells_cons.
  destruct (decide (c ∈ cs)) as [Hin|Hout]; [apply IH; exact Hin|].
  rewrite annotate_cells_other by exact Hout.
  apply elem_of_cons in Hc as [->|Hc]; [|contradiction].
  cbn. apply lookup_insert_eq.
Qed.

(** ** The search-key dictionary *)

Lemma fold_add_cell l : forall d0 k c,
  c ∈ default [] (fold_left (add_cell normalize) l d0 !! k) <->
  c ∈ default [] (d0 !! k) \/ exists label, (c, label) ∈ l /\ normalize label = k.
Proof.
  induction l as [|[c0 l0] l IH]; intros d0 k c; cbn [fold_left].
  - split; [auto|]. intros [H|(label & H & _)]; [exact H|inversion H].
  - rewrite IH. unfold add_cell at 1. cbn [fst snd].
    destruct (decide (normalize l0 = k)) as [<-|Hne].
    + rewrite lookup_insert_eq. cbn. rewrite elem_of_app, list_elem_of_singleton.
      split.
      * intros [[H| ->]|(label & H & E)]; [auto| |].
        -- right. exists l0. split; [left|reflexivity].
        -- right. exists label. split; [right; exact H|exact E].
      * intros [H|(label & H & E)]; [auto|].
        apply elem_of_cons in H as [H|H].
        -- inversion H; subst. auto.
        -- right. exists label. auto.
    + rewrite lookup_insert_ne by exact Hne. split.
      * intros [H|(label & H & E)]; [auto|].
        right. exists label. split; [right; exact H|exact E].
      * intros [H|(label & H & E)]; [auto|].
        apply elem_of_cons in H as [H|H].
        -- inversion H; subst. contradiction.
        -- right. exists label. auto.
Qed.

Lemma fold_add_cell_nonempty l : forall d0 k cs,
  (forall k' cs', d0 !! k' = Some cs' -> cs' <> []) ->
  fold_left (add_cell normalize) l d0 !! k = Some cs -> cs <> [].
Proof.
  induction l as [|[c0 l0] l IH]; intros d0 k cs Hd0; cbn [fold_left]; [apply Hd0|].
  apply IH. intros k' cs'. unfold add_cell. cbn [fst snd].
  destruct (decide (normalize l0 = k')) as [<-|Hne].
  - rewrite lookup_insert_eq. intros E; inversion E. intros C.
    apply app_eq_nil in C as [_ C]. discriminate.
  - rewrite lookup_insert_ne by exact Hne. apply Hd0.
Qed.

(** Every key of the dictionary lists exactly the cells whose label
    normalises to it. *)
Lemma dict_cells table k cs c :
  get_search_keys_cells_dict table !! k = Some cs ->
  c ∈ cs <-> exists label, cells table !! c = Some label /\ normalize label = k.
Proof.
  intros Hk. unfold Annotators.get_search_keys_cells_dict in Hk.
  pose proof (fold_add_cell (map_to_list (cells table)) ∅ k c) as H.
  rewrite Hk, lookup_empty in H. cbn in H. rewrite H. split.
  - intros [C|(label & Hin & E)]; [inversion C|].
    exists label. split; [apply elem_of_map_to_list; exact Hin|exact E].
  - intros (label & Hl & E). right. exists label.
    split; [apply elem_of_map_to_list; exact Hl|exact E].
Qed.

(** The dictionary has one entry per distinct search key of the table. *)
Lemma dict_keys table k :
  is_Some (get_search_keys_cells_dict table !! k) <->
  exists c label, cells table !! c = Some label /\ normalize label = k.
Proof.
  split.
  - intros [cs Hk].
    assert (Hne : cs <> []).
    { eapply fold_add_cell_nonempty; [|exact Hk]. intros k' cs'. rewrite lookup_empty. discriminate. }
    destruct cs as [|c cs]; [congruence|].
    exists c. apply (dict_cells table k (c :: cs) c Hk). left.
  - intros (c & label & Hl & E).
    pose proof (fold_add_cell (map_to_list (cells table)) ∅ k c) as H.
    fold (get_search_keys_cells_dict table) in H.
    destruct (get_search_keys_cells_dict table !! k) as [cs|] eqn:Hk; [eauto|].
    exfalso. rewrite lookup_empty in H. cbn in H.
    assert (Hc : c ∈ @nil Cell).
    { apply H. right. exists label. split; [apply elem_of_map_to_list; exact Hl|exact E]. }
    inversion Hc.
Qed.

(** ** The loop over the results *)

Lemma annotate_results_fields d results : forall table,
  tab_id (annotate_results d results table).2 = tab_id table
  /\ dataset_id (annotate_results d results table).2 = dataset_id table
  /\ cells (annotate_results d results table).2 = cells table.
Proof.
  induction results as [|[k cands] rest IH]; intros table; cbn [annotate_results]; [auto|].
  destruct cands as [|best more]; [apply IH|].
  destruct (d !! k) as [cs|]; [|auto].
  destruct (IH (annotate_cells table cs {| uri := best |})) as (-> & -> & ->).
  apply annotate_cells_fields.
Qed.

(** The loop completes when every key that comes with candidates is a key
    of the dictionary. *)
Lemma annotate_results_ok d results : forall table,
  (forall k best more, In (k, best :: more) results -> is_Some (d !! k)) ->
  exists table', annotate_results d results table = (Ok tt, table').
Proof.
  induction results as [|[k cands] rest IH]; intros table Hkeys; cbn [annotate_results]; [eauto|].
  assert (Hrest : forall k best more, In (k, best :: more) rest -> is_Some (d !! k)).
  { intros k' best more Hin. eapply Hkeys. right. exact Hin. }
  destruct cands as [|best more]; [apply IH; exact Hrest|].
  destruct (Hkeys k best more (or_introl eq_refl)) as [cs ->].
  apply IH. exact Hrest.
Qed.

Lemma annotate_results_lookup d results :
  (forall k1 k2 cs1 cs2 c,
      d !! k1 = Some cs1 -> d !! k2 = Some cs2 -> c ∈ cs1 -> c ∈ cs2 -> k1 = k2) ->
  forall table table',
    annotate_results d results table = (Ok tt, table') ->
    NoDup (map fst results) ->
    forall k cs c, d !! k = Some cs -> c ∈ cs ->
      (forall best more, In (k, best :: more) results ->
                         annotations table' !! c = Some {| uri := best |})
      /\ ((forall cands, In (k, cands) results -> cands = []) ->
          annotations table' !! c = annotations table !! c).
Proof.
  intros Hdisj. induction results as [|[k0 cands0] rest IH];
    intros table table' Hrun Hnd k cs c Hk Hc.
  - cbn in Hrun. inversion Hrun; subst. split; [intros ? ? []|reflexivity].
  - cbn [annotate_results] in Hrun. cbn [map fst] in Hnd.
    apply NoDup_cons in Hnd as [Hfresh Hnd].
    destruct cands0 as [|best0 more0].
    + destruct (IH _ _ Hrun Hnd k cs c Hk Hc) as [H1 H2]. split.
      * intros best more [E|Hin]; [inversion E|]. eapply H1; exact Hin.
      * intros Hall. apply H2. intros cands Hin. apply Hall. right; exact Hin.
    + destruct (d !! k0) as [cs0|] eqn:Hk0; [|inversion Hrun].
      destruct (IH _ _ Hrun Hnd k cs c Hk Hc) as [H1 H2].
      destruct (decide (k0 = k)) as [->|Hne].
      * assert (cs0 = cs) by congruence. subst cs0.
        assert (Hfree : forall cands, In (k, cands) rest -> False).
        { intros cands Hin. apply Hfresh. apply list_elem_of_In.
          apply (in_map fst) in Hin. exact Hin. }
        split.
        -- intros best more [E|Hin]; [inversion E; subst|exfalso; eapply Hfree; exact Hin].
           rewrite H2; [apply annotate_cells_member; exact Hc|].
           intros cands Hin. exfalso; eapply Hfree; exact Hin.
        -- intros Hall. specialize (Hall _ (or_introl eq_refl)). discriminate.
      * assert (Hout : c ∉ cs0).
        { intros Hin. apply Hne. eapply Hdisj; eassumption. }
        split.
        -- intros best more [E|Hin]; [inversion E; congruence|]. eapply H1; exact Hin.
        -- intros Hall. rewrite H2; [apply annotate_cells_other; exact Hout|].
           intros cands Hin. apply Hall. right; exact Hin.
Qed.

Lemma nodup_keys_functional {K V} (l : list (K * V)) k v1 v2 :
  NoDup (map fst l) -> In (k, v1) l -> In (k, v2) l -> v1 = v2.
Proof.
  induction l as [|[k0 v0] l IH]; cbn [map fst]; intros Hnd H1 H2; [destruct H1|].
  apply NoDup_cons in Hnd as [Hfresh Hnd].
  assert (Hno : forall v, In (k0, v) l -> False).
  { intros v Hin. apply Hfresh, list_elem_of_In. apply (in_map fst) in Hin. exact Hin. }
  destruct H1 as [E1|H1], H2 as [E2|H2].
  - congruence.
  - inversion E1; subst. exfalso. eapply Hno; exact H2.
  - inversion E2; subst. exfalso. eapply Hno; exact H1.
  - apply IH; assumption.
Qed.

(** ** The cache check *)

Lemma cache_file_ids table table2 :
  tab_id table2 = tab_id table -> dataset_id table2 = dataset_id table ->
  cache_file table2 = cache_file table /\ cache_folder table2 = cache_folder table.
Proof.
  intros Ht Hd. unfold Annotators.cache_file, Annotators.cache_folder.
  rewrite Ht, Hd. auto.
Qed.

Lemma cache_miss_files table (w : World G) :
  cache_miss table w -> files w !! cache_file table = None.
Proof.
  unfold Annotators.cache_miss, path_exists. cbn [files mkdir].
  intros H. apply orb_false_iff in H as [H _]. apply orb_false_iff in H as [H _].
  apply bool_decide_eq_false in H.
  destruct (files w !! cache_file table); [exfalso; apply H; eauto|reflexivity].
Qed.

Lemma cache_miss_broken table (w : World G) :
  cache_miss table w -> cache_file table ∉ broken w.
Proof.
  unfold Annotators.cache_miss, path_exists. cbn [broken mkdir].
  intros H. apply orb_false_iff in H as [H _]. apply orb_false_iff in H as [_ H].
  apply bool_decide_eq_false in H. exact H.
Qed.

(** A stored artifact is returned as it is: the generator is not called
    and no file changes. *)
Lemma annotate_table_hit table (w : World G) stored :
  files w !! cache_file table = Some stored ->
  annotate_table table w = (Ok stored, table, mkdir (cache_folder table) w).
Proof.
  intros H. unfold Annotators.annotate_table.
  replace (path_exists _ _) with true.
  - cbn [negb]. unfold load. cbn [files mkdir]. rewrite H. reflexivity.
  - symmetry. unfold path_exists. cbn [files mkdir].
    apply orb_true_iff. left. apply orb_true_iff. left.
    apply bool_decide_eq_true. rewrite H. eauto.
Qed.

(** The write step: what it leaves when the path holds no file. *)
Lemma dump_outcome table' p (w1 : World G) :
  files w1 !! p = None -> p ∉ broken w1 ->
  calls (dump table' p w1).2 = calls w1
  /\ generator (dump table' p w1).2 = generator w1
  /\ match (dump table' p w1).1 with
     | None =>
         files (dump table' p w1).2 = <[p := table']> (files w1)
         /\ broken (dump table' p w1).2 = broken w1
     | Some e =>
         files (dump table' p w1).2 = files w1
         /\ (broken (dump table' p w1).2 = broken w1
             \/ broken (dump table' p w1).2 = {[p]} ∪ broken w1)
     end.
Proof.
  intros Hnone Hb. unfold Annotators.dump.
  destruct (open_wb w1 p) as [e|]; [cbn; auto|].
  destruct (pickle_dump (opened p w1) table') as [e|]; cbn.
  - rewrite (delete_id _ _ Hnone). auto.
  - rewrite insert_delete_eq. do 3 (split; [reflexivity|]).
    apply leibniz_equiv. set_solver.
Qed.

Lemma annotate_table_miss table (w : World G) results raised g :
  cache_miss table w ->
  get_candidates (generator w) table = (results, raised, g) ->
  annotate_table table w =
  match annotate_results (get_search_keys_cells_dict table) results table with
  | (Raise e, table') => (Raise e, table', generated table g w)
  | (Ok _, table') =>
      match raised with
      | Some e => (Raise e, table', generated table g w)
      | None =>
          match dump table' (cache_file table) (generated table g w) with
          | (Some e, w2) => (Raise e, table', w2)
          | (None, w2) => (Ok table', table', w2)
          end
      end
  end.
Proof.
  intros Hmiss Hgen. unfold Annotators.annotate_table, Annotators.generated.
  unfold Annotators.cache_miss in Hmiss. rewrite Hmiss.
  cbn [negb mkdir generator files broken dirs calls].
  rewrite Hgen. cbn zeta.
  destruct (annotate_results _ results table) as [[[]|e] table']; [|reflexivity].
  destruct raised; [reflexivity|].
  unfold Annotators.dump.
  destruct (open_wb _ (cache_file table)); [reflexivity|].
  destruct (pickle_dump _ table'); [reflexivity|].
  unfold load. cbn [files written]. rewrite lookup_insert_eq. reflexivity.
Qed.

(** What a call does to the world, whatever its outcome: nothing to the
    files, or the artifact stored under the key of the table when the call
    returns after a miss, or a file left incomplete at that path when the
    write fails after the file was created. *)
Lemma annotate_table_world table (w : World G) r t w' :
  annotate_table table w = (r, t, w') ->
  (calls w <= calls w' <= S (calls w))
  /\ ((files w' = files w /\ broken w' = broken w)
      \/ (exists stored,
             files w !! cache_file table = None /\ r = Ok stored
             /\ files w' = <[cache_file table := stored]> (files w)
             /\ broken w' = broken w)
      \/ (exists e,
             (cache_file table ∉ broken w) /\ r = Raise e
             /\ files w' = files w
             /\ broken w' = {[cache_file table]} ∪ broken w)).
Proof.
  intros Hrun.
  destruct (path_exists (cache_file table) (mkdir (cache_folder table) w)) eqn:Hex.
  - unfold Annotators.annotate_table in Hrun. rewrite Hex in Hrun. cbn [negb] in Hrun.
    inversion Hrun; subst. cbn [calls files broken mkdir]. split; [lia|left; auto].
  - destruct (get_candidates (generator w) table) as [[results raised] g] eqn:Hgen.
    rewrite (annotate_table_miss table w results raised g Hex Hgen) in Hrun.
    pose proof (cache_miss_files table w Hex) as Hnone.
    pose proof (cache_miss_broken table w Hex) as Hb.
    destruct (annotate_results _ results table) as [[[]|e] table'];
      [|inversion Hrun; subst; cbn; split; [lia|left; auto]].
    destruct raised; [inversion Hrun; subst; cbn; split; [lia|left; auto]|].
    destruct (dump_outcome table' (cache_file table) (generated table g w) Hnone Hb)
      as (Hc & _ & Hout).
    destruct (dump table' (cache_file table) (generated table g w)) as [[e|] w2];
      cbn [fst snd] in Hc, Hout; inversion Hrun; subst; rewrite Hc; cbn [calls generated];
      (split; [lia|]).
    + destruct Hout as [Hf [Hbr|Hbr]]; [left; auto|].
      right. right. exists e. auto.
    + destruct Hout as [Hf Hbr]. right. left. eexists. auto.
Qed.

(** What a call that returns leaves behind. *)
Lemma annotate_table_returns table (w : World G) r1 t1 w1 :
  annotate_table table w = (Ok r1, t1, w1) ->
  calls w1 <= S (calls w)
  /\ files w1 !! cache_file table = Some r1
  /\ tab_id t1 = tab_id table /\ dataset_id t1 = dataset_id table.
Proof.
  intros Hrun.
  destruct (path_exists (cache_file table) (mkdir (cache_folder table) w)) eqn:Hex.
  - unfold Annotators.annotate_table in Hrun. rewrite Hex in Hrun. cbn [negb] in Hrun.
    unfold load in Hrun. cbn [files broken mkdir] in Hrun.
    destruct (files w !! cache_file table) as [stored|] eqn:Hf;
      [|destruct (bool_decide _) in Hrun; inversion Hrun].
    inversion Hrun; subst. cbn [calls files mkdir]. rewrite Hf. auto.
  - destruct (get_candidates (generator w) table) as [[results raised] g] eqn:Hgen.
    rewrite (annotate_table_miss table w results raised g Hex Hgen) in Hrun.
    pose proof (annotate_results_fields (get_search_keys_cells_dict table) results table)
      as (Hid & Hds & _).
    destruct (annotate_results _ results table) as [[[]|e] table']; [|inversion Hrun].
    destruct raised; [inversion Hrun|].
    destruct (dump_outcome table' (cache_file table) (generated table g w)
                (cache_miss_files table w Hex) (cache_miss_broken table w Hex))
      as (Hc & _ & Hout).
    destruct (dump table' (cache_file table) (generated table g w)) as [[e|] w2];
      inversion Hrun; subst.
    cbn [fst snd] in Hc, Hout, Hid, Hds. destruct Hout as [Hf _].
    rewrite Hc, Hf, lookup_insert_eq. cbn [calls generated]. auto.
Qed.

(** ** The claims on [annotate_table] *)

(** C1: a stored artifact for the key of the table is returned unchanged
    without calling the generator and without touching the files; and when a
    call returns, it has called the generator at most once, what it returns
    is what the cache holds under the key, and a second call for the same
    key returns that same artifact with no further call of the generator. *)
Theorem annotate_table_idempotent (table : Table) (w : World G) :
  (forall stored,
      files w !! cache_file table = Some stored ->
      exists w', annotate_table table w = (Ok stored, table, w')
                 /\ calls w' = calls w /\ generator w' = generator w
                 /\ files w' = files w)
  /\ (forall r1 t1 w1,
         annotate_table table w = (Ok r1, t1, w1) ->
         calls w1 <= S (calls w)
         /\ files w1 !! cache_file table = Some r1
         /\ tab_id t1 = tab_id table /\ dataset_id t1 = dataset_id table
         /\ forall table2,
              tab_id table2 = tab_id table -> dataset_id table2 = dataset_id table ->
              exists w2, annotate_table table2 w1 = (Ok r1, table2, w2)
                         /\ calls w2 = calls w1 /\ files w2 = files w1).
Proof.
  split.
  - intros stored H. eexists. split; [apply annotate_table_hit; exact H|].
    cbn; auto.
  - intros r1 t1 w1 Hrun.
    pose proof (annotate_table_returns table w r1 t1 w1 Hrun) as Hfirst.
    destruct Hfirst as (Hcalls & Hfile & Hid & Hds).
    repeat (split; [assumption|]).
    intros table2 Ht Hd.
    destruct (cache_file_ids table table2 Ht Hd) as [Ef _].
    eexists. split; [apply annotate_table_hit; rewrite Ef; exact Hfile|].
    cbn; auto.
Qed.

(** C6: on a cache miss, when the generator returns one candidate list
    per search key of the table, the dictionary has one entry per distinct
    search key listing the cells that share it, the generator is called
    once, every cell whose key got a non-empty list is annotated with the
    first candidate, and every cell whose key got an empty list keeps the
    annotation it had (none for a fresh table).  The annotated table is then
    written: when the file opens and the pickler succeeds, the call stores
    and returns it; otherwise the call raises the exception of the step that
    failed and stores no artifact. *)
Theorem annotate_table_cache_miss (table : Table) (w : World G)
    (results : list (string * list string)) (g : G) :
  cache_miss table w ->
  get_candidates (generator w) table = (results, None, g) ->
  NoDup (map fst results) ->
  (forall k best more, In (k, best :: more) results ->
                       is_Some (get_search_keys_cells_dict table !! k)) ->
  (forall k, is_Some (get_search_keys_cells_dict table !! k) <->
             exists c label, cells table !! c = Some label /\ normalize label = k)
  /\ (forall k cs c, get_search_keys_cells_dict table !! k = Some cs ->
                     (c ∈ cs <-> exists label, cells table !! c = Some label
                                               /\ normalize label = k))
  /\ exists annotated r w',
      annotate_table table w = (r, annotated, w')
      /\ calls w' = S (calls w)
      /\ tab_id annotated = tab_id table
      /\ dataset_id annotated = dataset_id table
      /\ cells annotated = cells table
      /\ (forall c label,
           cells table !! c = Some label ->
           (forall best more,
               In (normalize label, best :: more) results ->
               annotations annotated !! c = Some {| uri := best |})
           /\ (In (normalize label, []) results ->
               annotations annotated !! c = annotations table !! c))
      /\ match (dump annotated (cache_file table) (generated table g w)).1 with
         | None =>
             r = Ok annotated
             /\ files w' = <[cache_file table := annotated]> (files w)
         | Some e => r = Raise e /\ files w' = files w
         end.
Proof.
  intros Hmiss Hgen Hnd Hkeys.
  split; [apply dict_keys|]. split; [apply dict_cells|].
  destruct (annotate_results_ok (get_search_keys_cells_dict table) results table Hkeys)
    as [annotated Hrun].
  pose proof (annotate_results_fields (get_search_keys_cells_dict table) results table)
    as (Hid & Hds & Hcells).
  rewrite Hrun in Hid, Hds, Hcells. cbn [snd] in Hid, Hds, Hcells.
  destruct (dump_outcome annotated (cache_file table) (generated table g w)
              (cache_miss_files table w Hmiss) (cache_miss_broken table w Hmiss))
    as (Hc & _ & Hout).
  exists annotated,
    (match (dump annotated (cache_file table) (generated table g w)).1 with
     | None => Ok annotated
     | Some e => Raise e
     end),
    (dump annotated (cache_file table) (generated table g w)).2.
  split.
  { rewrite (annotate_table_miss table w results None g Hmiss Hgen), Hrun.
    destruct (dump annotated (cache_file table) (generated table g w)) as [[e|] w2];
      reflexivity. }
  split; [rewrite Hc; reflexivity|].
  do 3 (split; [assumption|]).
  split.
  2:{ destruct ((dump annotated (cache_file table) (generated table g w)).1);
        destruct Hout as [Hf _]; auto. }
  intros c label Hl.
  assert (Hsome : is_Some (get_search_keys_cells_dict table !! normalize label)).
  { apply dict_keys. eauto. }
  destruct Hsome as [cs Hk].
  assert (Hcin : c ∈ cs) by (apply (dict_cells table _ cs c Hk); eauto).
  assert (Hdisj : forall k1 k2 cs1 cs2 c0,
             get_search_keys_cells_dict table !! k1 = Some cs1 ->
             get_search_keys_cells_dict table !! k2 = Some cs2 ->
             c0 ∈ cs1 -> c0 ∈ cs2 -> k1 = k2).
  { intros k1 k2 cs1 cs2 c0 H1 H2 Hc1 Hc2.
    apply (dict_cells table _ _ c0 H1) in Hc1 as (l1 & Hl1 & <-).
    apply (dict_cells table _ _ c0 H2) in Hc2 as (l2 & Hl2 & <-).
    congruence. }
  destruct (annotate_results_lookup _ results Hdisj table annotated Hrun Hnd _ cs c Hk Hcin)
    as [H1 H2].
  split; [exact H1|].
  intros Hempty. apply H2. intros cands Hin.
  destruct cands as [|best more]; [reflexivity|]. exfalso.
  assert (E : @nil string = best :: more); [|discriminate].
  eapply (nodup_keys_functional results (normalize label)); eassumption.
Qed.


End Annotator.

End AnnotatorsFacts.

(** * Properties of the entity equality *)

Module KgsFacts.
Import Kgs.

(** C5: where the equality of [Entity] departs from the claim.  The two
    spellings of one resource are equal and hash differently, the hash being
    the one of the tuple of the raw identifier, so equal entities do not hash
    equal; and a [Class] or a [Property] that carries the identifier of an
    entity is equal to the entity when it is the left operand, through
    [tuple.__eq__], while the entity as the left operand is not equal to
    it. *)
Theorem Entity_eq_hash_divergence :
  py_eq Sample.ascii_unquote Sample.ascii_lower
    (PyEntity Sample.Foo) (PyEntity Sample.foo) = true
  /\ Entity_hash Sample.str_hash Sample.tuple_hash Sample.Foo
     <> Entity_hash Sample.str_hash Sample.tuple_hash Sample.foo
  /\ py_eq Sample.ascii_unquote Sample.ascii_lower
       (PyEntity Sample.Foo_Bar_quoted) (PyEntity Sample.Foo_Bar) = true
  /\ Entity_hash Sample.str_hash Sample.tuple_hash Sample.Foo_Bar_quoted
     <> Entity_hash Sample.str_hash Sample.tuple_hash Sample.Foo_Bar
  /\ ~ hash_respects_eq Sample.ascii_unquote Sample.ascii_lower
         Sample.str_hash Sample.tuple_hash
  /\ forall (unquote lower : string -> string) (u : string),
       py_eq unquote lower (PyClass {| class_uri := u |}) (PyEntity {| uri := u |}) = true
       /\ py_eq unquote lower (PyProperty {| property_uri := u |}) (PyEntity {| uri := u |})
          = true
       /\ py_eq unquote lower (PyEntity {| uri := u |}) (PyClass {| class_uri := u |}) = false
       /\ py_eq unquote lower (PyTuple [u]) (PyEntity {| uri := u |}) = false.
Proof.
  assert (Hne : Entity_hash Sample.str_hash Sample.tuple_hash Sample.Foo
                <> Entity_hash Sample.str_hash Sample.tuple_hash Sample.foo)
    by (vm_compute; discriminate).
  assert (Heq : Entity_eq Sample.ascii_unquote Sample.ascii_lower
                  Sample.Foo (PyEntity Sample.foo) = true)
    by (vm_compute; reflexivity).
  split; [exact Heq|]. split; [exact Hne|].
  split; [vm_compute; reflexivity|]. split; [vm_compute; discriminate|]. split.
  - intros H. apply Hne. apply H. exact Heq.
  - intros unquote lower u. unfold py_eq. cbn.
    rewrite bool_decide_eq_true_2 by reflexivity. auto.
Qed.

End KgsFacts.

(** * The claims on concrete inputs *)

Module Witnesses.
Import Functions FunctionsFacts Annotators AnnotatorsFacts Sample.

Lemma half_valid : valid_alpha (1 # 2).
Proof. split; unfold Qle; cbn; lia. Defined.

Lemma weighting_by_ranking_no_embeddings_witness :
  weighting_by_ranking cosine1 candidates_CD (1 # 2) None =
  Ok [Build_ScoredCandidate "C" 0 None None; Build_ScoredCandidate "D" 1 None None].
Proof.
  apply (weighting_by_ranking_no_embeddings cosine1 candidates_CD (1 # 2) half_valid).
  repeat constructor.
Defined.

Lemma weighting_by_ranking_rejects_witness :
  weighting_by_ranking cosine1 candidates_ABC (3 # 2) None = Raise AssertionError
  /\ weighting_by_ranking cosine1 candidates_ABC (1 # 2) (Some (-1 # 10)) = Raise AssertionError.
Proof.
  split.
  - apply weighting_by_ranking_rejects. right; left. reflexivity.
  - apply weighting_by_ranking_rejects. right; right. exists (-1 # 10). split; reflexivity.
Defined.

Lemma weighting_by_ranking_permutation_witness :
  exists out,
    weighting_by_ranking cosine1 candidates_ABC (1 # 2) (Some (9 # 10)) = Ok out
    /\ length out = 3
    /\ Permutation (map (fun sc => (original_rank sc, sc_candidate sc)) out)
                   [(0, "A"); (1, "B"); (2, "C")].
Proof.
  apply (weighting_by_ranking_permutation cosine1 candidates_ABC (1 # 2) (Some (9 # 10))
           half_valid).
  unfold valid_default, Qle; cbn; lia.
Defined.

Lemma weighting_by_ranking_zero_width_range_witness :
  exists out,
    weighting_by_ranking cosine1 candidates_AC (1 # 2) None = Ok out
    /\ exists sc s, In sc out /\ original_rank sc = 0 /\ sc_candidate sc = "A"
                    /\ score sc = Some s /\ (s == 0)%Q.
Proof.
  destruct (weighting_by_ranking_zero_width_range cosine1 candidates_AC (1 # 2) None 0
              half_valid I) as (_ & out & Hrun & Hscored).
  - intros c d [<-|[<-|[]]]; cbn; intros E; inversion E. reflexivity.
  - exists out. split; [exact Hrun|].
    destruct (Hscored 0 (cand "A" (Some 1%Q) (Some 1%Q)) eq_refl eq_refl)
      as (sc & s & Hin & Hr & Hc & Hs & Heq).
    exists sc, s. repeat (split; [assumption|]).
    rewrite Heq. reflexivity.
Defined.

Lemma annotate_table_idempotent_witness :
  exists r1 t1 w1 w2,
    annotate_table ascii_lower "lookup" lookup_generator "/repo/annotators"
      posix_open_wb pickle_ok table1 empty_world = (Ok r1, t1, w1)
    /\ annotate_table ascii_lower "lookup" lookup_generator "/repo/annotators"
         posix_open_wb pickle_ok t1 w1 = (Ok r1, t1, w2)
    /\ calls w2 <= 1.
Proof.
  assert (E : exists r1 t1 w1,
             annotate_table ascii_lower "lookup" lookup_generator "/repo/annotators"
               posix_open_wb pickle_ok table1 empty_world = (Ok r1, t1, w1)).
  { vm_compute. do 3 eexists. reflexivity. }
  destruct E as (r1 & t1 & w1 & E).
  destruct (annotate_table_idempotent ascii_lower "lookup" lookup_generator
              "/repo/annotators" posix_open_wb pickle_ok table1 empty_world) as [_ H2].
  destruct (H2 r1 t1 w1 E) as (Hcalls & _ & Hid & Hds & Hsecond).
  destruct (Hsecond t1 Hid Hds) as (w2 & Hrun2 & Hc2 & _).
  exists r1, t1, w1, w2. split; [exact E|]. split; [exact Hrun2|].
  rewrite Hc2. exact Hcalls.
Defined.

Lemma annotate_table_cache_miss_witness :
  exists annotated w',
    annotate_table ascii_lower "lookup" lookup_generator "/repo/annotators"
      posix_open_wb pickle_ok table1 empty_world = (Ok annotated, annotated, w')
    /\ calls w' = 1
    /\ annotations annotated !! (0, 0) = Some {| uri := paris |}
    /\ annotations annotated !! (0, 1) = Some {| uri := paris |}
    /\ annotations annotated !! (0, 2) = None.
Proof.
  destruct (annotate_table_cache_miss ascii_lower "lookup" lookup_generator
              "/repo/annotators" posix_open_wb pickle_ok table1 empty_world
              [("paris", [paris; "http://dbpedia.org/resource/Paris,_Texas"]); ("london", [])]
              1)
    as (_ & _ & annotated & r & w' & Hrun & Hcalls & _ & _ & _ & Hcells & Hout).
  - vm_compute. reflexivity.
  - reflexivity.
  - apply (bool_decide_unpack _). vm_compute. reflexivity.
  - intros k best more [E|[E|[]]]; inversion E; subst. vm_compute. eauto.
  - assert (Hopen : (dump posix_open_wb pickle_ok annotated
                       (cache_file "lookup" "/repo/annotators" table1)
                       (generated "lookup" "/repo/annotators" table1 1 empty_world)).1 = None)
      by (vm_compute; reflexivity).
    rewrite Hopen in Hout. destruct Hout as [-> _].
    exists annotated, w'. split; [exact Hrun|]. split; [exact Hcalls|].
    split; [|split].
    + destruct (Hcells (0, 0) "Paris") as [H _]; [vm_compute; reflexivity|].
      apply (H paris ["http://dbpedia.org/resource/Paris,_Texas"]). left. reflexivity.
    + destruct (Hcells (0, 1) "paris") as [H _]; [vm_compute; reflexivity|].
      apply (H paris ["http://dbpedia.org/resource/Paris,_Texas"]). left. reflexivity.
    + destruct (Hcells (0, 2) "London") as [_ H]; [vm_compute; reflexivity|].
      etransitivity; [apply H; right; left; reflexivity|vm_compute; reflexivity].
Defined.


End Witnesses.

(** * Properties of the string model *)

Module PyStrFacts.
Import PyStr.
#[local] Arguments isspace : simpl never.

Lemma append_cons c (a b : string) : String c a +:+ b = String c (a +:+ b).
Proof. reflexivity. Qed.

Lemma append_nil (b : string) : "" +:+ b = b.
Proof. reflexivity. Qed.

Lemma append_assoc (a b c : string) : (a +:+ b) +:+ c = a +:+ (b +:+ c).
Proof. induction a as [|x a IH]; [reflexivity|]. rewrite !append_cons, IH. reflexivity. Qed.

Lemma append_inj_l (p a b : string) : p +:+ a = p +:+ b -> a = b.
Proof.
  induction p as [|c p IH]; [auto|]. rewrite !append_cons. intros E. inversion E. auto.
Qed.

Lemma length_append (a b : string) :
  String.length (a +:+ b) = String.length a + String.length b.
Proof.
  induction a as [|c a IH]; [reflexivity|].
  rewrite append_cons. cbn. rewrite IH. reflexivity.
Qed.

Lemma append_inj_r (s : string) : forall a b : string, a +:+ s = b +:+ s -> a = b.
Proof.
  induction a as [|c a IH]; intros [|c' b] E.
  - reflexivity.
  - exfalso. apply (f_equal String.length) in E.
    change ("" +:+ s) with s in E.
    rewrite length_append in E. cbn in E. lia.
  - exfalso. apply (f_equal String.length) in E.
    change ("" +:+ s) with s in E.
    rewrite length_append in E. cbn in E. lia.
  - rewrite !append_cons in E. inversion E. f_equal. apply IH. assumption.
Qed.

Lemma starts_token_token t : is_token t -> starts_token t = true.
Proof.
  intros [Hne Hall]. destruct t as [|c t]; [congruence|].
  cbn in *. apply andb_true_iff in Hall as [Hc _]. exact Hc.
Qed.

Lemma is_token_cons c t :
  isspace c = false -> (t = "" \/ is_token t) -> is_token (String c t).
Proof.
  intros Hc Ht. split; [discriminate|]. cbn. rewrite Hc. cbn.
  destruct Ht as [->|[_ H]]; [reflexivity|exact H].
Qed.

Lemma is_token_inv c t :
  is_token (String c t) -> isspace c = false /\ (t = "" \/ is_token t).
Proof.
  intros [_ H]. cbn in H. apply andb_true_iff in H as [Hc Ht].
  split; [apply negb_true_iff; exact Hc|].
  destruct t as [|c' t']; [left; reflexivity|right; split; [discriminate|exact Ht]].
Qed.

(** [split] yields tokens only. *)
Lemma split_tokens s : Forall is_token (split s).
Proof.
  induction s as [|c rest IH]; cbn [split]; [constructor|].
  destruct (isspace c) eqn:Hc; [exact IH|].
  destruct (starts_token rest).
  - destruct (split rest) as [|tok toks].
    + constructor; [|constructor]. apply is_token_cons; auto.
    + apply Forall_cons in IH as [Htok Htoks].
      constructor; [|exact Htoks]. apply is_token_cons; auto.
  - constructor; [|exact IH]. apply is_token_cons; auto.
Qed.

Lemma split_token t : is_token t -> split t = [t].
Proof.
  induction t as [|c t IH]; intros Ht; [destruct Ht; congruence|].
  apply is_token_inv in Ht as [Hc [->|Ht]]; cbn [split]; rewrite Hc.
  - reflexivity.
  - rewrite (starts_token_token t Ht), (IH Ht). reflexivity.
Qed.

Lemma split_token_space t r :
  is_token t -> split (t +:+ String " " r) = t :: split r.
Proof.
  induction t as [|c t IH]; intros Ht; [destruct Ht; congruence|].
  apply is_token_inv in Ht as [Hc [->|Ht]];
    rewrite append_cons; cbn [split]; rewrite Hc.
  - rewrite append_nil. reflexivity.
  - replace (starts_token (t +:+ String " " r)) with true.
    + rewrite (IH Ht). reflexivity.
    + destruct t as [|c' t']; [destruct Ht; congruence|].
      rewrite append_cons. symmetry. apply (starts_token_token (String c' t') Ht).
Qed.

(** Splitting the join of tokens gives the tokens back. *)
Lemma split_join ts : Forall is_token ts -> split (join " " ts) = ts.
Proof.
  induction 1 as [|t ts Ht Hts IH]; [reflexivity|].
  destruct ts as [|t' ts'].
  - apply split_token. exact Ht.
  - change (join " " (t :: t' :: ts'))
      with (t +:+ String " " (join " " (t' :: ts'))).
    rewrite (split_token_space t _ Ht), IH. reflexivity.
Qed.

Lemma split_join_filter (p : string -> bool) s :
  split (join " " (List.filter p (split s))) = List.filter p (split s).
Proof.
  apply split_join. apply List.Forall_forall. intros t Ht.
  apply filter_In in Ht as [Ht _].
  pose proof (split_tokens s) as H. rewrite List.Forall_forall in H. apply H. exact Ht.
Qed.

Lemma split_on_nonempty sep s : split_on sep s <> [].
Proof.
  destruct s as [|c rest]; cbn [split_on]; [discriminate|].
  destruct (bool_decide (c = sep)); [discriminate|].
  destruct (split_on sep rest); discriminate.
Qed.

(** Joining the pieces of a separator split gives the string back. *)
Lemma join_split_on sep s : join (String sep "") (split_on sep s) = s.
Proof.
  induction s as [|c rest IH]; [reflexivity|].
  cbn [split_on].
  destruct (split_on sep rest) as [|p ps] eqn:E;
    [exfalso; eapply split_on_nonempty; exact E|].
  destruct (bool_decide (c = sep)) eqn:Hc.
  - apply bool_decide_eq_true in Hc as ->.
    change (join (String sep "") ("" :: p :: ps))
      with (String sep (join (String sep "") (p :: ps))).
    rewrite IH. reflexivity.
  - destruct ps as [|p' ps'].
    + cbn [join] in *. subst. reflexivity.
    + change (join (String sep "") (String c p :: p' :: ps'))
        with (String c (join (String sep "") (p :: p' :: ps'))).
      rewrite IH. reflexivity.
Qed.

Lemma length_str_take n : forall s, String.length (str_take n s) = Nat.min n (String.length s).
Proof.
  induction n as [|n IH]; intros [|c s]; cbn; try reflexivity.
  rewrite IH. reflexivity.
Qed.

Lemma length_str_drop n : forall s, String.length (str_drop n s) = String.length s - n.
Proof.
  induction n as [|n IH]; intros [|c s]; cbn; try reflexivity.
  apply IH.
Qed.

Lemma find_lt c s i : find c s = Some i -> i < String.length s.
Proof.
  revert i. induction s as [|c' s IH]; intros i; cbn; [discriminate|].
  destruct (bool_decide (c' = c)).
  - intros E; inversion E. lia.
  - destruct (find c s) as [k|]; cbn; [|discriminate].
    intros E; inversion E. specialize (IH k eq_refl). lia.
Qed.

End PyStrFacts.

(** * Properties of the list and text helpers *)

Module FunctionsTextFacts.
Import PyStr PyStrFacts FunctionsText.

(** ** [chunk_list] *)

Lemma chunk_count_bounds n k :
  0 < k ->
  n <= (n + k - 1) / k * k /\ (0 < n -> ((n + k - 1) / k - 1) * k < n /\ 0 < (n + k - 1) / k).
Proof.
  intros Hk.
  pose proof (Nat.div_mod_eq (n + k - 1) k) as E.
  pose proof (Nat.mod_upper_bound (n + k - 1) k ltac:(lia)) as U.
  split; [nia|]. intros Hn.
  assert (0 < (n + k - 1) / k) by (destruct ((n + k - 1) / k); [nia|lia]).
  split; [nia|assumption].
Qed.

Lemma chunks_concat {A} k : 0 < k -> forall m (l : list A),
  length l <= m * k ->
  concat (map (fun j => take k (drop (j * k) l)) (seq 0 m)) = l.
Proof.
  intros Hk. induction m as [|m IH]; intros l Hl.
  - destruct l; [reflexivity|cbn in Hl; lia].
  - cbn [seq map concat]. rewrite <- seq_shift, map_map.
    transitivity (take k l ++ drop k l); [|apply take_drop].
    cbn [Nat.mul Nat.add drop]. f_equal.
    etransitivity; [|apply (IH (drop k l)); rewrite length_drop; lia].
    f_equal. apply map_ext. intros j. rewrite drop_drop. reflexivity.
Qed.

Lemma chunk_list_positive {A} (l : list A) (chunk_size : Z) :
  (0 < chunk_size)%Z ->
  chunk_list l chunk_size =
  Ok (map (fun j => take (Z.to_nat chunk_size) (drop (j * Z.to_nat chunk_size) l))
          (seq 0 ((length l + Z.to_nat chunk_size - 1) / Z.to_nat chunk_size))).
Proof.
  intros H. unfold chunk_list, range_step.
  replace (chunk_size =? 0)%Z with false by (symmetry; apply Z.eqb_neq; lia).
  replace (chunk_size <? 0)%Z with false by (symmetry; apply Z.ltb_ge; lia).
  cbn [mbind result_bind]. rewrite map_map. reflexivity.
Qed.

(** X1: for a positive chunk size the chunks, concatenated in the order
    they are yielded, give the list back. *)
Theorem chunk_list_concat {A} (l : list A) (chunk_size : Z) :
  (0 < chunk_size)%Z ->
  exists chunks, chunk_list l chunk_size = Ok chunks /\ concat chunks = l.
Proof.
  intros H. eexists. split; [apply chunk_list_positive; exact H|].
  apply chunks_concat; [lia|].
  apply chunk_count_bounds. lia.
Qed.

(** X2: for a positive chunk size there are ceil(len / size) chunks, none
    of them empty, none longer than the chunk size, and every chunk but the
    last has exactly the chunk size. *)
Theorem chunk_list_sizes {A} (l : list A) (chunk_size : Z) :
  (0 < chunk_size)%Z ->
  exists chunks,
    chunk_list l chunk_size = Ok chunks
    /\ length chunks = (length l + Z.to_nat chunk_size - 1) / Z.to_nat chunk_size
    /\ Forall (fun c => 1 <= length c <= Z.to_nat chunk_size) chunks
    /\ forall j c, chunks !! j = Some c -> S j < length chunks ->
                   length c = Z.to_nat chunk_size.
Proof.
  intros H. eexists. split; [apply chunk_list_positive; exact H|].
  set (k := Z.to_nat chunk_size). set (n := length l).
  assert (Hk : 0 < k) by (unfold k; lia).
  set (m := (n + k - 1) / k).
  assert (Hchunk : forall j, j < m -> 1 <= length (take k (drop (j * k) l)) <= k
                                      /\ (S j < m -> length (take k (drop (j * k) l)) = k)).
  { intros j Hj. rewrite length_take, length_drop. fold n.
    assert (Hn : 0 < n).
    { destruct n; [|lia]. unfold m in Hj. rewrite Nat.add_0_l in Hj.
      rewrite Nat.div_small in Hj by lia. lia. }
    destruct (chunk_count_bounds n k Hk) as [_ Hb]. destruct (Hb Hn) as [Hlast _].
    fold m in Hlast. split; [nia|]. intros Hj'. nia. }
  split; [rewrite length_map, length_seq; reflexivity|]. split.
  - apply List.Forall_forall. intros c Hc.
    apply in_map_iff in Hc as (j & <- & Hj). apply in_seq in Hj.
    apply Hchunk. lia.
  - intros j c Hc Hlen. rewrite length_map, length_seq in Hlen.
    rewrite list_lookup_fmap in Hc.
    destruct (seq 0 m !! j) as [j'|] eqn:Ej; [|discriminate].
    apply lookup_seq in Ej as [-> _]. cbn in Hc. inversion Hc; subst c.
    apply Hchunk; lia.
Qed.

(** X3: [chunk_list] raises exactly for the chunk size zero, and then
    [ValueError], also on the empty list; it yields no chunk at all exactly
    for a negative chunk size, whatever the list holds, or for the empty list
    with a positive chunk size. *)
Theorem chunk_list_degenerate {A} (l : list A) (chunk_size : Z) :
  ((exists e, chunk_list l chunk_size = Raise e) <-> chunk_size = 0%Z)
  /\ (chunk_list l chunk_size = Raise ValueError <-> chunk_size = 0%Z)
  /\ (chunk_list l chunk_size = Ok [] <->
      (chunk_size < 0)%Z \/ ((0 < chunk_size)%Z /\ l = [])).
Proof.
  destruct chunk_size as [|p|p].
  - split; [|split].
    + split; [reflexivity|]. intros _. exists ValueError. reflexivity.
    + split; reflexivity.
    + split; [discriminate|]. intros [H|[H _]]; lia.
  - rewrite (chunk_list_positive l (Z.pos p)) by lia. split; [|split].
    + split; [intros [e C]; discriminate|discriminate].
    + split; discriminate.
    + set (k := Z.to_nat (Z.pos p)). assert (Hk : 0 < k) by (unfold k; lia).
      destruct (chunk_count_bounds (length l) k Hk) as [_ Hpos]. split.
      * intros E. right. split; [lia|]. inversion E as [E'].
        apply (f_equal (@length _)) in E'. rewrite length_map, length_seq in E'. cbn in E'.
        destruct l as [|x l]; [reflexivity|]. cbn [length] in Hpos, E'.
        destruct (Hpos ltac:(lia)). lia.
      * intros [H|[_ ->]]; [lia|]. cbn [length].
        rewrite Nat.add_0_l, Nat.div_small by lia. reflexivity.
  - split; [|split].
    + split; [intros [e C]; discriminate|discriminate].
    + split; discriminate.
    + split; [intros _; left; lia|reflexivity].
Qed.

(** ** The token filters *)

Lemma filter_filter_comm {A} (p q : A -> bool) (l : list A) :
  List.filter p (List.filter q l) = List.filter q (List.filter p l).
Proof.
  induction l as [|x l IH]; [reflexivity|]. cbn.
  destruct (q x) eqn:Hq, (p x) eqn:Hp; cbn; rewrite ?Hq, ?Hp, IH; reflexivity.
Qed.

Lemma filter_idem {A} (p : A -> bool) (l : list A) :
  List.filter p (List.filter p l) = List.filter p l.
Proof.
  induction l as [|x l IH]; [reflexivity|]. cbn.
  destruct (p x) eqn:Hp; cbn; rewrite ?Hp, IH; reflexivity.
Qed.

Lemma split_remove_single_char s :
  split (_remove_single_char s) = List.filter (fun x => 1 <? len x) (split s).
Proof. apply split_join_filter. Qed.

Lemma split_remove_numbers s :
  split (_remove_numbers s) = List.filter (fun x => negb (isnumeric x)) (split s).
Proof. apply split_join_filter. Qed.

Lemma remove_single_char_tokens s :
  Forall (fun t => 1 < len t) (split (_remove_single_char s)).
Proof.
  rewrite split_remove_single_char. apply List.Forall_forall. intros t Ht.
  apply filter_In in Ht as [_ Ht]. apply Nat.ltb_lt. exact Ht.
Qed.

Lemma remove_numbers_tokens s :
  Forall (fun t => isnumeric t = false) (split (_remove_numbers s)).
Proof.
  rewrite split_remove_numbers. apply List.Forall_forall. intros t Ht.
  apply filter_In in Ht as [_ Ht]. apply negb_true_iff. exact Ht.
Qed.

Lemma remove_brackets_ok s : exists r, _remove_brackets s = Ok r.
Proof.
  unfold _remove_brackets.
  destruct (contains "("%char s) eqn:Ho; cbn [andb]; [|eauto].
  destruct (contains ")"%char s) eqn:Hc; [|eauto].
  unfold contains in Ho, Hc.
  apply bool_decide_eq_true in Ho as [i Hi]. apply bool_decide_eq_true in Hc as [j Hj].
  unfold index. rewrite Hi, Hj. cbn [mbind result_bind].
  destruct (i <? len (join " " (take 5 (split s)))); eauto.
Qed.

(** X4: [_remove_single_char] is idempotent, and every token of its
    result has at least two characters. *)
Theorem remove_single_char_idempotent s :
  _remove_single_char (_remove_single_char s) = _remove_single_char s
  /\ Forall (fun t => 1 < len t) (split (_remove_single_char s)).
Proof.
  split.
  - unfold _remove_single_char at 1. rewrite split_remove_single_char, filter_idem.
    reflexivity.
  - apply remove_single_char_tokens.
Qed.

(** X5: [_remove_numbers] is idempotent, and no token of its result is
    numeric. *)
Theorem remove_numbers_idempotent s :
  _remove_numbers (_remove_numbers s) = _remove_numbers s
  /\ Forall (fun t => isnumeric t = false) (split (_remove_numbers s)).
Proof.
  split.
  - unfold _remove_numbers at 1. rewrite split_remove_numbers, filter_idem.
    reflexivity.
  - apply remove_numbers_tokens.
Qed.

(** X6: the two token filters commute. *)
Theorem remove_numbers_single_char_commute s :
  _remove_numbers (_remove_single_char s) = _remove_single_char (_remove_numbers s).
Proof.
  unfold _remove_numbers at 1, _remove_single_char at 2.
  rewrite split_remove_single_char, split_remove_numbers, filter_filter_comm.
  reflexivity.
Qed.

(** ** [_remove_brackets] *)

Lemma contains_find c s : contains c s = true -> exists i, find c s = Some i.
Proof.
  unfold contains. intros H. apply bool_decide_eq_true in H as [i Hi]. eauto.
Qed.

Lemma contains_find_none c s : contains c s = false -> find c s = None.
Proof.
  unfold contains. intros H. apply bool_decide_eq_false in H.
  destruct (find c s); [exfalso; apply H; eauto|reflexivity].
Qed.

(** The first occurrence of a character splits a string in what precedes
    it, free of the character, and what follows it. *)
Lemma find_split c s : forall i,
  find c s = Some i ->
  s = str_take i s +:+ String c (str_drop (S i) s) /\ find c (str_take i s) = None.
Proof.
  induction s as [|c' s IH]; intros i; cbn [find]; [discriminate|].
  destruct (bool_decide (c' = c)) eqn:Hc.
  - intros E; inversion E; subst. apply bool_decide_eq_true in Hc as ->.
    cbn. auto.
  - destruct (find c s) as [k|] eqn:Hk; cbn; [|discriminate].
    intros E; inversion E; subst. destruct (IH k eq_refl) as [Es Hn].
    cbn [str_take str_drop find]. rewrite append_cons, Hc, Hn. cbn.
    split; [f_equal; exact Es|reflexivity].
Qed.

Lemma find_drop c s : forall j k,
  find c s = Some j -> k <= j -> find c (str_drop k s) = Some (j - k).
Proof.
  induction s as [|c' s IH]; intros j k; cbn [find]; [discriminate|].
  destruct k as [|k]; [intros H _; cbn [str_drop find]; rewrite Nat.sub_0_r; exact H|].
  destruct (bool_decide (c' = c)); [intros E; inversion E; lia|].
  destruct (find c s) as [m|] eqn:Hm; cbn; [|discriminate].
  intros E Hk; inversion E; subst. cbn [str_drop].
  change (S m - S k) with (m - k). apply IH; [reflexivity|lia].
Qed.

Lemma str_drop_drop a : forall b s, str_drop a (str_drop b s) = str_drop (b + a) s.
Proof.
  intros b. induction b as [|b IH]; intros s; [reflexivity|].
  destruct s as [|c s]; cbn [str_drop Nat.add]; [destruct a; reflexivity|apply IH].
Qed.

(** X7: [_remove_brackets] never raises.  When both brackets occur and
    the first opening bracket lies before the end of the first five tokens, it
    returns what precedes the first opening bracket followed by what follows
    the first closing bracket, so that with [i] and [j] their positions
    [len(result) + j + 1 = len(input) + i]; when the closing bracket comes
    after the opening one, the input is the result with a bracketed text put
    back at that place, the text holding no closing bracket and what precedes
    it no opening one.  In every other case it returns its input. *)
Theorem remove_brackets_result s :
  exists r,
    _remove_brackets s = Ok r
    /\ match find "("%char s, find ")"%char s with
       | Some i, Some j =>
           if i <? len (join " " (take 5 (split s))) then
             r = str_take i s +:+ str_drop (j + 1) s
             /\ len r + j + 1 = len s + i
             /\ (i < j ->
                 exists inner,
                   s = str_take i s
                       +:+ String "("%char (inner +:+ String ")"%char (str_drop (j + 1) s))
                   /\ find ")"%char inner = None
                   /\ find "("%char (str_take i s) = None)
           else r = s
       | _, _ => r = s
       end.
Proof.
  unfold _remove_brackets.
  destruct (contains "("%char s) eqn:Ho; cbn [andb].
  2:{ rewrite (contains_find_none _ _ Ho). eauto. }
  destruct (contains ")"%char s) eqn:Hc.
  2:{ rewrite (contains_find_none _ _ Hc). destruct (find "("%char s); eauto. }
  destruct (contains_find _ _ Ho) as [i Hi], (contains_find _ _ Hc) as [j Hj].
  unfold index. rewrite Hi, Hj. cbn [mbind result_bind].
  destruct (i <? len (join " " (take 5 (split s)))) eqn:Hpos; [|eauto].
  cbn [mbind result_bind]. eexists. split; [reflexivity|].
  split; [reflexivity|]. split.
  - unfold len. rewrite length_append, length_str_take, length_str_drop.
    apply find_lt in Hi, Hj. lia.
  - intros Hij. destruct (find_split _ _ _ Hi) as [Es Hn].
    pose proof (find_drop _ _ j (S i) Hj Hij) as Hj'.
    destruct (find_split _ _ _ Hj') as [Ed Hd].
    exists (str_take (j - S i) (str_drop (S i) s)).
    split; [|split; [exact Hd|exact Hn]].
    rewrite str_drop_drop in Ed.
    replace (S i + S (j - S i)) with (j + 1) in Ed by lia.
    rewrite <- Ed. exact Es.
Qed.

(** ** [simplify_string] *)

(** X8: [simplify_string] never raises, whatever date remover it is
    given; when numbers are removed no token of the result is numeric, and
    when single characters are removed every token of the result has at least
    two characters. *)
Theorem simplify_string_tokens (_remove_dates : string -> string) s
    (dates numbers single_char brackets : bool) :
  exists r,
    simplify_string _remove_dates s dates numbers single_char brackets = Ok r
    /\ (numbers = true -> Forall (fun t => isnumeric t = false) (split r))
    /\ (single_char = true -> Forall (fun t => 1 < len t) (split r)).
Proof.
  unfold simplify_string.
  assert (Hb : exists s1, (if brackets then _remove_brackets s else Ok s) = Ok s1).
  { destruct brackets; [apply remove_brackets_ok|eauto]. }
  destruct Hb as [s1 ->]. cbn [mbind result_bind]. eexists. split; [reflexivity|].
  set (s2 := if dates then _remove_dates s1 else s1). split.
  - intros ->. destruct single_char.
    + rewrite split_remove_single_char. apply List.Forall_forall. intros t Ht.
      apply filter_In in Ht as [Ht _].
      pose proof (remove_numbers_tokens s2) as H. rewrite List.Forall_forall in H.
      apply H. exact Ht.
    + apply remove_numbers_tokens.
  - intros ->. apply remove_single_char_tokens.
Qed.

End FunctionsTextFacts.

(** * Properties of [strings_subsequences] *)

Module SubsequencesFacts.
Import PyStr PyStrFacts FunctionsText.

Lemma rev_seq_lookup n : forall i, i < n -> rev (seq 0 n) !! i = Some (n - 1 - i).
Proof.
  induction n as [|n IH]; intros i Hi; [lia|].
  rewrite seq_S, rev_unit. destruct i as [|i]; cbn.
  - f_equal. lia.
  - rewrite IH by lia. f_equal. lia.
Qed.

(** The list recorded for a string: its length, its entries from the
    longest to the shortest, and the tokens of each entry. *)
Lemma subsequences_of_shape (tokens : list string) (max_subseq_len : Z) :
  Forall is_token tokens ->
  let n := Z.to_nat (Z.min max_subseq_len (Z.of_nat (length tokens))) in
  length (subsequences_of tokens max_subseq_len) = n
  /\ (forall i, i < n ->
        subsequences_of tokens max_subseq_len !! i = Some (join " " (take (n - i) tokens)))
  /\ Forall (fun x => exists k, 1 <= k <= n /\ split x = take k tokens)
       (subsequences_of tokens max_subseq_len).
Proof.
  intros Htok n. unfold subsequences_of. fold n. split; [|split].
  - rewrite length_map, length_rev, length_seq. reflexivity.
  - intros i Hi. rewrite list_lookup_fmap, rev_seq_lookup by exact Hi. cbn.
    do 3 f_equal. lia.
  - apply List.Forall_forall. intros x Hx.
    apply in_map_iff in Hx as (i & <- & Hi). apply in_rev, in_seq in Hi.
    exists (i + 1). split; [lia|].
    apply split_join. apply Forall_take. exact Htok.
Qed.

Lemma subsequences_fold_spec (max_subseq_len : Z) (strings : list string) :
  forall acc,
    let r := fold_left (subsequences_step max_subseq_len) strings acc in
    (forall s, r.1 !! s =
               if bool_decide (s ∈ strings)
               then Some (subsequences_of (split s) max_subseq_len)
               else acc.1 !! s)
    /\ (forall x, x ∈ r.2 <->
                  x ∈ acc.2 \/ exists s, s ∈ strings
                                         /\ x ∈ subsequences_of (split s) max_subseq_len).
Proof.
  induction strings as [|s0 strings IH]; intros acc; cbn [fold_left].
  - split.
    + intros s. rewrite bool_decide_eq_false_2 by (apply not_elem_of_nil). reflexivity.
    + intros x. split; [auto|]. intros [H|(s & Hs & _)]; [exact H|inversion Hs].
  - destruct (IH (subsequences_step max_subseq_len acc s0)) as [Hd Hs]. split.
    + intros s. rewrite Hd. destruct acc as [d0 st0]. cbn [subsequences_step fst].
      destruct (decide (s ∈ strings)) as [Hin|Hout].
      * rewrite !bool_decide_eq_true_2; [reflexivity|right; exact Hin|exact Hin].
      * rewrite (bool_decide_eq_false_2 _ Hout).
        destruct (decide (s = s0)) as [->|Hne].
        -- rewrite lookup_insert_eq, bool_decide_eq_true_2 by left. reflexivity.
        -- rewrite lookup_insert_ne by congruence.
           rewrite bool_decide_eq_false_2; [reflexivity|].
           intros C. apply elem_of_cons in C as [C|C]; contradiction.
    + intros x. rewrite Hs. destruct acc as [d0 st0]. cbn [subsequences_step snd].
      rewrite elem_of_union, elem_of_list_to_set. split.
      * intros [[H|H]|(s & Hin & Hx)]; [auto| |].
        -- right. exists s0. split; [left|exact H].
        -- right. exists s. split; [right; exact Hin|exact Hx].
      * intros [H|(s & Hin & Hx)]; [auto|].
        apply elem_of_cons in Hin as [->|Hin]; [auto|].
        right. exists s. auto.
Qed.

(** X9: the dictionary of [strings_subsequences] has exactly the input
    strings as keys; the list of a string with [m] tokens has [min(max, m)]
    entries (none when the maximum is not positive), the entry at position [i]
    being the first [min(max, m) - i] tokens joined by one space, so that the
    longest comes first and every entry has at most [max] tokens. *)
Theorem strings_subsequences_dict (strings : list string) (max_subseq_len : Z) (s : string) :
  let d := (strings_subsequences strings max_subseq_len).1 in
  let n := Z.to_nat (Z.min max_subseq_len (Z.of_nat (length (split s)))) in
  (is_Some (d !! s) <-> s ∈ strings)
  /\ forall l, d !! s = Some l ->
       length l = n
       /\ (forall i, i < n -> l !! i = Some (join " " (take (n - i) (split s))))
       /\ Forall (fun x => exists k, 1 <= k <= n /\ split x = take k (split s)) l.
Proof.
  intros d n. unfold d, strings_subsequences.
  destruct (subsequences_fold_spec max_subseq_len strings (∅, ∅)) as [Hd _].
  cbv zeta in Hd. rewrite Hd. cbn [fst]. rewrite lookup_empty. split.
  - destruct (bool_decide (s ∈ strings)) eqn:E.
    + apply bool_decide_eq_true in E. split; [auto|eauto].
    + apply bool_decide_eq_false in E. split; [intros [? C]; discriminate|contradiction].
  - intros l Hl. destruct (bool_decide (s ∈ strings)); [|discriminate].
    inversion Hl; subst l. apply subsequences_of_shape. apply split_tokens.
Qed.

(** X10: the set of [strings_subsequences] holds exactly the entries of
    the lists of its dictionary. *)
Theorem strings_subsequences_set (strings : list string) (max_subseq_len : Z) (x : string) :
  x ∈ (strings_subsequences strings max_subseq_len).2 <->
  exists s l, (strings_subsequences strings max_subseq_len).1 !! s = Some l /\ x ∈ l.
Proof.
  unfold strings_subsequences.
  destruct (subsequences_fold_spec max_subseq_len strings (∅, ∅)) as [Hd Hs].
  cbv zeta in Hd, Hs. rewrite Hs. cbn [snd]. split.
  - intros [C|(s & Hin & Hx)]; [apply elem_of_empty in C; destruct C|].
    exists s. eexists. rewrite Hd, bool_decide_eq_true_2 by exact Hin. eauto.
  - intros (s & l & Hl & Hx). right. exists s. rewrite Hd in Hl.
    destruct (bool_decide (s ∈ strings)) eqn:E.
    + apply bool_decide_eq_true in E. inversion Hl; subst l. auto.
    + cbn in Hl. rewrite lookup_empty in Hl. discriminate.
Qed.

End SubsequencesFacts.

(** * Further properties of the rank fusion *)

Module FusionOrderFacts.
Import Functions FunctionsFacts FusionOrder.

Lemma column_min_le_max data : (column_min data <= column_max data)%Q.
Proof.
  destruct data as [|x xs]; [apply Qle_refl|].
  eapply Qle_trans; [apply (column_min_lower (x :: xs) x)|apply (column_max_upper (x :: xs) x)];
    left; reflexivity.
Qed.

(** The scale of a fitted scaler is positive. *)
Lemma column_scaler_scale_pos data : (0 < scale_ (column_scaler data))%Q.
Proof.
  unfold column_scaler, scaler_of. cbn [scale_].
  pose proof (column_min_le_max data) as H.
  unfold handle_zeros_in_scale.
  destruct (Qeq_bool (column_max data - column_min data) 0) eqn:E.
  - reflexivity.
  - apply Qeq_bool_neq in E.
    apply Qlt_shift_div_l; [|lra].
    destruct (Qlt_le_dec (column_min data) (column_max data)) as [L|G]; [lra|].
    exfalso. apply E. lra.
Qed.

Lemma transform_lt s x y :
  (0 < scale_ s)%Q -> ((transform s x < transform s y)%Q <-> (x < y)%Q).
Proof. intros H. unfold transform. split; intros L; nra. Qed.

(** A list already ascending by key is left as it is. *)
Lemma sort_by_key_sorted_id {A} (l : list (Q * A)) :
  StronglySorted (fun a b => (a.1 <= b.1)%Q) l -> sort_by_key l = l.
Proof.
  induction 1 as [|x l Hs IH Hx]; [reflexivity|].
  cbn [sort_by_key]. rewrite IH. destruct l as [|y l']; [reflexivity|].
  cbn [insert_by_key]. apply Forall_cons in Hx as [Hxy _].
  apply Qle_bool_iff in Hxy. rewrite Hxy. reflexivity.
Qed.

Section Fusion.
Context {Candidate Emb : Type} (cosine : Emb -> Emb -> Q).

Lemma non_scored_tail (candidates : list (CandidateEmbeddings Candidate Emb)) :
  non_scored cosine None candidates = unscorable_tail candidates.
Proof. apply non_scored_None_filter. Qed.

(** X12: with [alpha] equal to 1 and no default score the fusion keeps
    the retrieval order: the scorable candidates come in input order, followed
    by the unscorable ones in input order. *)
Theorem weighting_by_ranking_alpha_one
    (candidates : list (CandidateEmbeddings Candidate Emb)) (alpha : Q) :
  (alpha == 1)%Q ->
  exists scored_out,
    weighting_by_ranking cosine candidates alpha None =
      Ok (scored_out ++ unscorable_tail candidates)
    /\ map original_rank scored_out =
       map fst (List.filter (fun item => scorable item.2) (enumerate candidates)).
Proof.
  intros Ha.
  assert (Va : valid_alpha alpha) by (split; rewrite Ha; discriminate).
  eexists. split.
  { rewrite (weighting_by_ranking_valid cosine candidates alpha None Va I).
    rewrite non_scored_tail. reflexivity. }
  unfold ranked. rewrite sort_by_key_sorted_id.
  - unfold decorated. rewrite !map_map. cbn [snd fused original_rank].
    unfold scored_entries. apply scored_None_filter.
  - unfold decorated.
    eapply StronglySorted_map_in; [apply (scored_entries_increasing cosine None candidates)|].
    intros a b _ _ Hab. cbn [fst]. unfold code_score. rewrite Ha.
    pose proof (column_scaler_scale_pos (map of_rank (seq 0 (length candidates)))) as Hpos.
    assert (Hr : (transform (rank_scaler_of candidates) (of_rank a.1.1)
                  < transform (rank_scaler_of candidates) (of_rank b.1.1))%Q).
    { apply transform_lt; [exact Hpos|].
      unfold of_rank. rewrite <- Zlt_Qlt. cbv beta in Hab. lia. }
    lra.
Qed.

(** X14: a default score equal to 0 counts as not provided: the call
    returns what it returns without a default score. *)
Theorem weighting_by_ranking_zero_default
    (candidates : list (CandidateEmbeddings Candidate Emb)) (alpha q : Q) :
  (q == 0)%Q ->
  weighting_by_ranking cosine candidates alpha (Some q) =
  weighting_by_ranking cosine candidates alpha None.
Proof.
  intros Hq. unfold weighting_by_ranking.
  assert (T : truthy (Some q) = false).
  { cbn. apply negb_false_iff. apply Qeq_bool_iff. exact Hq. }
  rewrite T. cbn [truthy].
  replace (partition_candidates cosine (Some q) candidates)
    with (partition_candidates cosine None candidates); [reflexivity|].
  unfold partition_candidates.
  generalize (@nil (ScoredCandidate Candidate), @nil (ScoredCandidate Candidate)).
  induction (enumerate candidates) as [|item l IH]; intros acc; [reflexivity|].
  cbn [fold_left]. rewrite IH. f_equal.
  destruct acc as [s n], item as [rank c]. unfold partition_step.
  rewrite T. reflexivity.
Qed.

End Fusion.

End FusionOrderFacts.

(** * Further properties of the annotator *)

Module AnnotatorsDatasetFacts.
Import Annotators AnnotatorsFacts AnnotatorsDataset PyStrFacts.

Section Annotator.
Context (normalize : string -> string) {G : Type} (generator_id : string)
  (get_candidates : G -> Table -> list (string * list string) * option exn * G)
  (module_dir : string)
  (open_wb : World G -> string -> option exn)
  (pickle_dump : World G -> Table -> option exn)
  (process_map :
     (Table -> World G -> result Table * Table * World G) ->
     list Table * option exn -> Z -> nat -> World G -> result (list Table) * World G).
Abbreviation get_search_keys_cells_dict := (Annotators.get_search_keys_cells_dict normalize).
Abbreviation cache_folder := (Annotators.cache_folder generator_id module_dir).
Abbreviation cache_file := (Annotators.cache_file generator_id module_dir).
Abbreviation cache_miss := (@Annotators.cache_miss G generator_id module_dir).
Abbreviation annotate_table :=
  (@Annotators.annotate_table normalize G generator_id get_candidates module_dir
     open_wb pickle_dump).
Abbreviation annotate_each :=
  (@AnnotatorsDataset.annotate_each normalize G generator_id get_candidates module_dir
     open_wb pickle_dump).
Abbreviation annotate_dataset :=
  (@AnnotatorsDataset.annotate_dataset normalize G generator_id get_candidates module_dir
     open_wb pickle_dump process_map).

(** ** One table *)

Lemma annotate_table_mono table (w : World G) r t w' :
  annotate_table table w = (r, t, w') ->
  files w ⊆ files w' /\ calls w <= calls w' <= S (calls w).
Proof.
  intros Hrun.
  destruct (annotate_table_world normalize generator_id get_candidates module_dir
              open_wb pickle_dump table w r t w' Hrun)
    as [Hcalls [[E _]|[(stored & Hnone & _ & E & _)|(e & _ & _ & E & _)]]];
    rewrite E; (split; [|exact Hcalls]); [reflexivity| |reflexivity].
  apply insert_subseteq. exact Hnone.
Qed.

(** X15: whatever its outcome, a call of [annotate_table] keeps every
    complete file of the cache and every incomplete file as they are.  The
    only path at which it can add a file is the one of the artifact of its
    table: a complete artifact only when it returns, and an incomplete file
    only when it raises, which happens when the write fails after the file
    was created.  It calls the generator at most once. *)
Theorem annotate_table_write_once (table : Table) (w : World G)
    (r : result Table) (t : Table) (w' : World G) :
  annotate_table table w = (r, t, w') ->
  files w ⊆ files w'
  /\ broken w ⊆ broken w'
  /\ (forall p, is_Some (files w' !! p) ->
                is_Some (files w !! p) \/ (p = cache_file table /\ exists stored, r = Ok stored))
  /\ (forall p, p ∈ broken w' ->
                p ∈ broken w \/ (p = cache_file table /\ exists e, r = Raise e))
  /\ calls w <= calls w' <= S (calls w).
Proof.
  intros Hrun.
  destruct (annotate_table_world normalize generator_id get_candidates module_dir
              open_wb pickle_dump table w r t w' Hrun)
    as [Hcalls [[E Eb]|[(stored & Hnone & Hr & E & Eb)|(e & Hb & Hr & E & Eb)]]];
    rewrite E, Eb.
  - split; [reflexivity|]. split; [reflexivity|]. split; [auto|]. split; [auto|exact Hcalls].
  - split; [apply insert_subseteq; exact Hnone|]. split; [reflexivity|].
    split; [|split; [auto|exact Hcalls]].
    intros p Hp. destruct (decide (p = cache_file table)) as [->|Hne].
    + right. eauto.
    + left. rewrite lookup_insert_ne in Hp by congruence. exact Hp.
  - split; [reflexivity|]. split; [set_solver|]. split; [auto|].
    split; [|exact Hcalls].
    intros p Hp. apply elem_of_union in Hp as [Hp|Hp]; [|auto].
    apply elem_of_singleton in Hp. right. eauto.
Qed.

(** A call that returns leaves what it returns under the key of its table. *)
Lemma annotate_table_ok_stored table (w : World G) stored t w' :
  annotate_table table w = (Ok stored, t, w') ->
  files w' !! cache_file table = Some stored.
Proof.
  intros Hrun.
  apply (annotate_table_returns normalize generator_id get_candidates module_dir
           open_wb pickle_dump table w) in Hrun.
  apply Hrun.
Qed.



(** ** The dataset loop *)

Lemma annotate_each_ok tables : forall acc (w : World G) out w',
  annotate_each tables acc w = (Ok out, w') ->
  exists rs, out = acc ++ rs
    /\ Forall2 (fun table r => files w' !! cache_file table = Some r) tables rs
    /\ calls w' <= calls w + length tables
    /\ files w ⊆ files w'.
Proof.
  induction tables as [|table rest IH]; intros acc w out w' Hrun; cbn [annotate_each] in Hrun.
  - inversion Hrun; subst. exists []. rewrite app_nil_r.
    split; [reflexivity|]. split; [constructor|]. split; [cbn; lia|reflexivity].
  - destruct (annotate_table table w) as [[[r|e] t] w1] eqn:Hone; [|inversion Hrun].
    destruct (IH _ _ _ _ Hrun) as (rs & -> & Hall & Hcalls & Hsub).
    destruct (annotate_table_mono table w _ _ _ Hone) as (Hsub1 & Hc1).
    exists (r :: rs). rewrite <- app_assoc. split; [reflexivity|]. split; [|split].
    + constructor; [|exact Hall].
      eapply lookup_weaken; [|exact Hsub].
      eapply annotate_table_ok_stored. exact Hone.
    + cbn [length]. lia.
    + etransitivity; eassumption.
Qed.

Lemma annotate_each_cached tables rs : forall acc (w : World G),
  Forall2 (fun table r => files w !! cache_file table = Some r) tables rs ->
  exists w', annotate_each tables acc w = (Ok (acc ++ rs), w')
             /\ files w' = files w /\ calls w' = calls w.
Proof.
  revert rs. induction tables as [|table tables IH]; intros rs acc w H.
  - inversion H; subst. cbn. rewrite app_nil_r. eauto.
  - inversion H as [|? r ? rs' Hone Hall]; subst. cbn [annotate_each].
    rewrite (annotate_table_hit normalize generator_id get_candidates module_dir
               open_wb pickle_dump
               table w r Hone).
    destruct (IH rs' (acc ++ [r]) (mkdir (cache_folder table) w) Hall)
      as (w' & Hrun & Hf & Hc).
    exists w'. rewrite Hrun, <- app_assoc. auto.
Qed.

(** X17: with one worker, a run that returns yields one artifact per
    table, in the order of the dataset; each artifact is what the cache holds
    under the key of its table when the run ends; no file that existed before
    is changed, and the generator is called at most once per table. *)
Theorem annotate_dataset_serial (self : CEAAnnotator) (dataset : Dataset)
    (w : World G) (out : list Table) (w' : World G) :
  _max_workers self = 1%Z ->
  annotate_dataset self dataset w = (Ok out, w') ->
  Forall2 (fun table r => files w' !! cache_file table = Some r) (get_tables dataset).1 out
  /\ length out = length (get_tables dataset).1
  /\ calls w' <= calls w + length (get_tables dataset).1
  /\ files w ⊆ files w'.
Proof.
  intros Hone Hrun. unfold AnnotatorsDataset.annotate_dataset in Hrun.
  destruct (total_tables dataset) as [total|e]; [|inversion Hrun].
  rewrite Hone in Hrun. cbn [Z.eqb Pos.eqb] in Hrun.
  destruct (annotate_each (get_tables dataset).1 [] w) as [[rs|e] w1] eqn:Heach;
    [|inversion Hrun].
  destruct (get_tables dataset).2; inversion Hrun; subst.
  destruct (annotate_each_ok _ _ _ _ _ Heach) as (rs & E & Hall & Hcalls & Hsub).
  cbn [app] in E. subst rs.
  split; [exact Hall|]. split; [|auto].
  symmetry. eapply Forall2_length. exact Hall.
Qed.

(** X18: with one worker, running a second time over the same dataset
    returns the same list of artifacts without calling the generator and
    without changing a file. *)
Theorem annotate_dataset_idempotent (self : CEAAnnotator) (dataset : Dataset)
    (w : World G) (out : list Table) (w' : World G) :
  _max_workers self = 1%Z ->
  annotate_dataset self dataset w = (Ok out, w') ->
  exists w'',
    annotate_dataset self dataset w' = (Ok out, w'')
    /\ calls w'' = calls w' /\ files w'' = files w'.
Proof.
  intros Hone Hrun. pose proof Hrun as Hrun0.
  unfold AnnotatorsDataset.annotate_dataset in Hrun |- *.
  destruct (total_tables dataset) as [total|e]; [|inversion Hrun].
  rewrite Hone in Hrun |- *. cbn [Z.eqb Pos.eqb] in Hrun |- *.
  destruct (annotate_each (get_tables dataset).1 [] w) as [[rs|e] w1] eqn:Heach;
    [|inversion Hrun].
  destruct (get_tables dataset).2 eqn:Hend; inversion Hrun; subst.
  destruct (annotate_each_ok _ _ _ _ _ Heach) as (rs & E & Hall & _ & _).
  cbn [app] in E. subst rs.
  destruct (annotate_each_cached _ _ [] w' Hall) as (w'' & Hrun2 & Hf & Hc).
  exists w''. rewrite Hrun2. cbn [app]. auto.
Qed.

Lemma annotate_each_app pre : forall post acc (w : World G) rs w1,
  annotate_each pre acc w = (Ok rs, w1) ->
  annotate_each (pre ++ post) acc w = annotate_each post rs w1.
Proof.
  induction pre as [|table pre IH]; intros post acc w rs w1 Hrun; cbn [annotate_each app] in *.
  - inversion Hrun; subst. reflexivity.
  - destruct (annotate_table table w) as [[[r|e] t] w0]; [|inversion Hrun].
    apply IH. exact Hrun.
Qed.

(** X19: with one worker the run stops at the first table whose
    annotation raises: it raises that exception, the tables after it are not
    processed, and the artifacts of the tables before it are in the cache. *)
Theorem annotate_dataset_fail_fast (self : CEAAnnotator) (dataset : Dataset)
    (total : nat) (pre post : list Table) (table : Table)
    (w w1 w2 : World G) (rs : list Table) (e : exn) (t : Table) :
  _max_workers self = 1%Z ->
  total_tables dataset = Ok total ->
  (get_tables dataset).1 = pre ++ table :: post ->
  annotate_each pre [] w = (Ok rs, w1) ->
  annotate_table table w1 = (Raise e, t, w2) ->
  annotate_dataset self dataset w = (Raise e, w2)
  /\ Forall2 (fun table r => files w2 !! cache_file table = Some r) pre rs.
Proof.
  intros Hone Htotal Htables Hpre Hfail. split.
  - unfold AnnotatorsDataset.annotate_dataset. rewrite Htotal, Hone, Htables.
    cbn [Z.eqb Pos.eqb].
    rewrite (annotate_each_app pre (table :: post) [] w rs w1 Hpre).
    cbn [annotate_each]. rewrite Hfail. reflexivity.
  - destruct (annotate_each_ok _ _ _ _ _ Hpre) as (rs' & E & Hall & _ & _).
    cbn [app] in E. subst rs'.
    destruct (annotate_table_mono table w1 _ _ _ Hfail) as (Hsub & _).
    eapply Forall2_impl; [exact Hall|]. cbn. intros x y Hxy.
    eapply lookup_weaken; eassumption.
Qed.

End Annotator.

(** ** The path of the artifact *)

(** Two paths agree up to and after their first separator. *)
Lemma split_at_sep (a b r r' : string) :
  no_sep a = true -> no_sep b = true ->
  a +:+ String "/" r = b +:+ String "/" r' -> a = b /\ r = r'.
Proof.
  revert b. induction a as [|c a IH]; intros [|c' b] Ha Hb E.
  - inversion E. auto.
  - exfalso. rewrite append_cons in E. inversion E; subst c'.
    cbn in Hb. rewrite bool_decide_eq_true_2 in Hb by reflexivity. discriminate.
  - exfalso. rewrite append_cons in E. inversion E; subst c.
    cbn in Ha. rewrite bool_decide_eq_true_2 in Ha by reflexivity. discriminate.
  - rewrite !append_cons in E. inversion E; subst c'.
    cbn in Ha, Hb. apply andb_true_iff in Ha as [_ Ha]. apply andb_true_iff in Hb as [_ Hb].
    destruct (IH b Ha Hb H1) as [-> ->]. auto.
Qed.

Lemma component_start s : component s -> startswith_sep s = false.
Proof.
  intros [Hne Hs]. destruct s as [|c s]; [congruence|].
  cbn in *. apply andb_true_iff in Hs as [Hc _]. apply negb_true_iff. exact Hc.
Qed.

Lemma app_component_nonempty (p s : string) : component s -> p +:+ s <> "".
Proof.
  intros [Hne _] E. apply (f_equal String.length) in E.
  rewrite length_append in E. destruct s; [congruence|cbn in E; lia].
Qed.

Lemma endswith_sep_app (p s : string) :
  component s -> endswith_sep (p +:+ s) = false.
Proof.
  intros Hcomp. pose proof Hcomp as [Hne Hs]. induction p as [|c p IH].
  - change ("" +:+ s) with s. clear Hne Hcomp. induction s as [|c s IHs]; [reflexivity|].
    cbn in Hs. apply andb_true_iff in Hs as [Hc Hs].
    cbn [endswith_sep]. destruct s as [|c' s'].
    + apply negb_true_iff. exact Hc.
    + apply IHs. exact Hs.
  - rewrite append_cons. cbn [endswith_sep].
    destruct (p +:+ s) as [|c' q] eqn:E; [|exact IH].
    exfalso. apply (app_component_nonempty p s Hcomp). exact E.
Qed.

(** Appending a component to a path that ends in a component. *)
Lemma join_step_component (p s b : string) :
  component s -> startswith_sep b = false ->
  join_step (p +:+ s) b = (p +:+ s) +:+ String "/" b.
Proof.
  intros Hs Hb. unfold join_step. rewrite Hb.
  rewrite (endswith_sep_app p s Hs).
  rewrite bool_decide_eq_false_2 by (apply app_component_nonempty; exact Hs).
  reflexivity.
Qed.

Lemma component_annotations : component "annotations".
Proof. split; [discriminate|reflexivity]. Qed.

Lemma no_sep_pkl_start s : no_sep s = true -> startswith_sep (s +:+ ".pkl") = false.
Proof.
  destruct s as [|c s]; [reflexivity|]. cbn. intros H.
  apply andb_true_iff in H as [Hc _]. apply negb_true_iff. exact Hc.
Qed.

Lemma append_sep (p d : string) : p +:+ String "/" d = (p +:+ "/") +:+ d.
Proof. rewrite append_assoc. reflexivity. Qed.

(** The artifact path of a table, when the ids are plain path components. *)
Lemma cache_file_components generator_id module_dir table :
  component (dataset_id table) -> component generator_id -> no_sep (tab_id table) = true ->
  Annotators.cache_file generator_id module_dir table =
  join_step module_dir "annotations"
    +:+ String "/" (dataset_id table +:+ String "/" (generator_id
    +:+ String "/" (tab_id table +:+ ".pkl"))).
Proof.
  intros Hd Hg Ht. unfold Annotators.cache_file, Annotators.cache_folder, path_join.
  cbn [fold_left].
  assert (Hbase : exists p, join_step module_dir "annotations" = p +:+ "annotations").
  { unfold join_step. cbn [startswith_sep]. rewrite bool_decide_eq_false_2 by discriminate.
    destruct (bool_decide (module_dir = "") || endswith_sep module_dir).
    - exists module_dir. reflexivity.
    - exists (module_dir +:+ "/"). rewrite append_assoc. reflexivity. }
  destruct Hbase as [p Hp]. rewrite Hp.
  rewrite (join_step_component p "annotations" _ component_annotations (component_start _ Hd)).
  rewrite (append_sep (p +:+ "annotations") (dataset_id table)).
  rewrite (join_step_component _ (dataset_id table) _ Hd (component_start _ Hg)).
  rewrite (append_sep _ generator_id).
  rewrite (join_step_component _ generator_id _ Hg (no_sep_pkl_start _ Ht)).
  rewrite <- !append_sep. rewrite !append_assoc. reflexivity.
Qed.

(** X20: when dataset ids and generator ids are non-empty and neither
    they nor the table ids contain a path separator, the paths that
    [annotate_table] builds under the same directory are the same string
    only for the same dataset id, generator id and table id.  Whether two
    different strings name one file is left to the file system. *)
Theorem cache_file_injective (module_dir g1 g2 : string) (t1 t2 : Table) :
  component (dataset_id t1) -> component (dataset_id t2) ->
  component g1 -> component g2 ->
  no_sep (tab_id t1) = true -> no_sep (tab_id t2) = true ->
  Annotators.cache_file g1 module_dir t1 = Annotators.cache_file g2 module_dir t2 ->
  dataset_id t1 = dataset_id t2 /\ g1 = g2 /\ tab_id t1 = tab_id t2.
Proof.
  intros Hd1 Hd2 Hg1 Hg2 Ht1 Ht2 E.
  rewrite (cache_file_components g1 module_dir t1 Hd1 Hg1 Ht1) in E.
  rewrite (cache_file_components g2 module_dir t2 Hd2 Hg2 Ht2) in E.
  apply append_inj_l in E. inversion E as [E1]. clear E.
  apply split_at_sep in E1 as [Ed E2]; [|apply Hd1|apply Hd2].
  apply split_at_sep in E2 as [Eg E3]; [|apply Hg1|apply Hg2].
  apply append_inj_r in E3. auto.
Qed.

End AnnotatorsDatasetFacts.

(** * Properties of the dataset paths *)

Module DatasetsFacts.
Import AnnotatorsDataset AnnotatorsDatasetFacts Datasets PyStrFacts.

Lemma value_no_sep self : no_sep (value self) = true.
Proof. destruct self; reflexivity. Qed.

Lemma value_inj a b : value a = value b -> a = b.
Proof. destruct a, b; cbn; intros E; try reflexivity; discriminate. Qed.

(** What follows the directory of the module and the value of the member
    in the three kinds of path. *)
Lemma path_after_value (module_dir : string) (a b : DatasetEnum) (r r' : string) :
  module_dir +:+ "/" +:+ value a +:+ String "/" r =
  module_dir +:+ "/" +:+ value b +:+ String "/" r' ->
  a = b /\ r = r'.
Proof.
  intros E. apply append_inj_l in E. apply (append_inj_l "/") in E.
  apply split_at_sep in E as [Ev Er]; [|apply value_no_sep|apply value_no_sep].
  split; [apply value_inj; exact Ev|exact Er].
Qed.

(** X21: two table paths coincide only for the same dataset and the same
    table id. *)
Theorem table_path_injective (module_dir : string) (a b : DatasetEnum) (t1 t2 : string) :
  _table_path module_dir a t1 = _table_path module_dir b t2 ->
  a = b /\ t1 = t2.
Proof.
  unfold _table_path. intros E.
  apply (path_after_value module_dir a b ("tables/" +:+ t1 +:+ ".csv")
           ("tables/" +:+ t2 +:+ ".csv")) in E as [-> E].
  split; [reflexivity|].
  apply (append_inj_l "tables/") in E. apply append_inj_r in E. exact E.
Qed.

(** X22: two ground-truth paths, and two target paths, coincide only for
    the same dataset and the same task; and a ground-truth path, a target
    path and a table path never coincide with one another. *)
Theorem gt_target_paths_distinct (module_dir : string) (a b : DatasetEnum) (x y : string) :
  (_gt_path module_dir a x = _gt_path module_dir b y -> a = b /\ x = y)
  /\ (_target_path module_dir a x = _target_path module_dir b y -> a = b /\ x = y)
  /\ _gt_path module_dir a x <> _target_path module_dir b y
  /\ _gt_path module_dir a x <> _table_path module_dir b y
  /\ _target_path module_dir a x <> _table_path module_dir b y.
Proof.
  unfold _gt_path, _target_path, _table_path. repeat split.
  - apply (path_after_value module_dir a b ("gt/" +:+ x +:+ "_" +:+ value a +:+ "_gt.csv")
             ("gt/" +:+ y +:+ "_" +:+ value b +:+ "_gt.csv")) in H as [-> E].
    reflexivity.
  - apply (path_after_value module_dir a b ("gt/" +:+ x +:+ "_" +:+ value a +:+ "_gt.csv")
             ("gt/" +:+ y +:+ "_" +:+ value b +:+ "_gt.csv")) in H as [-> E].
    apply (append_inj_l "gt/") in E.
    rewrite <- !(append_assoc _ "_" _) in E. rewrite <- !append_assoc in E.
    apply append_inj_r in E. apply append_inj_r in E. apply append_inj_r in E. exact E.
  - apply (path_after_value module_dir a b
             ("targets/" +:+ x +:+ "_" +:+ value a +:+ "_Targets.csv")
             ("targets/" +:+ y +:+ "_" +:+ value b +:+ "_Targets.csv")) in H as [-> E].
    reflexivity.
  - apply (path_after_value module_dir a b
             ("targets/" +:+ x +:+ "_" +:+ value a +:+ "_Targets.csv")
             ("targets/" +:+ y +:+ "_" +:+ value b +:+ "_Targets.csv")) in H as [-> E].
    apply (append_inj_l "targets/") in E.
    rewrite <- !append_assoc in E.
    apply append_inj_r in E. apply append_inj_r in E. apply append_inj_r in E. exact E.
  - intros E.
    apply (path_after_value module_dir a b ("gt/" +:+ x +:+ "_" +:+ value a +:+ "_gt.csv")
             ("targets/" +:+ y +:+ "_" +:+ value b +:+ "_Targets.csv")) in E as [_ E].
    discriminate E.
  - intros E.
    apply (path_after_value module_dir a b ("gt/" +:+ x +:+ "_" +:+ value a +:+ "_gt.csv")
             ("tables/" +:+ y +:+ ".csv")) in E as [_ E].
    discriminate E.
  - intros E.
    apply (path_after_value module_dir a b
             ("targets/" +:+ x +:+ "_" +:+ value a +:+ "_Targets.csv")
             ("tables/" +:+ y +:+ ".csv")) in E as [_ E].
    apply (append_inj_l "ta") in E. discriminate E.
Qed.

End DatasetsFacts.

(** * Properties of the batches *)

Module BatchesFacts.
Import Batches.

Lemma slices_chunk_list {A} (size : nat) (l : list A) :
  0 < size -> FunctionsText.chunk_list l (Z.of_nat size) = Ok (slices size l).
Proof.
  intros H. rewrite FunctionsTextFacts.chunk_list_positive by lia.
  unfold slices. rewrite Nat2Z.id, map_map. reflexivity.
Qed.

Lemma slices_concat {A} (size : nat) (l : list A) : 0 < size -> concat (slices size l) = l.
Proof.
  intros H. unfold slices. rewrite map_map.
  apply FunctionsTextFacts.chunks_concat; [exact H|].
  apply FunctionsTextFacts.chunk_count_bounds. exact H.
Qed.

Lemma slices_length {A} (size : nat) (l : list A) :
  Forall (fun batch => length batch <= size) (slices size l).
Proof.
  apply List.Forall_forall. intros batch Hb. unfold slices in Hb.
  apply in_map_iff in Hb as (j & <- & _). rewrite length_take. lia.
Qed.

Lemma fold_batches {A B C} (f : A -> C -> A) (g : B -> list C) (bs : list B) : forall a,
  fold_left (fun acc b => fold_left f (g b) acc) bs a
  = fold_left f (concat (map g bs)) a.
Proof.
  induction bs as [|b bs IH]; intros a; [reflexivity|].
  cbn [fold_left map concat]. rewrite fold_left_app. apply IH.
Qed.

Lemma fold_extend {B C} (g : B -> list C) (bs : list B) : forall acc,
  fold_left (fun results b => results ++ g b) bs acc = acc ++ concat (map g bs).
Proof.
  induction bs as [|b bs IH]; intros acc; cbn [fold_left map concat].
  - rewrite app_nil_r. reflexivity.
  - rewrite IH, <- app_assoc. reflexivity.
Qed.

End BatchesFacts.

(** * Properties of the abstract collector *)

Module GeneratorsUtilsFacts.
Import PyStr PyStrFacts Batches BatchesFacts GeneratorsUtils.

(** ** Stripping *)

Lemma rstrip_idem s : rstrip (rstrip s) = rstrip s.
Proof.
  induction s as [|c rest IH]; [reflexivity|]. cbn [rstrip].
  destruct (rstrip rest) as [|c' r'] eqn:E.
  - destruct (isspace c) eqn:Hc; [reflexivity|]. cbn [rstrip]. rewrite Hc. reflexivity.
  - cbn [rstrip]. cbn [rstrip] in IH. rewrite IH. reflexivity.
Qed.

Lemma lstrip_started s : lstrip s = "" \/ starts_token (lstrip s) = true.
Proof.
  induction s as [|c rest IH]; [left; reflexivity|]. cbn [lstrip].
  destruct (isspace c) eqn:Hc; [exact IH|]. right. cbn. rewrite Hc. reflexivity.
Qed.

Lemma rstrip_started s : starts_token s = true -> starts_token (rstrip s) = true.
Proof.
  destruct s as [|c rest]; [discriminate|]. cbn [starts_token rstrip]. intros Hc.
  destruct (rstrip rest); [|exact Hc].
  apply negb_true_iff in Hc. rewrite Hc. cbn. rewrite Hc. reflexivity.
Qed.

Lemma lstrip_of_started s : starts_token s = true -> lstrip s = s.
Proof.
  destruct s as [|c rest]; [discriminate|]. cbn. intros Hc.
  apply negb_true_iff in Hc. rewrite Hc. reflexivity.
Qed.

Lemma strip_idem s : strip (strip s) = strip s.
Proof.
  unfold strip. destruct (lstrip_started s) as [E|E].
  - rewrite E. reflexivity.
  - rewrite (lstrip_of_started _ (rstrip_started _ E)). apply rstrip_idem.
Qed.

(** ** Pieces *)

Lemma length_split_on_cons sep c rest :
  length (split_on sep (String c rest)) =
  (if bool_decide (c = sep) then 1 else 0) + length (split_on sep rest).
Proof.
  cbn [split_on]. destruct (bool_decide (c = sep)); [reflexivity|].
  destruct (split_on sep rest) eqn:E; [|reflexivity].
  exfalso. eapply split_on_nonempty. exact E.
Qed.

Lemma length_split_on_pos sep s : 1 <= length (split_on sep s).
Proof.
  destruct (split_on sep s) eqn:E; [|cbn; lia].
  exfalso. eapply split_on_nonempty. exact E.
Qed.

Lemma length_split_on_lstrip sep s :
  length (split_on sep (lstrip s)) <= length (split_on sep s).
Proof.
  induction s as [|c rest IH]; [reflexivity|]. cbn [lstrip].
  destruct (isspace c); [|reflexivity].
  rewrite length_split_on_cons. lia.
Qed.

Lemma length_split_on_rstrip sep s :
  length (split_on sep (rstrip s)) <= length (split_on sep s).
Proof.
  induction s as [|c rest IH]; [reflexivity|]. cbn [rstrip].
  rewrite (length_split_on_cons sep c rest).
  pose proof (length_split_on_pos sep rest) as Hpos.
  destruct (rstrip rest) as [|c' r'] eqn:E.
  - destruct (isspace c).
    + cbn. lia.
    + rewrite length_split_on_cons. cbn [split_on length]. lia.
  - rewrite length_split_on_cons. lia.
Qed.

Lemma length_split_on_strip sep s :
  length (split_on sep (strip s)) <= length (split_on sep s).
Proof.
  unfold strip. etransitivity; [apply length_split_on_rstrip|apply length_split_on_lstrip].
Qed.

(** The pieces of a separator split hold no separator. *)
Lemma split_on_pieces sep s : Forall (fun p => find sep p = None) (split_on sep s).
Proof.
  induction s as [|c rest IH]; cbn [split_on].
  - constructor; [reflexivity|constructor].
  - destruct (bool_decide (c = sep)) eqn:Hc.
    + constructor; [reflexivity|exact IH].
    + destruct (split_on sep rest) as [|p ps].
      * constructor; [|constructor]. cbn. rewrite Hc. reflexivity.
      * apply Forall_cons in IH as [Hp Hps]. constructor; [|exact Hps].
        cbn. rewrite Hc, Hp. reflexivity.
Qed.

Lemma split_on_piece sep p : find sep p = None -> split_on sep p = [p].
Proof.
  induction p as [|c p IH]; [reflexivity|]. cbn [find split_on].
  destruct (bool_decide (c = sep)); [discriminate|].
  destruct (find sep p); [discriminate|]. intros _. rewrite IH by reflexivity. reflexivity.
Qed.

Lemma split_on_piece_sep sep p r :
  find sep p = None -> split_on sep (p +:+ String sep r) = p :: split_on sep r.
Proof.
  induction p as [|c p IH]; cbn [find].
  - intros _. rewrite append_nil. cbn [split_on].
    rewrite bool_decide_eq_true_2 by reflexivity. reflexivity.
  - destruct (bool_decide (c = sep)) eqn:Hc; [discriminate|].
    destruct (find sep p); [discriminate|]. intros _.
    rewrite append_cons. cbn [split_on]. rewrite Hc, IH by reflexivity. reflexivity.
Qed.

(** Splitting the join of pieces gives the pieces back. *)
Lemma split_on_join sep ps :
  Forall (fun p => find sep p = None) ps -> ps <> [] ->
  split_on sep (join (String sep "") ps) = ps.
Proof.
  induction 1 as [|p ps Hp Hps IH]; [congruence|]. intros _.
  destruct ps as [|p' ps'].
  - apply split_on_piece. exact Hp.
  - change (join (String sep "") (p :: p' :: ps'))
      with (p +:+ String sep (join (String sep "") (p' :: ps'))).
    rewrite (split_on_piece_sep sep p _ Hp), IH by discriminate. reflexivity.
Qed.

Lemma length_split_on_join sep ps :
  Forall (fun p => find sep p = None) ps ->
  length (split_on sep (join (String sep "") ps)) = Nat.max 1 (length ps).
Proof.
  intros H. destruct ps as [|p ps]; [reflexivity|].
  rewrite split_on_join by (exact H || discriminate). cbn [length]. lia.
Qed.

Lemma length_slice_to {A} (size : option Z) (l : list A) :
  length (slice_to size l) <= length l
  /\ forall z, size = Some z -> (0 <= z)%Z -> length (slice_to size l) <= Z.to_nat z.
Proof.
  unfold slice_to. destruct size as [z|]; [|split; [reflexivity|discriminate]].
  destruct (z <? 0)%Z eqn:Hz; rewrite length_take.
  - split; [lia|]. intros z' E; inversion E; subst. apply Z.ltb_lt in Hz. lia.
  - split; [lia|]. intros z' E; inversion E; subst. lia.
Qed.

Lemma slice_to_pieces (size : option Z) sep s :
  Forall (fun p => find sep p = None) (slice_to size (split_on sep s)).
Proof.
  pose proof (split_on_pieces sep s) as H. unfold slice_to.
  destruct size as [z|]; [|exact H].
  destruct (z <? 0)%Z; apply Forall_take; exact H.
Qed.

Lemma cut_abstract_pieces (abstract : string) (size : option Z) :
  length (split_on " "%char (_cut_abstract abstract size))
  <= Nat.max 1 (length (slice_to size (split_on " "%char abstract))).
Proof.
  unfold _cut_abstract. etransitivity; [apply length_split_on_strip|].
  rewrite (length_split_on_join " "%char) by apply slice_to_pieces. reflexivity.
Qed.

(** X23: without a size, or with a size that is at least the number of
    space-separated pieces, [_cut_abstract] returns the abstract stripped of
    its leading and trailing whitespace. *)
Theorem cut_abstract_whole (abstract : string) (size : option Z) :
  match size with
  | None => True
  | Some z => (Z.of_nat (length (split_on " "%char abstract)) <= z)%Z
  end ->
  _cut_abstract abstract size = strip abstract.
Proof.
  intros H. unfold _cut_abstract. f_equal.
  rewrite <- (join_split_on " "%char abstract) at 2. f_equal.
  destruct size as [z|]; [|reflexivity]. unfold slice_to.
  replace (z <? 0)%Z with false by (symmetry; apply Z.ltb_ge; lia).
  apply take_ge. lia.
Qed.

(** X24: what [_cut_abstract] returns neither starts nor ends with whitespace
    (stripping it again changes nothing), it never has more space-separated
    pieces than the abstract, and for a size that is not negative it has at
    most that many pieces (one piece, possibly empty, for the size 0). *)
Theorem cut_abstract_bounded (abstract : string) (z : Z) :
  (0 <= z)%Z ->
  let r := _cut_abstract abstract (Some z) in
  strip r = r
  /\ length (split_on " "%char r) <= length (split_on " "%char abstract)
  /\ length (split_on " "%char r) <= Nat.max 1 (Z.to_nat z).
Proof.
  intros Hz r. split; [apply strip_idem|].
  pose proof (cut_abstract_pieces abstract (Some z)) as Hp. fold r in Hp.
  destruct (length_slice_to (Some z) (split_on " "%char abstract)) as [H1 H2].
  specialize (H2 z eq_refl Hz).
  pose proof (length_split_on_pos " "%char abstract). split; lia.
Qed.

(** ** The collector *)

Section Collector.
Context (es_search : list string -> list (string * Doc)).

Lemma get_es_docs_by_ids_concat (docs_ids : list string) :
  _get_es_docs_by_ids es_search docs_ids
  = concat (map es_search (slices (Pos.to_nat 10000) docs_ids)).
Proof. unfold _get_es_docs_by_ids. rewrite fold_extend. reflexivity. Qed.

Lemma add_abstracts_raise hits : forall e,
  fold_left add_abstracts hits (Raise e) = Raise e.
Proof. induction hits as [|h hits IH]; intros e; [reflexivity|]. cbn. apply IH. Qed.

Lemma add_abstracts_ok hits : forall abstracts r,
  fold_left add_abstracts hits (Ok abstracts) = Ok r ->
  Forall (fun hit => is_Some (hit.2 !! "description")) hits
  /\ forall uri, is_Some (r !! uri) <->
                 is_Some (abstracts !! uri) \/ exists doc, In (uri, doc) hits.
Proof.
  induction hits as [|[id doc] hits IH]; intros abstracts r Hrun; cbn [fold_left] in Hrun.
  - inversion Hrun; subst. split; [constructor|].
    intros uri. split; [auto|]. intros [H|(doc & [])]. exact H.
  - unfold add_abstracts at 2 in Hrun. cbn [mbind result_bind fst snd] in Hrun.
    destruct (doc !! "description") as [description|] eqn:Hd;
      [|rewrite add_abstracts_raise in Hrun; discriminate].
    destruct (IH _ _ Hrun) as [Hall Hkeys]. split.
    + constructor; [cbn; rewrite Hd; eauto|exact Hall].
    + intros uri. rewrite Hkeys. destruct (decide (id = uri)) as [->|Hne].
      * rewrite lookup_insert_eq. split; [intros _|eauto].
        right. exists doc. left. reflexivity.
      * rewrite lookup_insert_ne by exact Hne. split.
        -- intros [H|(d & Hin)]; [auto|]. right. exists d. right. exact Hin.
        -- intros [H|(d & [E|Hin])]; [auto| |eauto].
           inversion E. congruence.
Qed.

Lemma add_abstracts_fails hits : forall abstracts e,
  fold_left add_abstracts hits (Ok abstracts) = Raise e ->
  e = KeyError /\ Exists (fun hit => hit.2 !! "description" = None) hits.
Proof.
  induction hits as [|h hits IH]; intros abstracts e Hrun; cbn [fold_left] in Hrun;
    [discriminate|].
  unfold add_abstracts at 2 in Hrun. cbn [mbind result_bind] in Hrun.
  destruct (h.2 !! "description") eqn:Hd.
  - destruct (IH _ _ Hrun) as [He Hex]. split; [exact He|]. apply Exists_cons_tl. exact Hex.
  - rewrite add_abstracts_raise in Hrun. inversion Hrun. split; [reflexivity|].
    apply Exists_cons_hd. exact Hd.
Qed.

(** X25: when [fetch_short_abstracts] returns, its result has an entry
    exactly for the ids of the hits of the index; every value is stripped, and
    for a number of tokens that is not negative it has at most that many
    space-separated pieces. *)
Theorem fetch_short_abstracts_values (uris : list string) (max_tokens : option Z)
    (r : gmap string string) :
  fetch_short_abstracts es_search uris max_tokens = Ok r ->
  (forall uri, is_Some (r !! uri) <->
               exists doc, In (uri, doc) (concat (map es_search (slices (Pos.to_nat 10000) uris))))
  /\ forall uri v, r !! uri = Some v ->
       strip v = v
       /\ forall z, max_tokens = Some z -> (0 <= z)%Z ->
                    length (split_on " "%char v) <= Nat.max 1 (Z.to_nat z).
Proof.
  unfold fetch_short_abstracts, _get_abstracts_by_ids. rewrite get_es_docs_by_ids_concat.
  destruct (fold_left add_abstracts _ (Ok ∅)) as [abstracts|e] eqn:Hrun; [|discriminate].
  intros E; inversion E; subst r. clear E.
  destruct (add_abstracts_ok _ _ _ Hrun) as [_ Hkeys]. split.
  - intros uri. rewrite lookup_fmap, fmap_is_Some, Hkeys, lookup_empty. split.
    + intros [[? C]|H]; [discriminate|exact H].
    + auto.
  - intros uri v Hv. rewrite lookup_fmap in Hv.
    destruct (abstracts !! uri) as [entity_abstracts|]; [|discriminate].
    cbn in Hv. inversion Hv; subst v. clear Hv.
    destruct entity_abstracts as [|first rest]; cbn [short_abstract].
    + split; [reflexivity|]. intros z _ _. cbn. lia.
    + split; [apply strip_idem|]. intros z -> Hz.
      apply (cut_abstract_bounded first z Hz).
Qed.

(** X26: [fetch_short_abstracts] either returns, every hit of the index
    having the field [description], or raises [KeyError], a hit lacking it. *)
Theorem fetch_short_abstracts_outcome (uris : list string) (max_tokens : option Z) :
  let hits := concat (map es_search (slices (Pos.to_nat 10000) uris)) in
  (exists r, fetch_short_abstracts es_search uris max_tokens = Ok r
             /\ Forall (fun hit => is_Some (hit.2 !! "description")) hits)
  \/ (fetch_short_abstracts es_search uris max_tokens = Raise KeyError
      /\ Exists (fun hit => hit.2 !! "description" = None) hits).
Proof.
  intros hits. unfold fetch_short_abstracts, _get_abstracts_by_ids.
  rewrite get_es_docs_by_ids_concat. fold hits.
  destruct (fold_left add_abstracts hits (Ok ∅)) as [abstracts|e] eqn:Hrun.
  - left. eexists. split; [reflexivity|]. apply (add_abstracts_ok _ _ _ Hrun).
  - right. destruct (add_abstracts_fails _ _ _ Hrun) as [-> Hex]. auto.
Qed.

End Collector.

End GeneratorsUtilsFacts.

(** * Properties of the endpoint wrapper *)

Module UtilsKgsFacts.
Import Batches BatchesFacts UtilsKgs.

Lemma add_relation_lookup flt m b key :
  no_empty m ->
  no_empty (add_relation flt m b)
  /\ default [] (add_relation flt m b !! key)
     = default [] (m !! key) ++ relations_of flt key [b].
Proof.
  intros Hm. unfold add_relation, relations_of, keeps. cbn [List.filter].
  destruct (flt && bool_decide (b.2 ∈ PROPERTIES_BLACKLIST)) eqn:Hf; cbn [negb].
  - rewrite andb_false_r. cbn. rewrite app_nil_r. auto.
  - rewrite andb_true_r. split.
    + intros k rels. destruct (decide ((b.1.1, b.1.2) = k)) as [<-|Hne].
      * rewrite lookup_insert_eq. intros E; inversion E. intros C.
        apply app_eq_nil in C as [_ C]. discriminate.
      * rewrite lookup_insert_ne by exact Hne.
        destruct (m !! (b.1.1, b.1.2)); [apply Hm|].
        rewrite lookup_insert_ne by exact Hne. apply Hm.
    + destruct (decide ((b.1.1, b.1.2) = key)) as [<-|Hne].
      * rewrite bool_decide_eq_true_2 by reflexivity. rewrite lookup_insert_eq. cbn.
        destruct (m !! (b.1.1, b.1.2)) as [l|] eqn:E; rewrite ?E; [reflexivity|].
        rewrite lookup_insert_eq. reflexivity.
      * rewrite bool_decide_eq_false_2 by exact Hne. cbn. rewrite app_nil_r.
        rewrite lookup_insert_ne by exact Hne.
        destruct (m !! (b.1.1, b.1.2)); [reflexivity|].
        rewrite lookup_insert_ne by exact Hne. reflexivity.
Qed.

Lemma relations_of_app flt key l1 l2 :
  relations_of flt key (l1 ++ l2) = relations_of flt key l1 ++ relations_of flt key l2.
Proof. unfold relations_of. rewrite List.filter_app, map_app. reflexivity. Qed.

Lemma fold_add_relation flt bs : forall m key,
  no_empty m ->
  no_empty (fold_left (add_relation flt) bs m)
  /\ default [] (fold_left (add_relation flt) bs m !! key)
     = default [] (m !! key) ++ relations_of flt key bs.
Proof.
  induction bs as [|b bs IH]; intros m key Hm; cbn [fold_left].
  - split; [exact Hm|]. unfold relations_of. cbn. rewrite app_nil_r. reflexivity.
  - destruct (add_relation_lookup flt m b key Hm) as [Hm1 E1].
    destruct (IH _ key Hm1) as [Hm2 E2]. split; [exact Hm2|].
    rewrite E2, E1, <- app_assoc.
    change (b :: bs) with ([b] ++ bs). rewrite relations_of_app. reflexivity.
Qed.

Lemma collected_lookup flt (bs : list Binding) key :
  fold_left (add_relation flt) bs ∅ !! key =
  match relations_of flt key bs with
  | [] => None
  | rels => Some rels
  end.
Proof.
  assert (H0 : no_empty (∅ : gmap (string * string) (list string))).
  { intros k rels. rewrite lookup_empty. discriminate. }
  destruct (fold_add_relation flt bs ∅ key H0) as [Hne E].
  rewrite lookup_empty in E. cbn [default app] in E.
  destruct (fold_left (add_relation flt) bs ∅ !! key) as [rels|] eqn:Hk.
  - cbn in E. subst rels.
    destruct (relations_of flt key bs) eqn:Er; [|reflexivity].
    exfalso. eapply Hne; [exact Hk|reflexivity].
  - cbn in E. rewrite <- E. reflexivity.
Qed.

(** [dict] keeps, for every key, the value of its last pair. *)
Lemma dict_lookup {V} (results : list (string * V)) (k : string) :
  dict results !! k
  = last (map snd (List.filter (fun kv => bool_decide (kv.1 = k)) results)).
Proof.
  unfold dict. induction results as [|[k' v] results IH] using rev_ind; [reflexivity|].
  rewrite fold_left_app, List.filter_app, map_app. cbn [fold_left List.filter fst snd].
  destruct (decide (k' = k)) as [->|Hne].
  - rewrite lookup_insert_eq, bool_decide_eq_true_2 by reflexivity.
    cbn [map]. rewrite last_snoc. reflexivity.
  - rewrite lookup_insert_ne, bool_decide_eq_false_2 by exact Hne.
    cbn [map]. rewrite app_nil_r. exact IH.
Qed.

Section Wrapper.
Context (sparql : list (string * string) -> list Binding).
Context (sparql_abstracts : list string -> list (string * string)).

Lemma get_relations_unfold (subj_obj_pairs : list (string * string))
    (filter_blacklisted : bool) :
  get_relations sparql subj_obj_pairs filter_blacklisted =
  fold_left (add_relation filter_blacklisted)
            (concat (map sparql (slices 25 subj_obj_pairs))) ∅.
Proof. unfold get_relations. apply fold_batches. Qed.

(** X27: [get_relations] queries the pairs in the batches that [chunk_list]
    yields for the size 25: at most 25 pairs each, together the input.  It
    returns for every pair the relations of its bindings in the order they
    were answered, without the blacklisted ones when they are filtered; a pair
    without such a relation is not a key of the result, so no returned list is
    empty. *)
Theorem get_relations_result (subj_obj_pairs : list (string * string))
    (filter_blacklisted : bool) :
  let batches := slices 25 subj_obj_pairs in
  FunctionsText.chunk_list subj_obj_pairs 25 = Ok batches
  /\ concat batches = subj_obj_pairs
  /\ Forall (fun batch => length batch <= 25) batches
  /\ forall key,
       get_relations sparql subj_obj_pairs filter_blacklisted !! key =
       match relations_of filter_blacklisted key (concat (map sparql batches)) with
       | [] => None
       | rels => Some rels
       end.
Proof.
  intros batches. split; [apply (slices_chunk_list 25); lia|].
  split; [apply slices_concat; lia|]. split; [apply slices_length|].
  intros key. rewrite get_relations_unfold. apply collected_lookup.
Qed.

(** X28: with the filter on, no returned relation is blacklisted, and
    every returned relation was answered by the endpoint for its pair. *)
Theorem get_relations_filtered (subj_obj_pairs : list (string * string))
    (key : string * string) (rels : list string) (r : string) :
  get_relations sparql subj_obj_pairs true !! key = Some rels -> In r rels ->
  ~ In r PROPERTIES_BLACKLIST
  /\ exists batch,
      In batch (slices 25 subj_obj_pairs) /\ In (key.1, key.2, r) (sparql batch).
Proof.
  intros Hk Hr. rewrite get_relations_unfold, collected_lookup in Hk.
  assert (Hin : In r (relations_of true key (concat (map sparql (slices 25 subj_obj_pairs))))).
  { destruct (relations_of true key (concat (map sparql (slices 25 subj_obj_pairs))));
      inversion Hk; subst; exact Hr. }
  unfold relations_of in Hin. apply in_map_iff in Hin as ([[e v] r'] & Er & Hf).
  cbn in Er. subst r'. apply filter_In in Hf as [Hb Hkeep].
  unfold keeps in Hkeep. cbn [fst snd andb] in Hkeep.
  apply andb_true_iff in Hkeep as [Hkey Hbl].
  apply bool_decide_eq_true in Hkey. apply negb_true_iff, bool_decide_eq_false in Hbl.
  split.
  - intros C. apply Hbl. apply list_elem_of_In. exact C.
  - apply in_concat in Hb as (bl & Hbl1 & Hbl2).
    apply in_map_iff in Hbl1 as (batch & <- & Hbatch).
    exists batch. subst key. auto.
Qed.

(** X29: [fetch_long_abstracts] queries the URIs in batches of at most 25
    that together are the input, and returns for every URI the abstract of the
    last binding answered for it, over all batches in order; a URI without a
    binding is not a key of the result. *)
Theorem fetch_long_abstracts_last (uris : list string) (uri : string) :
  let batches := slices 25 uris in
  concat batches = uris
  /\ Forall (fun batch => length batch <= 25) batches
  /\ fetch_long_abstracts sparql_abstracts uris !! uri
     = last (abstracts_of uri (concat (map sparql_abstracts batches))).
Proof.
  intros batches. split; [apply slices_concat; lia|]. split; [apply slices_length|].
  unfold fetch_long_abstracts. rewrite fold_extend. cbn [app]. apply dict_lookup.
Qed.

End Wrapper.

End UtilsKgsFacts.

(** * The further properties on concrete inputs *)

Module MoreWitnesses.
Import Functions FunctionsFacts Annotators AnnotatorsFacts Sample MoreSamples.

(** Closes an equation between closed terms by evaluating both sides. *)
Ltac vm_refl :=
  match goal with |- ?a = ?b => exact (@eq_refl _ b <: a = b) end.

Lemma chunk_list_concat_witness :
  exists chunks,
    FunctionsText.chunk_list [1; 2; 3; 4; 5] 2 = Ok chunks /\ concat chunks = [1; 2; 3; 4; 5].
Proof. apply FunctionsTextFacts.chunk_list_concat. reflexivity. Defined.

Lemma chunk_list_sizes_witness :
  exists chunks,
    FunctionsText.chunk_list [1; 2; 3; 4; 5] 2 = Ok chunks /\ length chunks = 3.
Proof.
  destruct (FunctionsTextFacts.chunk_list_sizes [1; 2; 3; 4; 5] 2 eq_refl)
    as (chunks & Hrun & Hlen & _).
  exists chunks. split; [exact Hrun|exact Hlen].
Defined.

Lemma weighting_by_ranking_alpha_one_witness :
  exists scored_out,
    weighting_by_ranking cosine1 candidates_ABC 1 None =
      Ok (scored_out ++ [Build_ScoredCandidate "C" 2 None None])
    /\ map original_rank scored_out = [0; 1].
Proof.
  apply (FusionOrderFacts.weighting_by_ranking_alpha_one cosine1 candidates_ABC 1).
  reflexivity.
Defined.

Lemma weighting_by_ranking_zero_default_witness :
  weighting_by_ranking cosine1 candidates_ABC (1 # 2) (Some (0 # 5)) =
  weighting_by_ranking cosine1 candidates_ABC (1 # 2) None.
Proof. apply FusionOrderFacts.weighting_by_ranking_zero_default. reflexivity. Defined.

Lemma annotate_table_write_once_witness :
  (exists t w',
      annotate_table ascii_lower "picky" picky_generator "/repo/annotators"
        posix_open_wb pickle_ok nested_table empty_world = (Raise FileNotFoundError, t, w')
      /\ (forall p, files w' !! p = None)
      /\ calls w' <= 1)
  /\ (exists t w',
        annotate_table ascii_lower "picky" picky_generator "/repo/annotators"
          posix_open_wb pickle_fails table2 empty_world = (Raise PicklingError, t, w')
        /\ (forall p, p ∈ broken w' ->
                      p = "/repo/annotators/annotations/Round1/picky/t2.pkl")).
Proof.
  split.
  - assert (E : exists t w',
               annotate_table ascii_lower "picky" picky_generator "/repo/annotators"
                 posix_open_wb pickle_ok nested_table empty_world
               = (Raise FileNotFoundError, t, w')).
    { vm_compute. do 2 eexists. reflexivity. }
    destruct E as (t & w' & E).
    destruct (AnnotatorsDatasetFacts.annotate_table_write_once ascii_lower "picky"
                picky_generator "/repo/annotators" posix_open_wb pickle_ok
                nested_table empty_world _ t w' E)
      as (_ & _ & Hfiles & _ & Hcalls).
    exists t, w'. split; [exact E|]. split; [|apply Hcalls].
    intros p. destruct (files w' !! p) as [x|] eqn:Hp; [|reflexivity].
    destruct (Hfiles p) as [[y Hy]|(_ & stored & C)]; [rewrite Hp; eauto| |discriminate C].
    cbn in Hy. rewrite lookup_empty in Hy. discriminate.
  - assert (E : exists t w',
               annotate_table ascii_lower "picky" picky_generator "/repo/annotators"
                 posix_open_wb pickle_fails table2 empty_world
               = (Raise PicklingError, t, w')).
    { vm_compute. do 2 eexists. reflexivity. }
    destruct E as (t & w' & E).
    destruct (AnnotatorsDatasetFacts.annotate_table_write_once ascii_lower "picky"
                picky_generator "/repo/annotators" posix_open_wb pickle_fails
                table2 empty_world _ t w' E)
      as (_ & _ & _ & Hbroken & _).
    exists t, w'. split; [exact E|].
    intros p Hp. destruct (Hbroken p Hp) as [C|[-> _]]; [|vm_compute; reflexivity].
    cbn in C. apply elem_of_empty in C. destruct C.
Defined.


Lemma annotate_dataset_serial_witness :
  exists out w',
    AnnotatorsDataset.annotate_dataset ascii_lower "picky" picky_generator
      "/repo/annotators" posix_open_wb pickle_ok no_pool one_worker dataset12 empty_world = (Ok out, w')
    /\ length out = 2
    /\ calls w' <= 2.
Proof.
  assert (E : exists out w',
             AnnotatorsDataset.annotate_dataset ascii_lower "picky" picky_generator
               "/repo/annotators" posix_open_wb pickle_ok no_pool one_worker dataset12 empty_world = (Ok out, w')).
  { vm_compute. do 2 eexists. reflexivity. }
  destruct E as (out & w' & E).
  destruct (AnnotatorsDatasetFacts.annotate_dataset_serial ascii_lower "picky"
              picky_generator "/repo/annotators" posix_open_wb pickle_ok no_pool one_worker dataset12
              empty_world out w' eq_refl E) as (_ & Hlen & Hcalls & _).
  exists out, w'. split; [exact E|]. split; [exact Hlen|exact Hcalls].
Defined.

Lemma annotate_dataset_idempotent_witness :
  exists out w' w'',
    AnnotatorsDataset.annotate_dataset ascii_lower "picky" picky_generator
      "/repo/annotators" posix_open_wb pickle_ok no_pool one_worker dataset12 empty_world = (Ok out, w')
    /\ AnnotatorsDataset.annotate_dataset ascii_lower "picky" picky_generator
         "/repo/annotators" posix_open_wb pickle_ok no_pool one_worker dataset12 w' = (Ok out, w'')
    /\ calls w'' = calls w'.
Proof.
  assert (E : exists out w',
             AnnotatorsDataset.annotate_dataset ascii_lower "picky" picky_generator
               "/repo/annotators" posix_open_wb pickle_ok no_pool one_worker dataset12 empty_world = (Ok out, w')).
  { vm_compute. do 2 eexists. reflexivity. }
  destruct E as (out & w' & E).
  destruct (AnnotatorsDatasetFacts.annotate_dataset_idempotent ascii_lower "picky"
              picky_generator "/repo/annotators" posix_open_wb pickle_ok no_pool one_worker dataset12
              empty_world out w' eq_refl E) as (w'' & Hrun & Hcalls & _).
  exists out, w', w''. auto.
Defined.

Lemma annotate_dataset_fail_fast_witness :
  exists w2,
    AnnotatorsDataset.annotate_dataset ascii_lower "picky" picky_generator
      "/repo/annotators" posix_open_wb pickle_ok no_pool one_worker dataset_bad empty_world
    = (Raise (GeneratorError "no index"), w2)
    /\ is_Some (files w2 !! "/repo/annotators/annotations/Round1/picky/t2.pkl").
Proof.
  destruct (AnnotatorsDataset.annotate_each ascii_lower "picky" picky_generator
              "/repo/annotators" posix_open_wb pickle_ok [table2] [] empty_world) as [[rs|e] w1] eqn:E1;
    [|vm_compute in E1; discriminate].
  assert (E2 : exists t w2,
             annotate_table ascii_lower "picky" picky_generator "/repo/annotators"
               posix_open_wb pickle_ok bad_table w1 = (Raise (GeneratorError "no index"), t, w2)).
  { pose proof E1 as E1'. vm_compute in E1'. injection E1' as _ Hw1.
    rewrite <- Hw1. vm_compute. do 2 eexists. reflexivity. }
  destruct E2 as (t & w2 & E2).
  destruct (AnnotatorsDatasetFacts.annotate_dataset_fail_fast ascii_lower "picky"
              picky_generator "/repo/annotators" posix_open_wb pickle_ok no_pool one_worker dataset_bad 3
              [table2] [table1] bad_table empty_world w1 w2 rs
              (GeneratorError "no index") t eq_refl eq_refl eq_refl E1 E2)
    as [Hrun Hall].
  exists w2. split; [exact Hrun|].
  inversion Hall as [|? r ? ? Hfile _]; subst. exists r. exact Hfile.
Defined.

Lemma cache_file_injective_witness :
  dataset_id table1 = dataset_id table1 /\ "lookup" = "lookup" /\ tab_id table1 = tab_id table1.
Proof.
  apply (AnnotatorsDatasetFacts.cache_file_injective "/repo/annotators" "lookup" "lookup"
           table1 table1);
    try (split; [discriminate|reflexivity]); reflexivity.
Defined.

Lemma table_path_injective_witness :
  Datasets.TT = Datasets.TT /\ "t1" = "t1".
Proof.
  apply (DatasetsFacts.table_path_injective "/repo/datasets" Datasets.TT Datasets.TT "t1" "t1").
  reflexivity.
Defined.

Lemma cut_abstract_whole_witness :
  GeneratorsUtils._cut_abstract " Paris is the capital of France " (Some 10%Z)
  = "Paris is the capital of France".
Proof.
  rewrite GeneratorsUtilsFacts.cut_abstract_whole; [vm_compute; reflexivity|].
  vm_compute. discriminate.
Defined.

Lemma cut_abstract_bounded_witness :
  PyStr.strip (GeneratorsUtils._cut_abstract " Paris is the capital of France " (Some 3%Z))
  = GeneratorsUtils._cut_abstract " Paris is the capital of France " (Some 3%Z)
  /\ length (PyStr.split_on " " (GeneratorsUtils._cut_abstract
                                   " Paris is the capital of France " (Some 3%Z))) <= 3.
Proof.
  destruct (GeneratorsUtilsFacts.cut_abstract_bounded
              " Paris is the capital of France " 3%Z ltac:(lia)) as (Hs & _ & Hn).
  split; [exact Hs|exact Hn].
Defined.

Lemma fetch_short_abstracts_values_witness :
  exists r,
    GeneratorsUtils.fetch_short_abstracts sample_es ["dbr:Paris"] (Some 3%Z) = Ok r
    /\ is_Some (r !! "dbr:Paris")
    /\ forall v, r !! "dbr:Paris" = Some v -> length (PyStr.split_on " " v) <= 3.
Proof.
  exists (GeneratorsUtils.short_abstract (Some 3%Z)
            <$> {[ "dbr:Paris" := [" Paris is the capital of France "] ]}).
  assert (E : GeneratorsUtils.fetch_short_abstracts sample_es ["dbr:Paris"] (Some 3%Z)
              = Ok (GeneratorsUtils.short_abstract (Some 3%Z)
                      <$> {[ "dbr:Paris" := [" Paris is the capital of France "] ]}))
    by vm_refl.
  destruct (GeneratorsUtilsFacts.fetch_short_abstracts_values sample_es ["dbr:Paris"]
              (Some 3%Z) _ E) as [Hkeys Hvals].
  split; [exact E|]. split.
  - apply Hkeys. eexists. left. reflexivity.
  - intros v Hv. destruct (Hvals _ _ Hv) as [_ Hn]. apply (Hn 3%Z eq_refl). lia.
Defined.

Lemma get_relations_filtered_witness :
  ~ In "dbo:capital" UtilsKgs.PROPERTIES_BLACKLIST
  /\ exists batch,
      In batch (Batches.slices 25 [("dbr:France", "paris")])
      /\ In ("dbr:France", "paris", "dbo:capital") (sample_sparql batch).
Proof.
  apply (UtilsKgsFacts.get_relations_filtered sample_sparql [("dbr:France", "paris")]
           ("dbr:France", "paris") ["dbo:capital"] "dbo:capital").
  - vm_refl.
  - left. reflexivity.
Defined.

End MoreWitnesses.
